(** * StakeFlow indexer: the ingestion pipeline, embedded and verified

    The development follows [backend/src/services/blockchain.py] (the chain
    client) and [backend/src/services/indexer.py] (the indexing engine).

    - Python integers are [Z]; the amount columns are decimal text, written
      with [str] and read back with [int].
    - [datetime] values are whole seconds counted from 1970-01-01 00:00:00
      and a [timedelta] is a number of seconds; building a [timedelta] and
      adding one to a [datetime] raise [OverflowError] outside the ranges
      of the two types.
    - The storage session is a pair of a committed database and the pending
      view of the open transaction; [commit] publishes the pending view,
      [rollback] throws it away, also when the storage engine then reports
      a failure.
    - Everything outside the process (the RPC endpoint, the storage engine's
      availability, the wall clock, the stop signal) is a [World]: a family
      of answers indexed by a tick that every interaction advances.  A retry
      therefore sees a later answer than the attempt it repeats. *)

From Stdlib Require Import ZArith String Ascii List Bool Lia.
From Stdlib Require Import DecimalString DecimalZ Permutation Sorted.
Import ListNotations.

Local Open Scope string_scope.
Local Open Scope list_scope.
Local Open Scope Z_scope.

(* ================================================================== *)
(** ** Python values used by the services *)

Module Py.

(** [str(n)] on an integer. *)
Definition str (n : Z) : string := NilZero.string_of_int (Z.to_int n).

(** [int(s)] on text: an optional minus sign and decimal digits.  The
    surrounding blanks, the plus sign and the digit separators that Python
    also accepts never occur in text produced by [str]; on them this
    function answers [None] where Python would still parse. *)
Definition int (s : string) : option Z :=
  option_map Z.of_int (NilZero.int_of_string s).

Definition lower_ascii (c : ascii) : ascii :=
  let n := nat_of_ascii c in
  if (Nat.leb 65 n && Nat.leb n 90)%bool then ascii_of_nat (n + 32) else c.

(** [s.lower()] on ASCII text (addresses are hexadecimal text). *)
Fixpoint lower (s : string) : string :=
  match s with
  | EmptyString => EmptyString
  | String c s' => String (lower_ascii c) (lower s')
  end.

(** [range(n)]. *)
Definition range (n : Z) : list Z := map Z.of_nat (seq 0 (Z.to_nat n)).

(** The exceptions that the modelled calls can raise. *)
Inductive exn : Type :=
| ValueError            (* int() on text that is not a number *)
| AttributeError        (* args.amount on an event without one *)
| MultipleResultsFound  (* scalar_one / scalar_one_or_none *)
| NoResultFound         (* scalar_one *)
| DatabaseError         (* the storage engine failed a round trip *)
| RpcError              (* the endpoint failed a call or a decode *)
| RetryError            (* tenacity gave up *)
| OverflowError         (* a timedelta or a datetime out of range *)
| TimeoutError.         (* asyncio.TimeoutError, the built-in TimeoutError *)

Inductive result (A : Type) : Type :=
| Ok (a : A)
| Raise (e : exn).
Arguments Ok {A} a.
Arguments Raise {A} e.

(** [timedelta(seconds=n)]: the value is normalised to days and seconds of
    the day, and the days must have magnitude at most 999999999. *)
Definition timedelta_seconds (n : Z) : result Z :=
  let days := n / 86400 in
  if (-999999999 <=? days) && (days <=? 999999999) then Ok n
  else Raise OverflowError.

(** [datetime.min] and [datetime.max], in seconds: 0001-01-01 00:00:00 and
    9999-12-31 23:59:59. *)
Definition datetime_min : Z := -62135596800.
Definition datetime_max : Z := 253402300799.

(** [d + delta] on a [datetime] and a [timedelta] of whole seconds. *)
Definition datetime_add (d delta : Z) : result Z :=
  let r := d + delta in
  if (datetime_min <=? r) && (r <=? datetime_max) then Ok r
  else Raise OverflowError.

(** [sorted] / [list.sort] with a key whose order is [le]: a stable sort.
    Elements are inserted from the right, each before the first element
    that is not smaller, so equal keys keep their input order. *)
Section Sort.
Context {A : Type} (le : A -> A -> bool).

Fixpoint insert (x : A) (l : list A) : list A :=
  match l with
  | [] => [x]
  | y :: l' => if le x y then x :: y :: l' else y :: insert x l'
  end.

Fixpoint sort (l : list A) : list A :=
  match l with
  | [] => []
  | x :: l' => insert x (sort l')
  end.
End Sort.

End Py.

Import Py.

(* ================================================================== *)
(** ** Data model *)

(** The table declarations ([Pool], [Stake], [StakingEvent],
    [IndexerState] of [src.models.database]) are imported by the services but
    are not part of the source; the records below carry the columns that the
    services read and write. *)

Module Pool.
Record t : Type := mk {
  id : Z;                  (* primary key, referenced by Stake.pool_id *)
  chain : string;
  pool_id : Z;             (* on-chain pool id *)
  staking_token : string;
  reward_token : string;
  reward_rate : string;
  lock_duration : Z;
  deposit_fee : Z;
  withdraw_fee : Z;
  is_active : bool
}.
End Pool.

Module Stake.
Record t : Type := mk {
  chain : string;
  pool_id : Z;
  user_address : string;
  staked_amount : string;
  pending_rewards : string;
  last_stake_time : Z;
  unlock_time : Z;
  is_active : bool
}.
End Stake.

Module StakingEvent.
Record t : Type := mk {
  chain : string;
  event_type : string;
  tx_hash : string;
  block_number : Z;
  log_index : Z;
  pool_id : Z;
  user_address : string;
  amount : option string;
  reward_amount : option string;
  timestamp : Z
}.
End StakingEvent.

Module IndexerState.
Record t : Type := mk {
  chain : string;
  last_block_number : Z;
  is_syncing : bool;
  updated_at : Z
}.
End IndexerState.

(** The column defaults and the primary-key allocation are fixed by the
    table declarations; here they are parameters of the engine. *)
Record Schema : Type := {
  default_pending_rewards : string;
  default_is_syncing : bool;
  default_updated_at : Z;
  next_pool_id : list Pool.t -> Z
}.

Record DB : Type := mkDB {
  pools : list Pool.t;
  stakes : list Stake.t;
  staking_events : list StakingEvent.t;
  indexer_states : list IndexerState.t
}.

Record Session : Type := mkSession {
  committed : DB;
  pending : DB
}.

(** [core.config.Settings], the fields the engine reads. *)
Record Settings : Type := {
  INDEXER_BATCH_SIZE : Z;
  INDEXER_POLL_INTERVAL : Z;
  INDEX_START_BLOCK : Z
}.

(** A decoded log, as web3 returns it ([EventData]). *)
Record EventArgs : Type := {
  poolId : Z;
  user : string;
  amount : option Z;          (* absent on RewardClaimed *)
  rewardAmount : option Z     (* absent on Staked and EmergencyWithdrawn *)
}.

Record EventData : Type := {
  event : string;
  args : EventArgs;
  transactionHash : string;   (* the text that .hex() yields *)
  blockNumber : Z;
  logIndex : Z
}.

(** The tuple that [getPool] returns. *)
Record PoolData : Type := {
  pd_stakingToken : string;
  pd_rewardToken : string;
  pd_totalStaked : Z;
  pd_rewardRate : Z;
  pd_lockDuration : Z;
  pd_lastUpdateTime : Z;
  pd_rewardPerTokenStored : Z;
  pd_isActive : bool;
  pd_depositFee : Z;
  pd_withdrawFee : Z
}.

Module PoolInfo.
Record t : Type := mk {
  pool_id : Z;
  staking_token : string;
  reward_token : string;
  total_staked : Z;
  reward_rate : Z;
  lock_duration : Z;
  is_active : bool;
  deposit_fee : Z;
  withdraw_fee : Z;
  apy : Z
}.
End PoolInfo.

Definition ArgumentFilters : Type := list (string * string).

(** What lies outside the process.  Every field is indexed by the tick at
    which the interaction happens. *)
Record World : Type := {
  db_ok : nat -> bool;        (* does the storage round trip succeed *)
  db_error : nat -> exn;      (* what it raises when it does not *)
  utcnow : nat -> Z;          (* datetime.utcnow() *)
  fromtimestamp : Z -> result Z;   (* datetime.fromtimestamp *)
  eth_block_number : nat -> result Z;
  eth_get_block : nat -> Z -> result Z;   (* the block's timestamp *)
  get_logs : nat -> string -> Z -> Z -> option ArgumentFilters ->
             result (list EventData);
  call_poolCount : nat -> result Z;
  call_getPool : nat -> Z -> result PoolData;
  call_getPoolAPY : nat -> Z -> result Z;
  stop_is_set : nat -> bool   (* self._stop_event *)
}.

(* ================================================================== *)
(** ** The effect monad: session, tick, exceptions *)

Record St : Type := mkSt {
  sess : Session;
  tick : nat
}.

Definition M (A : Type) : Type := St -> result A * St.

Definition ret {A} (a : A) : M A := fun st => (Ok a, st).

Definition bind {A B} (m : M A) (k : A -> M B) : M B :=
  fun st =>
    match m st with
    | (Ok a, st') => k a st'
    | (Raise e, st') => (Raise e, st')
    end.

Definition raise {A} (e : exn) : M A := fun st => (Raise e, st).

(** [try: m  except Exception as e: h e]. *)
Definition try_except {A} (m : M A) (h : exn -> M A) : M A :=
  fun st =>
    match m st with
    | (Ok a, st') => (Ok a, st')
    | (Raise e, st') => h e st'
    end.

Declare Scope monad_scope.
Delimit Scope monad_scope with monad.
Notation "x <- m ;; k" := (bind m (fun x => k))
  (at level 61, m at next level, right associativity) : monad_scope.
Notation "m ;;; k" := (bind m (fun _ => k))
  (at level 61, right associativity) : monad_scope.
Local Open Scope monad_scope.

Definition lift_result {A} (r : result A) : M A := fun st => (r, st).

Definition next (st : St) : St := mkSt (sess st) (S (tick st)).

(** [for x in xs: body x]. *)
Fixpoint for_each {A} (xs : list A) (body : A -> M unit) : M unit :=
  match xs with
  | [] => ret tt
  | x :: xs' => body x ;;; for_each xs' body
  end.

(** [@retry(stop=stop_after_attempt(n))] around [m]: a failed attempt is
    repeated until [n] attempts were made, then [RetryError] is raised.  The
    waits between attempts take time only. *)
Fixpoint retry {A} (n : nat) (m : M A) : M A :=
  match n with
  | O => raise RetryError
  | S k => try_except m (fun _ => retry k m)
  end.

Section Effects.
Variable w : World.

(** A call to the endpoint. *)
Definition rpc {A} (f : World -> nat -> result A) : M A :=
  fun st => (f w (tick st), next st).

(** [datetime.utcnow()]. *)
Definition now : M Z := fun st => (Ok (utcnow w (tick st)), next st).

(** [await self.db.execute(select(...))]: the query sees the pending view
    (the session flushes before it queries). *)
Definition db_select {A} (q : DB -> result A) : M A :=
  fun st =>
    if db_ok w (tick st) then (q (pending (sess st)), next st)
    else (Raise (db_error w (tick st)), next st).

(** [await self.db.execute(update(...))]. *)
Definition db_update (f : DB -> DB) : M unit :=
  fun st =>
    if db_ok w (tick st)
    then (Ok tt, mkSt (mkSession (committed (sess st)) (f (pending (sess st))))
                      (S (tick st)))
    else (Raise (db_error w (tick st)), next st).

(** [self.db.add(row)] and attribute assignment on a loaded row: they
    change the pending view and reach the engine with the next flush. *)
Definition orm (f : DB -> DB) : M unit :=
  fun st =>
    (Ok tt, mkSt (mkSession (committed (sess st)) (f (pending (sess st))))
                 (tick st)).

(** [await self.db.commit()]. *)
Definition db_commit : M unit :=
  fun st =>
    if db_ok w (tick st)
    then (Ok tt, mkSt (mkSession (pending (sess st)) (pending (sess st)))
                      (S (tick st)))
    else (Raise (db_error w (tick st)), next st).

(** [await self.db.rollback()]: the pending view is thrown away; the call
    raises when the storage engine fails the round trip. *)
Definition db_rollback : M unit :=
  fun st =>
    (if db_ok w (tick st) then Ok tt else Raise (db_error w (tick st)),
     mkSt (mkSession (committed (sess st)) (committed (sess st)))
          (S (tick st))).

(** [asyncio.sleep]: time passes. *)
Definition suspend : M unit := fun st => (Ok tt, next st).

(** [asyncio.wait_for(self._stop_event.wait(), timeout=...)]: returns when
    the stop event is set by the end of the wait, raises [TimeoutError]
    otherwise. *)
Definition wait_for_stop : M unit :=
  fun st =>
    (if stop_is_set w (S (tick st)) then Ok tt else Raise TimeoutError,
     next st).
End Effects.

Definition scalar_one_or_none {A} (rows : list A) : result (option A) :=
  match rows with
  | [] => Ok None
  | [r] => Ok (Some r)
  | _ => Raise MultipleResultsFound
  end.

Definition scalar_one {A} (rows : list A) : result A :=
  match rows with
  | [] => Raise NoResultFound
  | [r] => Ok r
  | _ => Raise MultipleResultsFound
  end.

Definition scalar {A} (rows : list A) : option A := hd_error rows.

(* ================================================================== *)
(** ** Chain client ([BlockchainService]) *)

Section ChainClient.
Variable w : World.

Definition get_block_number : M Z := rpc w eth_block_number.

(** [get_block], reduced to the one attribute the engine reads. *)
Definition get_block (block_number : Z) : M Z :=
  rpc w (fun w t => eth_get_block w t block_number).

Definition get_pool_count : M Z :=
  try_except (rpc w call_poolCount) (fun _ => ret 0).

Definition get_pool_info (pool_id : Z) : M (option PoolInfo.t) :=
  try_except
    (pool_data <- rpc w (fun w t => call_getPool w t pool_id) ;;
     apy <- rpc w (fun w t => call_getPoolAPY w t pool_id) ;;
     ret (Some (PoolInfo.mk pool_id
                  (pd_stakingToken pool_data)
                  (pd_rewardToken pool_data)
                  (pd_totalStaked pool_data)
                  (pd_rewardRate pool_data)
                  (pd_lockDuration pool_data)
                  (pd_isActive pool_data)
                  (pd_depositFee pool_data)
                  (pd_withdrawFee pool_data)
                  apy)))
    (fun _ => ret None).

Definition get_events (event_name : string) (from_block to_block : Z)
           (argument_filters : option ArgumentFilters)
  : M (list EventData) :=
  try_except
    (let filter_params :=
       match argument_filters with
       | Some ((_ :: _) as f) => Some f
       | _ => None
       end in
     rpc w (fun w t => get_logs w t event_name from_block to_block
                         filter_params))
    (fun _ => ret []).

Definition event_names : list string :=
  ["Staked"; "Withdrawn"; "RewardClaimed"; "EmergencyWithdrawn"].

(** The sort key [(x["blockNumber"], x["logIndex"])] and the order of
    Python tuples on it. *)
Definition event_key (x : EventData) : Z * Z := (blockNumber x, logIndex x).

Definition key_le (a b : Z * Z) : bool :=
  (fst a <? fst b) || ((fst a =? fst b) && (snd a <=? snd b)).

Definition event_le (x y : EventData) : bool :=
  key_le (event_key x) (event_key y).

Fixpoint collect_events (names : list string) (from_block to_block : Z)
         (events : list EventData) : M (list EventData) :=
  match names with
  | [] => ret events
  | event_name :: names' =>
      events' <- try_except
                   (event_logs <- get_events event_name from_block to_block
                                    None ;;
                    ret (events ++ event_logs))
                   (fun _ => ret events) ;;
      collect_events names' from_block to_block events'
  end.

Definition get_all_events (from_block to_block : Z) : M (list EventData) :=
  events <- collect_events event_names from_block to_block [] ;;
  ret (Py.sort event_le events).
End ChainClient.


(* ================================================================== *)
(** ** Indexing engine ([IndexerService]) *)

Section Engine.
Variable sch : Schema.
Variable w : World.
Variable settings : Settings.
(** [self.chain], already lower-cased by the constructor. *)
Variable self_chain : string.

Definition with_pools (db : DB) (l : list Pool.t) : DB :=
  mkDB l (stakes db) (staking_events db) (indexer_states db).
Definition with_stakes (db : DB) (l : list Stake.t) : DB :=
  mkDB (pools db) l (staking_events db) (indexer_states db).
Definition with_staking_events (db : DB) (l : list StakingEvent.t) : DB :=
  mkDB (pools db) (stakes db) l (indexer_states db).
Definition with_indexer_states (db : DB) (l : list IndexerState.t) : DB :=
  mkDB (pools db) (stakes db) (staking_events db) l.

(** [IndexerState.chain == self.chain]. *)
Definition state_matches (s : IndexerState.t) : bool :=
  String.eqb (IndexerState.chain s) self_chain.

Definition select_state (db : DB) : list IndexerState.t :=
  filter state_matches (indexer_states db).

(** [Stake.chain == self.chain, Stake.pool_id == pool_id,
    Stake.user_address == user]. *)
Definition stake_matches (pool_id : Z) (user : string) (r : Stake.t) : bool :=
  String.eqb (Stake.chain r) self_chain
  && (Stake.pool_id r =? pool_id)
  && String.eqb (Stake.user_address r) user.

Definition select_stake (pool_id : Z) (user : string) (db : DB)
  : list Stake.t :=
  filter (stake_matches pool_id user) (stakes db).

(** [Pool.chain == self.chain, Pool.pool_id == pool_id]. *)
Definition pool_matches (pool_id : Z) (p : Pool.t) : bool :=
  String.eqb (Pool.chain p) self_chain && (Pool.pool_id p =? pool_id).

Definition select_pool (pool_id : Z) (db : DB) : list Pool.t :=
  filter (pool_matches pool_id) (pools db).

(** Assignment to attributes of the row that a select loaded: the row that
    matched the select is rewritten in the pending view. *)
Definition set_stake (pool_id : Z) (user : string) (f : Stake.t -> Stake.t)
           (db : DB) : DB :=
  with_stakes db
    (map (fun r => if stake_matches pool_id user r then f r else r)
         (stakes db)).

Definition set_pool (pool_id : Z) (f : Pool.t -> Pool.t) (db : DB) : DB :=
  with_pools db
    (map (fun p => if pool_matches pool_id p then f p else p) (pools db)).

Definition add_stake (r : Stake.t) (db : DB) : DB :=
  with_stakes db (stakes db ++ [r]).

Definition add_pool (p : Pool.t) (db : DB) : DB :=
  with_pools db (pools db ++ [p]).

Definition add_staking_event (e : StakingEvent.t) (db : DB) : DB :=
  with_staking_events db (staking_events db ++ [e]).

Definition add_indexer_state (s : IndexerState.t) (db : DB) : DB :=
  with_indexer_states db (indexer_states db ++ [s]).

(** [initialize]. *)
Definition initialize : M unit :=
  state <- db_select w (fun db => scalar_one_or_none (select_state db)) ;;
  match state with
  | Some _ => ret tt
  | None =>
      orm (add_indexer_state
             (IndexerState.mk self_chain (INDEX_START_BLOCK settings)
                (default_is_syncing sch) (default_updated_at sch))) ;;;
      db_commit w
  end.

(** [timedelta(days=7)], in seconds. *)
Definition seven_days : Z := 7 * 86400.

(** The four assignments of the [if stake:] branch of [_handle_stake]. *)
Definition set_staked_amount (v : string) (r : Stake.t) : Stake.t :=
  Stake.mk (Stake.chain r) (Stake.pool_id r) (Stake.user_address r)
    v (Stake.pending_rewards r) (Stake.last_stake_time r)
    (Stake.unlock_time r) (Stake.is_active r).

Definition set_last_stake_time (v : Z) (r : Stake.t) : Stake.t :=
  Stake.mk (Stake.chain r) (Stake.pool_id r) (Stake.user_address r)
    (Stake.staked_amount r) (Stake.pending_rewards r) v
    (Stake.unlock_time r) (Stake.is_active r).

Definition set_unlock_time (v : Z) (r : Stake.t) : Stake.t :=
  Stake.mk (Stake.chain r) (Stake.pool_id r) (Stake.user_address r)
    (Stake.staked_amount r) (Stake.pending_rewards r)
    (Stake.last_stake_time r) v (Stake.is_active r).

Definition set_is_active (v : bool) (r : Stake.t) : Stake.t :=
  Stake.mk (Stake.chain r) (Stake.pool_id r) (Stake.user_address r)
    (Stake.staked_amount r) (Stake.pending_rewards r)
    (Stake.last_stake_time r) (Stake.unlock_time r) v.

(** The row once the four assignments were made. *)
Definition staked_row (new_amount timestamp unlock : Z) (r : Stake.t)
  : Stake.t :=
  set_is_active true
    (set_unlock_time unlock
       (set_last_stake_time timestamp
          (set_staked_amount (Py.str new_amount) r))).

(** [_handle_stake].  The lock duration becomes a [timedelta] before the
    rows are looked at; on a loaded row the columns are assigned one after
    the other, and the sum for [unlock_time] is computed after the first
    two were assigned. *)
Definition _handle_stake (pool_id : Z) (user : string) (amount timestamp : Z)
  : M unit :=
  stake <- db_select w
             (fun db => scalar_one_or_none (select_stake pool_id user db)) ;;
  pool <- db_select w
            (fun db => scalar_one_or_none (select_pool pool_id db)) ;;
  lock_duration <- lift_result
                     match pool with
                     | Some p => Py.timedelta_seconds (Pool.lock_duration p)
                     | None => Ok seven_days
                     end ;;
  match stake with
  | Some s =>
      match Py.int (Stake.staked_amount s) with
      | None => raise ValueError
      | Some n =>
          orm (set_stake pool_id user
                 (set_staked_amount (Py.str (n + amount)))) ;;;
          orm (set_stake pool_id user (set_last_stake_time timestamp)) ;;;
          unlock <- lift_result (Py.datetime_add timestamp lock_duration) ;;
          orm (set_stake pool_id user (set_unlock_time unlock)) ;;;
          orm (set_stake pool_id user (set_is_active true))
      end
  | None =>
      pool_ref_id <- db_select w
                       (fun db => Ok (scalar (map Pool.id
                                                (select_pool pool_id db)))) ;;
      match pool_ref_id with
      | Some ref =>
          if ref =? 0 then ret tt
          else
            unlock <- lift_result (Py.datetime_add timestamp lock_duration) ;;
            orm (add_stake
                   (Stake.mk self_chain ref user (Py.str amount)
                      (default_pending_rewards sch)
                      timestamp unlock true))
      | None => ret tt
      end
  end.

(** The two branches of [_handle_withdraw] on the loaded row. *)
Definition withdrawn_row (new_amount : Z) (r : Stake.t) : Stake.t :=
  if new_amount <=? 0
  then Stake.mk (Stake.chain r) (Stake.pool_id r) (Stake.user_address r)
         "0" "0" (Stake.last_stake_time r) (Stake.unlock_time r) false
  else Stake.mk (Stake.chain r) (Stake.pool_id r) (Stake.user_address r)
         (Py.str new_amount) "0" (Stake.last_stake_time r)
         (Stake.unlock_time r) (Stake.is_active r).

(** [_handle_withdraw]. *)
Definition _handle_withdraw (pool_id : Z) (user : string)
           (amount timestamp : Z) : M unit :=
  stake <- db_select w
             (fun db => scalar_one_or_none (select_stake pool_id user db)) ;;
  match stake with
  | Some s =>
      match Py.int (Stake.staked_amount s) with
      | None => raise ValueError
      | Some n => orm (set_stake pool_id user (withdrawn_row (n - amount)))
      end
  | None => ret tt
  end.

Definition emergency_row (r : Stake.t) : Stake.t :=
  Stake.mk (Stake.chain r) (Stake.pool_id r) (Stake.user_address r)
    "0" "0" (Stake.last_stake_time r) (Stake.unlock_time r) false.

(** [_handle_emergency_withdraw]. *)
Definition _handle_emergency_withdraw (pool_id : Z) (user : string)
           (amount : Z) : M unit :=
  stake <- db_select w
             (fun db => scalar_one_or_none (select_stake pool_id user db)) ;;
  match stake with
  | Some _ => orm (set_stake pool_id user emergency_row)
  | None => ret tt
  end.

Definition reward_claimed_row (r : Stake.t) : Stake.t :=
  Stake.mk (Stake.chain r) (Stake.pool_id r) (Stake.user_address r)
    (Stake.staked_amount r) "0" (Stake.last_stake_time r)
    (Stake.unlock_time r) (Stake.is_active r).

(** [_handle_reward_claimed]. *)
Definition _handle_reward_claimed (pool_id : Z) (user : string) : M unit :=
  stake <- db_select w
             (fun db => scalar_one_or_none (select_stake pool_id user db)) ;;
  match stake with
  | Some _ => orm (set_stake pool_id user reward_claimed_row)
  | None => ret tt
  end.

(** [args.amount] where the handler call reads it. *)
Definition attr_amount (a : EventArgs) : M Z :=
  match amount a with
  | Some n => ret n
  | None => raise AttributeError
  end.

(** The block of [_process_event] that picks the timestamp. *)
Definition event_timestamp (block_number : Z) : M Z :=
  try_except
    (ts <- get_block w block_number ;;
     lift_result (fromtimestamp w ts))
    (fun _ => now w).

(** The dispatch at the end of [_process_event]. *)
Definition dispatch_event (event_name : string) (a : EventArgs)
           (timestamp : Z) : M unit :=
  if String.eqb event_name "Staked" then
    n <- attr_amount a ;;
    _handle_stake (poolId a) (Py.lower (user a)) n timestamp
  else if String.eqb event_name "Withdrawn" then
    n <- attr_amount a ;;
    _handle_withdraw (poolId a) (Py.lower (user a)) n timestamp
  else if String.eqb event_name "EmergencyWithdrawn" then
    n <- attr_amount a ;;
    _handle_emergency_withdraw (poolId a) (Py.lower (user a)) n
  else if String.eqb event_name "RewardClaimed" then
    _handle_reward_claimed (poolId a) (Py.lower (user a))
  else ret tt.

Definition event_record (ev : EventData) (timestamp : Z) : StakingEvent.t :=
  StakingEvent.mk self_chain (event ev) (transactionHash ev)
    (blockNumber ev) (logIndex ev) (poolId (args ev))
    (Py.lower (user (args ev)))
    (option_map Py.str (amount (args ev)))
    (option_map Py.str (rewardAmount (args ev)))
    timestamp.

(** [_process_event]. *)
Definition _process_event (ev : EventData) : M unit :=
  timestamp <- event_timestamp (blockNumber ev) ;;
  orm (add_staking_event (event_record ev timestamp)) ;;;
  dispatch_event (event ev) (args ev) timestamp.

(** The [update(IndexerState)] statement of [index_block_range]. *)
Definition advance_cursor (to_block updated : Z) (db : DB) : DB :=
  with_indexer_states db
    (map (fun s =>
            if state_matches s
            then IndexerState.mk (IndexerState.chain s) to_block false updated
            else s)
         (indexer_states db)).

(** The body of [index_block_range], one attempt. *)
Definition index_block_range_attempt (from_block to_block : Z) : M unit :=
  try_except
    (events <- get_all_events w from_block to_block ;;
     for_each events _process_event ;;;
     updated <- now w ;;
     db_update w (advance_cursor to_block updated) ;;;
     db_commit w)
    (fun e => db_rollback w ;;; raise e).

(** [index_block_range] under its [@retry(stop=stop_after_attempt(3))]. *)
Definition index_block_range (from_block to_block : Z) : M unit :=
  retry 3 (index_block_range_attempt from_block to_block).

(** The body of the loop of [sync_pools] for one pool id. *)
Definition sync_pool (pool_id : Z) : M unit :=
  pool_info <- get_pool_info w pool_id ;;
  match pool_info with
  | None => ret tt
  | Some info =>
      pool <- db_select w
                (fun db => scalar_one_or_none (select_pool pool_id db)) ;;
      match pool with
      | Some _ =>
          orm (set_pool pool_id
                 (fun p =>
                    Pool.mk (Pool.id p) (Pool.chain p) (Pool.pool_id p)
                      (PoolInfo.staking_token info)
                      (PoolInfo.reward_token info)
                      (Py.str (PoolInfo.reward_rate info))
                      (PoolInfo.lock_duration info)
                      (PoolInfo.deposit_fee info)
                      (PoolInfo.withdraw_fee info)
                      (PoolInfo.is_active info)))
      | None =>
          orm (fun db =>
                 add_pool
                   (Pool.mk (next_pool_id sch (pools db)) self_chain pool_id
                      (PoolInfo.staking_token info)
                      (PoolInfo.reward_token info)
                      (Py.str (PoolInfo.reward_rate info))
                      (PoolInfo.lock_duration info)
                      (PoolInfo.deposit_fee info)
                      (PoolInfo.withdraw_fee info)
                      (PoolInfo.is_active info))
                   db)
      end
  end.

(** [sync_pools]. *)
Definition sync_pools : M unit :=
  pool_count <- get_pool_count w ;;
  for_each (Py.range pool_count) sync_pool ;;;
  db_commit w.

(** The range that one pass of the loop of [run] hands to
    [index_block_range], if any. *)
Definition next_batch (current_block last_block : Z) : option (Z * Z) :=
  if current_block >? last_block
  then Some (last_block + 1,
             Z.min (current_block - 1)
                   (last_block + INDEXER_BATCH_SIZE settings))
  else None.

(** The two [except] clauses of the loop of [run]: a [TimeoutError] goes
    on to the next pass at once; anything else is answered by a rollback
    and the cooldown. *)
Definition run_except (e : exn) : M unit :=
  match e with
  | TimeoutError => ret tt
  | _ => db_rollback w ;;; suspend
  end.

(** The [try:] block of the loop of [run]. *)
Definition run_body : M unit :=
  state <- db_select w (fun db => scalar_one (select_state db)) ;;
  current_block <- get_block_number w ;;
  let last_block := IndexerState.last_block_number state in
  match next_batch current_block last_block with
  | Some (from_block, to_block) =>
      sync_pools ;;;
      index_block_range from_block to_block
  | None => ret tt
  end ;;;
  wait_for_stop w.

(** One pass of the [while] loop of [run]. *)
Definition run_iteration : M unit :=
  try_except run_body run_except.

(** [while not self._stop_event.is_set(): ...], at most [n] passes. *)
Fixpoint run_loop (n : nat) : M unit :=
  match n with
  | O => ret tt
  | S k =>
      fun st =>
        if stop_is_set w (tick st) then (Ok tt, st)
        else (run_iteration ;;; run_loop k) st
  end.

(** [run], cut after [n] passes of its loop. *)
Definition run (n : nat) : M unit :=
  initialize ;;; run_loop n.

End Engine.


(* ================================================================== *)
(** ** Vocabulary of the statements *)

(** What [get_events] hands back for an answer of the endpoint. *)
Definition logs_or_empty (r : result (list EventData)) : list EventData :=
  match r with
  | Ok l => l
  | Raise _ => []
  end.

(** The answer to the [i]-th log query of a [get_all_events] call that
    starts at tick [t]. *)
Definition answer (w : World) (t : nat) (i : nat) (from_block to_block : Z)
  : result (list EventData) :=
  get_logs w (i + t)%nat (nth i event_names "") from_block to_block None.

(** What the log query for the events named [name] gives when it is the
    [i]-th query of a [get_all_events] call that starts at tick [t]. *)
Definition query (w : World) (t : nat) (i : nat) (name : string)
           (from_block to_block : Z) : result (list EventData) :=
  get_logs w (i + t)%nat name from_block to_block None.

(** Ascending order on the pair (block number, log index). *)
Definition key_order (x y : EventData) : Prop :=
  blockNumber x < blockNumber y
  \/ (blockNumber x = blockNumber y /\ logIndex x <= logIndex y).

(** A function on rows that leaves the three key columns alone. *)
Definition keeps_key (f : Stake.t -> Stake.t) : Prop :=
  forall r, Stake.chain (f r) = Stake.chain r
            /\ Stake.pool_id (f r) = Stake.pool_id r
            /\ Stake.user_address (f r) = Stake.user_address r.

(** The lock duration that [_handle_stake] takes for the Pool row it
    found, seven days when it found none. *)
Definition lock_of (pool : option Pool.t) : Z :=
  match pool with
  | Some p => Pool.lock_duration p
  | None => seven_days
  end.

(** Neither the [timedelta] of the lock duration nor the unlock time is out
    of range. *)
Definition unlock_fits (pool : option Pool.t) (timestamp : Z) : Prop :=
  match pool with
  | Some p =>
      Py.timedelta_seconds (Pool.lock_duration p) = Ok (Pool.lock_duration p)
  | None => True
  end
  /\ Py.datetime_add timestamp (lock_of pool) = Ok (timestamp + lock_of pool).

(** The state after an assignment [f] that follows [n] round trips. *)
Definition after (n : nat) (f : DB -> DB) (st : St) : St :=
  mkSt (mkSession (committed (sess st)) (f (pending (sess st))))
       (n + tick st).

(** The storage engine answers every round trip. *)
Definition db_up (w : World) : Prop := forall t, db_ok w t = true.

(** The invariant of a Stake row: the amount column is a number that is not
    negative, and the row is active exactly when that number is positive. *)
Definition stake_inv (r : Stake.t) : Prop :=
  exists n, Py.int (Stake.staked_amount r) = Some n
            /\ 0 <= n
            /\ (Stake.is_active r = true <-> 0 < n).

(** The amount of a decoded event is a uint256, and a Staked event carries a
    positive one. *)
Definition amount_positive_when_staked (ev : EventData) : Prop :=
  match amount (args ev) with
  | Some a => 0 <= a /\ (event ev = "Staked" -> 0 < a)
  | None => True
  end.

(** A Staked or Withdrawn event of the given pool and user, with a
    non-negative amount. *)
Definition moves (pool_id : Z) (usr : string) (ev : EventData) : Prop :=
  (event ev = "Staked" \/ event ev = "Withdrawn")
  /\ poolId (args ev) = pool_id
  /\ Py.lower (user (args ev)) = usr
  /\ exists a, amount (args ev) = Some a /\ 0 <= a.

Definition amount_of (ev : EventData) : Z :=
  match amount (args ev) with
  | Some a => a
  | None => 0
  end.

(** The sum of the amounts of the events named [name]. *)
Fixpoint sum_of (name : string) (evs : list EventData) : Z :=
  match evs with
  | [] => 0
  | ev :: evs' =>
      (if String.eqb (event ev) name then amount_of ev else 0)
      + sum_of name evs'
  end.

(** The balance after one Staked or Withdrawn event. *)
Definition balance_step (cur : Z) (ev : EventData) : Z :=
  if String.eqb (event ev) "Staked" then cur + amount_of ev
  else Z.max 0 (cur - amount_of ev).

(** The running balance: each withdrawal is floored at zero when it is
    applied. *)
Definition running_balance (cur : Z) (evs : list EventData) : Z :=
  fold_left balance_step evs cur.

(** No Withdrawn event asks for more than the balance at its turn. *)
Fixpoint covered (cur : Z) (evs : list EventData) : Prop :=
  match evs with
  | [] => True
  | ev :: evs' =>
      (event ev = "Withdrawn" -> amount_of ev <= cur)
      /\ covered (balance_step cur ev) evs'
  end.

(** Every run of [m] relates the session before and the session after by
    [R], whether it returns or raises. *)
Definition frames {A} (R : Session -> Session -> Prop) (m : M A) : Prop :=
  forall st r st', m st = (r, st') -> R (sess st) (sess st').

(** Nothing was committed and the cursor rows of the pending view are
    untouched. *)
Definition cursor_untouched (s s' : Session) : Prop :=
  committed s' = committed s
  /\ indexer_states (pending s') = indexer_states (pending s).

(** The event log of the pending view is untouched. *)
Definition log_untouched (s s' : Session) : Prop :=
  staking_events (pending s') = staking_events (pending s).

(** The session holds no uncommitted change. *)
Definition clean (st : St) : Prop :=
  committed (sess st) = pending (sess st).

(** The cursor rows of the pending view are the committed ones. *)
Definition cursor_clean (st : St) : Prop :=
  indexer_states (committed (sess st)) = indexer_states (pending (sess st)).

(** The session that [rollback] leaves. *)
Definition rolled_back (s : Session) : Session :=
  mkSession (committed s) (committed s).

(** Row by row, the cursor rows [l] are still there in [l'], for the same
    chain and with a last-processed block that is not smaller; [l'] may have
    more rows. *)
Inductive states_le : list IndexerState.t -> list IndexerState.t -> Prop :=
| states_le_nil l' : states_le [] l'
| states_le_cons s s' l l' :
    IndexerState.chain s' = IndexerState.chain s ->
    IndexerState.last_block_number s <= IndexerState.last_block_number s' ->
    states_le l l' ->
    states_le (s :: l) (s' :: l').

(** What one pass of the loop of [run] can have done to the committed
    cursor rows: nothing, or the move that a batch commits, for the head
    [cur] that the pass read. *)
Definition pass_effect (w : World) (settings : Settings) (self_chain : string)
           (st st' : St) : Prop :=
  indexer_states (committed (sess st')) = indexer_states (committed (sess st))
  \/ exists state cur updated,
      select_state self_chain (pending (sess st)) = [state]
      /\ eth_block_number w (S (tick st)) = Ok cur
      /\ IndexerState.last_block_number state < cur
      /\ indexer_states (committed (sess st'))
         = indexer_states
             (advance_cursor self_chain
                (Z.min (cur - 1)
                       (IndexerState.last_block_number state
                        + INDEXER_BATCH_SIZE settings))
                updated (committed (sess st))).

(* ================================================================== *)
(** ** Worlds and rows used in examples *)

Definition mk_event (name : string) (pool : Z) (usr : string)
           (amt rew : option Z) (block log : Z) : EventData :=
  {| event := name;
     args := {| poolId := pool; user := usr; amount := amt;
                rewardAmount := rew |};
     transactionHash := "0xabc";
     blockNumber := block;
     logIndex := log |}.

Definition in_range (from_block to_block : Z) (x : EventData) : bool :=
  (from_block <=? blockNumber x) && (blockNumber x <=? to_block).

(** A world without faults: head block [head], the given logs on chain,
    block [b] stamped [1600000000 + 12 b], the wall clock far later. *)
Definition calm_world (head : Z) (chain_logs : list EventData) : World :=
  {| db_ok := fun _ => true;
     db_error := fun _ => DatabaseError;
     utcnow := fun t => 1700000000 + Z.of_nat t;
     fromtimestamp := fun ts => Ok ts;
     eth_block_number := fun _ => Ok head;
     eth_get_block := fun _ b => Ok (1600000000 + 12 * b);
     get_logs := fun _ name from_block to_block _ =>
                   Ok (filter (fun x => String.eqb (event x) name
                                        && in_range from_block to_block x)
                              chain_logs);
     call_poolCount := fun _ => Ok 0;
     call_getPool := fun _ _ => Raise RpcError;
     call_getPoolAPY := fun _ _ => Raise RpcError;
     stop_is_set := fun _ => false |}.

(** The same world with the log query for one event name failing. *)
Definition deaf_world (head : Z) (chain_logs : list EventData)
           (broken : string) : World :=
  {| db_ok := fun _ => true;
     db_error := fun _ => DatabaseError;
     utcnow := fun t => 1700000000 + Z.of_nat t;
     fromtimestamp := fun ts => Ok ts;
     eth_block_number := fun _ => Ok head;
     eth_get_block := fun _ b => Ok (1600000000 + 12 * b);
     get_logs := fun _ name from_block to_block _ =>
                   if String.eqb name broken then Raise RpcError
                   else Ok (filter (fun x => String.eqb (event x) name
                                             && in_range from_block to_block x)
                                   chain_logs);
     call_poolCount := fun _ => Ok 0;
     call_getPool := fun _ _ => Raise RpcError;
     call_getPoolAPY := fun _ _ => Raise RpcError;
     stop_is_set := fun _ => false |}.

(** The calm world with every block fetch failing. *)
Definition blind_world (head : Z) (chain_logs : list EventData) : World :=
  {| db_ok := fun _ => true;
     db_error := fun _ => DatabaseError;
     utcnow := fun t => 1700000000 + Z.of_nat t;
     fromtimestamp := fun ts => Ok ts;
     eth_block_number := fun _ => Ok head;
     eth_get_block := fun _ _ => Raise RpcError;
     get_logs := get_logs (calm_world head chain_logs);
     call_poolCount := fun _ => Ok 0;
     call_getPool := fun _ _ => Raise RpcError;
     call_getPoolAPY := fun _ _ => Raise RpcError;
     stop_is_set := fun _ => false |}.

(** Events of blocks 5, 7, 5 with log indices 2, 0, 1. *)
Definition three_logs : list EventData :=
  [ mk_event "Staked" 0 "0xAa" (Some 10) None 5 2;
    mk_event "Withdrawn" 0 "0xAa" (Some 4) (Some 1) 7 0;
    mk_event "RewardClaimed" 0 "0xAa" None (Some 1) 5 1 ].

(** One log of each kind, in blocks 5 to 7. *)
Definition four_logs : list EventData :=
  [ mk_event "Staked" 0 "0xAa" (Some 10) None 5 2;
    mk_event "Withdrawn" 0 "0xAa" (Some 4) (Some 1) 7 0;
    mk_event "RewardClaimed" 0 "0xAa" None (Some 1) 5 1;
    mk_event "EmergencyWithdrawn" 0 "0xAa" (Some 6) None 6 3 ].

(** Events of blocks 5, 7, 5 with log indices 2, 0, 1, two of them
    EmergencyWithdrawn. *)
Definition emergency_logs : list EventData :=
  [ mk_event "EmergencyWithdrawn" 0 "0xAa" (Some 10) None 5 2;
    mk_event "RewardClaimed" 0 "0xAa" None (Some 1) 7 0;
    mk_event "EmergencyWithdrawn" 0 "0xBb" (Some 3) None 5 1 ].

Definition empty_db : DB := mkDB [] [] [] [].

Definition fresh (db : DB) : St := mkSt (mkSession db db) 0.

Definition plain_schema : Schema :=
  {| default_pending_rewards := "0";
     default_is_syncing := false;
     default_updated_at := 0;
     next_pool_id := fun l => 1 + Z.of_nat (length l) |}.

(** Pool 1 of chain "sepolia", stored under primary key 1, locked for an
    hour. *)
Definition pool_one : Pool.t :=
  Pool.mk 1 "sepolia" 1 "0x5t" "0x2w" "5" 3600 0 0 true.

(** The Stake row of user "0xaa" in pool 1. *)
Definition stake_of (amount_text : string) (active : bool) : Stake.t :=
  Stake.mk "sepolia" 1 "0xaa" amount_text "3" 11 22 active.

(** A database with pool 1, the given Stake rows and the cursor at 100. *)
Definition db_of (rows : list Stake.t) : DB :=
  mkDB [pool_one] rows [] [IndexerState.mk "sepolia" 100 true 0].

Definition staked (a block log : Z) : EventData :=
  mk_event "Staked" 1 "0xAA" (Some a) None block log.

Definition withdrawn (a block log : Z) : EventData :=
  mk_event "Withdrawn" 1 "0xAA" (Some a) (Some 0) block log.

Definition settings_of (batch_size : Z) : Settings :=
  {| INDEXER_BATCH_SIZE := batch_size;
     INDEXER_POLL_INTERVAL := 15;
     INDEX_START_BLOCK := 0 |}.

(** The calm world with the storage engine failing the round trip made at
    tick [bad]. *)
Definition flaky_world (bad : nat) (head : Z) (chain_logs : list EventData)
  : World :=
  {| db_ok := fun t => negb (Nat.eqb t bad);
     db_error := fun _ => DatabaseError;
     utcnow := fun t => 1700000000 + Z.of_nat t;
     fromtimestamp := fun ts => Ok ts;
     eth_block_number := fun _ => Ok head;
     eth_get_block := fun _ b => Ok (1600000000 + 12 * b);
     get_logs := get_logs (calm_world head chain_logs);
     call_poolCount := fun _ => Ok 0;
     call_getPool := fun _ _ => Raise RpcError;
     call_getPoolAPY := fun _ _ => Raise RpcError;
     stop_is_set := fun _ => false |}.

(* ================================================================== *)
(** ** Vocabulary of the further properties *)

(** The name is one of the four that [_process_event] dispatches on. *)
Definition known_event (name : string) : bool :=
  String.eqb name "Staked" || String.eqb name "Withdrawn"
  || String.eqb name "EmergencyWithdrawn" || String.eqb name "RewardClaimed".

(** The timestamp that [_process_event] picks at tick [t] for a block: the
    converted block timestamp, or the wall clock read after a failure. *)
Definition picked_timestamp (w : World) (t : nat) (block_number : Z) : Z :=
  match eth_get_block w t block_number with
  | Ok b =>
      match fromtimestamp w b with
      | Ok ts => ts
      | Raise _ => utcnow w (S t)
      end
  | Raise _ => utcnow w (S t)
  end.

(** The Pool rows of the pending view are untouched. *)
Definition pools_untouched (s s' : Session) : Prop :=
  pools (pending s') = pools (pending s).

(** The StakingEvent row records the decoded log: name, transaction, block,
    log index, pool, lower-cased user and the amounts as decimal text. *)
Definition logged_as (self_chain : string) (ev : EventData)
           (row : StakingEvent.t) : Prop :=
  StakingEvent.chain row = self_chain
  /\ StakingEvent.event_type row = event ev
  /\ StakingEvent.tx_hash row = transactionHash ev
  /\ StakingEvent.block_number row = blockNumber ev
  /\ StakingEvent.log_index row = logIndex ev
  /\ StakingEvent.pool_id row = poolId (args ev)
  /\ StakingEvent.user_address row = Py.lower (user (args ev))
  /\ StakingEvent.amount row = option_map Py.str (amount (args ev))
  /\ StakingEvent.reward_amount row
     = option_map Py.str (rewardAmount (args ev)).

(** The cursor rows after the [update] statement of a batch. *)
Definition moved_cursor (self_chain : string) (to_block updated : Z)
           (l : list IndexerState.t) : list IndexerState.t :=
  map (fun s =>
         if String.eqb (IndexerState.chain s) self_chain
         then IndexerState.mk (IndexerState.chain s) to_block false updated
         else s) l.

(** The columns that identify a Stake row and a Pool row. *)
Definition stake_key (r : Stake.t) : string * Z * string :=
  (Stake.chain r, Stake.pool_id r, Stake.user_address r).

Definition pool_key (p : Pool.t) : Z * string * Z :=
  (Pool.id p, Pool.chain p, Pool.pool_id p).

Definition prefix {A} (l l' : list A) : Prop := exists x, l' = l ++ x.

(** Database [b] still has every row of [a], in place: the event log of [a]
    is a prefix of that of [b], row for row, and so are the Stake rows, the
    Pool rows and the cursor rows as far as their identifying columns go. *)
Definition extends (a b : DB) : Prop :=
  prefix (staking_events a) (staking_events b)
  /\ prefix (map stake_key (stakes a)) (map stake_key (stakes b))
  /\ prefix (map pool_key (pools a)) (map pool_key (pools b))
  /\ prefix (map IndexerState.chain (indexer_states a))
            (map IndexerState.chain (indexer_states b)).

(** If the pending view extends the committed database before, the
    committed database after extends the one before, and the pending view
    after extends it in turn. *)
Definition keeps_rows (s s' : Session) : Prop :=
  extends (committed s) (pending s) ->
  extends (committed s) (committed s')
  /\ extends (committed s') (pending s').

(** Every log that the endpoint decodes carries a uint256 amount, positive
    on a Staked event. *)
Definition sane_logs (w : World) : Prop :=
  forall t name from_block to_block filters l,
    get_logs w t name from_block to_block filters = Ok l ->
    Forall amount_positive_when_staked l.

(** Every Stake row of the committed database and of the pending view
    satisfies the row invariant. *)
Definition ledger_inv (s : Session) : Prop :=
  Forall stake_inv (stakes (committed s))
  /\ Forall stake_inv (stakes (pending s)).

Definition keeps_ledger_inv (s s' : Session) : Prop :=
  ledger_inv s -> ledger_inv s'.

(** Only Pool rows of the pending view may differ. *)
Definition only_pools (s s' : Session) : Prop :=
  stakes (pending s') = stakes (pending s)
  /\ staking_events (pending s') = staking_events (pending s)
  /\ indexer_states (pending s') = indexer_states (pending s).

(** The Pool row that [sync_pools] writes for the tuple [pd] that [getPool]
    returned, under primary key [id]. *)
Definition pool_row_of (self_chain : string) (pool_id id : Z) (pd : PoolData)
  : Pool.t :=
  Pool.mk id self_chain pool_id (pd_stakingToken pd) (pd_rewardToken pd)
    (Py.str (pd_rewardRate pd)) (pd_lockDuration pd) (pd_depositFee pd)
    (pd_withdrawFee pd) (pd_isActive pd).

(** The calm world with the given pools on chain. *)
Definition pool_world (chain_pools : list PoolData) : World :=
  {| db_ok := fun _ => true;
     db_error := fun _ => DatabaseError;
     utcnow := fun t => 1700000000 + Z.of_nat t;
     fromtimestamp := fun ts => Ok ts;
     eth_block_number := fun _ => Ok 100;
     eth_get_block := fun _ b => Ok (1600000000 + 12 * b);
     get_logs := fun _ _ _ _ _ => Ok [];
     call_poolCount := fun _ => Ok (Z.of_nat (length chain_pools));
     call_getPool := fun _ i =>
                       match nth_error chain_pools (Z.to_nat i) with
                       | Some pd => Ok pd
                       | None => Raise RpcError
                       end;
     call_getPoolAPY := fun _ _ => Ok 1200;
     stop_is_set := fun _ => false |}.

Definition pool_data_one : PoolData :=
  {| pd_stakingToken := "0x5t"; pd_rewardToken := "0x2w";
     pd_totalStaked := 1000; pd_rewardRate := 5; pd_lockDuration := 7200;
     pd_lastUpdateTime := 0; pd_rewardPerTokenStored := 0;
     pd_isActive := true; pd_depositFee := 10; pd_withdrawFee := 20 |}.

(** Pool 1 of chain "sepolia" with the given lock duration. *)
Definition pool_locked_for (lock : Z) : Pool.t :=
  Pool.mk 1 "sepolia" 1 "0x5t" "0x2w" "5" lock 0 0 true.

(** Pool 1 of chain "sepolia" stored under primary key 2. *)
Definition pool_one_under_two : Pool.t :=
  Pool.mk 2 "sepolia" 1 "0x5t" "0x2w" "5" 3600 0 0 true.

(* ================================================================== *)
(** ** Chain configuration and the registry of chain clients *)

(** [dict.get(k)] on a dictionary with text keys. *)
Definition dict_get {V} (d : list (string * V)) (k : string) : option V :=
  match find (fun kv => String.eqb (fst kv) k) d with
  | Some kv => Some (snd kv)
  | None => None
  end.

Module Config.

(** One entry of [Settings.chain_configs]. *)
Record t : Type := mk {
  rpc_url : option string;
  chain_id : Z;
  staking_contract : option string;
  reward_token : option string
}.

(** The per-chain fields of [core.config.Settings]. *)
Record ChainSettings : Type := {
  ETHEREUM_RPC_URL : option string;
  ETHEREUM_CHAIN_ID : Z;
  ETHEREUM_STAKING_CONTRACT : option string;
  ETHEREUM_REWARD_TOKEN : option string;
  ARBITRUM_RPC_URL : option string;
  ARBITRUM_CHAIN_ID : Z;
  ARBITRUM_STAKING_CONTRACT : option string;
  ARBITRUM_REWARD_TOKEN : option string;
  BASE_RPC_URL : option string;
  BASE_CHAIN_ID : Z;
  BASE_STAKING_CONTRACT : option string;
  BASE_REWARD_TOKEN : option string;
  SEPOLIA_RPC_URL : option string;
  SEPOLIA_CHAIN_ID : Z;
  SEPOLIA_STAKING_CONTRACT : option string;
  SEPOLIA_REWARD_TOKEN : option string
}.

(** [Settings.chain_configs]. *)
Definition chain_configs (s : ChainSettings) : list (string * t) :=
  [ ("ethereum", mk (ETHEREUM_RPC_URL s) (ETHEREUM_CHAIN_ID s)
                    (ETHEREUM_STAKING_CONTRACT s) (ETHEREUM_REWARD_TOKEN s));
    ("arbitrum", mk (ARBITRUM_RPC_URL s) (ARBITRUM_CHAIN_ID s)
                    (ARBITRUM_STAKING_CONTRACT s) (ARBITRUM_REWARD_TOKEN s));
    ("base", mk (BASE_RPC_URL s) (BASE_CHAIN_ID s)
                (BASE_STAKING_CONTRACT s) (BASE_REWARD_TOKEN s));
    ("sepolia", mk (SEPOLIA_RPC_URL s) (SEPOLIA_CHAIN_ID s)
                   (SEPOLIA_STAKING_CONTRACT s) (SEPOLIA_REWARD_TOKEN s)) ].

(** [Settings.get_chain_config]: the dictionary of the chain, or
    [ValueError] when the chain is unknown or has no RPC URL. *)
Definition get_chain_config (s : ChainSettings) (chain : string) : result t :=
  match dict_get (chain_configs s) (Py.lower chain) with
  | None => Raise ValueError
  | Some config =>
      match rpc_url config with
      | None => Raise ValueError
      | Some url => if String.eqb url "" then Raise ValueError else Ok config
      end
  end.

(** The defaults of [Settings] with only Sepolia given an endpoint. *)
Definition sepolia_only : ChainSettings :=
  {| ETHEREUM_RPC_URL := None; ETHEREUM_CHAIN_ID := 1;
     ETHEREUM_STAKING_CONTRACT := None; ETHEREUM_REWARD_TOKEN := None;
     ARBITRUM_RPC_URL := Some ""; ARBITRUM_CHAIN_ID := 42161;
     ARBITRUM_STAKING_CONTRACT := None; ARBITRUM_REWARD_TOKEN := None;
     BASE_RPC_URL := None; BASE_CHAIN_ID := 8453;
     BASE_STAKING_CONTRACT := None; BASE_REWARD_TOKEN := None;
     SEPOLIA_RPC_URL := Some "https://rpc.example";
     SEPOLIA_CHAIN_ID := 11155111;
     SEPOLIA_STAKING_CONTRACT :=
       Some "0x5FbDB2315678afecb367f032d93F642f64180aa3";
     SEPOLIA_REWARD_TOKEN :=
       Some "0xe7f1725E7734CE288F8367e1Bb143E90bb3F0512" |}.

(** The same settings with no staking contract for Sepolia. *)
Definition sepolia_without_contract : ChainSettings :=
  {| ETHEREUM_RPC_URL := None; ETHEREUM_CHAIN_ID := 1;
     ETHEREUM_STAKING_CONTRACT := None; ETHEREUM_REWARD_TOKEN := None;
     ARBITRUM_RPC_URL := Some ""; ARBITRUM_CHAIN_ID := 42161;
     ARBITRUM_STAKING_CONTRACT := None; ARBITRUM_REWARD_TOKEN := None;
     BASE_RPC_URL := None; BASE_CHAIN_ID := 8453;
     BASE_STAKING_CONTRACT := None; BASE_REWARD_TOKEN := None;
     SEPOLIA_RPC_URL := Some "https://rpc.example";
     SEPOLIA_CHAIN_ID := 11155111;
     SEPOLIA_STAKING_CONTRACT := None;
     SEPOLIA_REWARD_TOKEN := None |}.

End Config.

Module Registry.

(** A constructed [BlockchainService]: its chain name and configuration
    (the web3 handles hold no state of their own here). *)
Record BlockchainService : Type := {
  chain : string;
  config : Config.t
}.

(** Why [BlockchainService.__init__] raised. *)
Inductive init_failure : Type :=
| NoConfiguration     (* ValueError of get_chain_config *)
| NotConnected        (* ConnectionError: w3.is_connected() is false *)
| BadContractAddress. (* Web3.to_checksum_address raised *)

(** What [__init__] asks of web3: whether the endpoint at an RPC URL
    answers, and whether [Web3.to_checksum_address] accepts the configured
    staking contract ([None] when the setting is unset). *)
Record Web3 : Type := {
  is_connected : string -> bool;
  to_checksum_address : option string -> bool
}.

(** [BlockchainService.__init__]: the configuration, then the connection
    test, then the staking contract at the checksummed address. *)
Definition init (s : Config.ChainSettings) (web3 : Web3)
           (chain : string) : BlockchainService + init_failure :=
  match Config.get_chain_config s chain with
  | Raise _ => inr NoConfiguration
  | Ok cfg =>
      match Config.rpc_url cfg with
      | Some url =>
          if is_connected web3 url
          then
            if to_checksum_address web3 (Config.staking_contract cfg)
            then inl {| chain := Py.lower chain; config := cfg |}
            else inr BadContractAddress
          else inr NotConnected
      | None => inr NotConnected
      end
  end.

(** [_blockchain_services]. *)
Definition t : Type := list (string * BlockchainService).

(** [get_blockchain_service]: the result and the registry afterwards. *)
Definition get_blockchain_service (s : Config.ChainSettings)
           (web3 : Web3) (reg : t) (chain : string)
  : (BlockchainService + init_failure) * t :=
  let chain := Py.lower chain in
  match dict_get reg chain with
  | Some svc => (inl svc, reg)
  | None =>
      match init s web3 chain with
      | inl svc => (inl svc, reg ++ [(chain, svc)])
      | inr e => (inr e, reg)
      end
  end.

(** A text of forty hexadecimal digits after an optional [0x]. *)
Definition is_hex_digit (c : ascii) : bool :=
  let n := nat_of_ascii c in
  ((48 <=? n) && (n <=? 57) || (65 <=? n) && (n <=? 70)
   || (97 <=? n) && (n <=? 102))%nat.

Definition remove_0x_prefix (s : string) : string :=
  match s with
  | String "0" (String "x" r) => r
  | String "0" (String "X" r) => r
  | _ => s
  end.

Definition is_hex_address (s : string) : bool :=
  let u := remove_0x_prefix s in
  (String.length u =? 40)%nat && forallb is_hex_digit (list_ascii_of_string u).

(** A web3 whose endpoints answer or not as [up] says and that accepts
    hexadecimal addresses only. *)
Definition web3_of (up : bool) : Web3 :=
  {| is_connected := fun _ => up;
     to_checksum_address := fun a =>
                              match a with
                              | Some s => is_hex_address s
                              | None => false
                              end |}.

End Registry.


(* ================================================================== *)
(** * Properties *)

(** ** The monad *)

Lemma bind_ok {A B} (m : M A) (k : A -> M B) st a st' :
  m st = (Ok a, st') -> bind m k st = k a st'.
Proof. intros H. unfold bind. now rewrite H. Qed.

(** ** Sorting *)

Section SortFacts.
Context {A : Type} (le : A -> A -> bool).

Lemma insert_perm x l : Permutation (Py.insert le x l) (x :: l).
Proof.
  induction l as [|y l IH]; simpl.
  - apply Permutation_refl.
  - destruct (le x y).
    + apply Permutation_refl.
    + eapply perm_trans; [apply perm_skip, IH | apply perm_swap].
Qed.

Lemma sort_perm l : Permutation (Py.sort le l) l.
Proof.
  induction l as [|x l IH]; simpl.
  - constructor.
  - eapply perm_trans; [apply insert_perm | now apply perm_skip].
Qed.

Hypothesis le_total : forall x y, le x y = false -> le y x = true.
Hypothesis le_trans : forall x y z, le x y = true -> le y z = true -> le x z = true.

Let R (x y : A) : Prop := le x y = true.

Lemma insert_sorted x l :
  StronglySorted R l -> StronglySorted R (Py.insert le x l).
Proof.
  induction 1 as [|y l Hs IH Hall]; simpl.
  - repeat constructor.
  - destruct (le x y) eqn:E.
    + constructor.
      * now constructor.
      * constructor; [exact E|].
        rewrite Forall_forall in *. intros z Hz.
        eapply le_trans; [exact E | now apply Hall].
    + constructor; [exact IH|].
      rewrite Forall_forall in *. intros z Hz.
      apply (Permutation_in _ (insert_perm x l)) in Hz.
      destruct Hz as [<-|Hz]; [now apply le_total | now apply Hall].
Qed.

Lemma sort_sorted l : StronglySorted R (Py.sort le l).
Proof.
  induction l as [|x l IH]; simpl.
  - constructor.
  - now apply insert_sorted.
Qed.
End SortFacts.

Lemma event_le_total x y : event_le x y = false -> event_le y x = true.
Proof.
  unfold event_le, key_le, event_key; simpl. intros H.
  apply orb_false_iff in H as [H1 H2].
  apply Z.ltb_ge in H1.
  destruct (Z.eq_dec (blockNumber x) (blockNumber y)) as [E|E].
  - rewrite E, Z.eqb_refl in *. simpl in H2. apply Z.leb_gt in H2.
    rewrite Z.ltb_irrefl. simpl. apply Z.leb_le. lia.
  - apply orb_true_iff. left. apply Z.ltb_lt. lia.
Qed.

Lemma event_le_iff x y : event_le x y = true <-> key_order x y.
Proof.
  unfold event_le, key_le, event_key, key_order; simpl.
  rewrite orb_true_iff, andb_true_iff, Z.ltb_lt, Z.eqb_eq, Z.leb_le.
  reflexivity.
Qed.

Lemma event_le_trans x y z :
  event_le x y = true -> event_le y z = true -> event_le x z = true.
Proof. rewrite !event_le_iff. unfold key_order. lia. Qed.

Lemma sort_events_sorted l : StronglySorted key_order (Py.sort event_le l).
Proof.
  pose proof (sort_sorted event_le event_le_total event_le_trans l) as H.
  induction H as [|x l' Hs IH Hall]; constructor.
  - exact IH.
  - rewrite Forall_forall in *. intros y Hy. apply event_le_iff. now apply Hall.
Qed.

(** ** Chain client *)

Lemma get_events_eq w name from_block to_block st :
  get_events w name from_block to_block None st
  = (Ok (logs_or_empty (get_logs w (tick st) name from_block to_block None)),
     next st).
Proof.
  unfold get_events, try_except, rpc, ret. cbv beta.
  destruct (get_logs _ _ _ _ _ _); reflexivity.
Qed.

(** [get_all_events] never raises: it makes one log query per event name,
    in the order of [event_names], and sorts what the four queries gave. *)
Lemma get_all_events_eq w from_block to_block st :
  get_all_events w from_block to_block st
  = (Ok (Py.sort event_le
           (logs_or_empty (answer w (tick st) 0 from_block to_block)
            ++ logs_or_empty (answer w (tick st) 1 from_block to_block)
            ++ logs_or_empty (answer w (tick st) 2 from_block to_block)
            ++ logs_or_empty (answer w (tick st) 3 from_block to_block))),
     mkSt (sess st) (4 + tick st)).
Proof.
  unfold get_all_events, collect_events, event_names, answer.
  unfold bind at 1. unfold bind at 1.
  unfold try_except at 1. unfold bind at 1. rewrite get_events_eq.
  unfold ret at 1.
  unfold bind at 1. unfold try_except at 1. unfold bind at 1.
  rewrite get_events_eq. unfold ret at 1.
  unfold bind at 1. unfold try_except at 1. unfold bind at 1.
  rewrite get_events_eq. unfold ret at 1.
  unfold bind at 1. unfold try_except at 1. unfold bind at 1.
  rewrite get_events_eq. unfold ret. simpl.
  rewrite <- !app_assoc. reflexivity.
Qed.

(** C4. For every closed block range [get_all_events] returns a sequence
    that holds exactly the events which the four log queries gave, for
    Staked, Withdrawn, RewardClaimed and EmergencyWithdrawn in that order
    of asking, sorted ascending by (block number, log index).  On events of
    blocks 5, 7, 5 with log indices 2, 0, 1 the order is (5,1), (5,2),
    (7,0), whichever of the four kinds they are. *)
Theorem get_all_events_sorted_union :
  (forall w from_block to_block st,
      exists evs,
        get_all_events w from_block to_block st
        = (Ok evs, mkSt (sess st) (4 + tick st))
        /\ Permutation evs
             (logs_or_empty
                (query w (tick st) 0 "Staked" from_block to_block)
              ++ logs_or_empty
                   (query w (tick st) 1 "Withdrawn" from_block to_block)
              ++ logs_or_empty
                   (query w (tick st) 2 "RewardClaimed" from_block to_block)
              ++ logs_or_empty
                   (query w (tick st) 3 "EmergencyWithdrawn"
                      from_block to_block))
        /\ StronglySorted key_order evs)
  /\ fst (get_all_events (calm_world 100 three_logs) 5 7 (fresh empty_db))
     = Ok [ mk_event "RewardClaimed" 0 "0xAa" None (Some 1) 5 1;
            mk_event "Staked" 0 "0xAa" (Some 10) None 5 2;
            mk_event "Withdrawn" 0 "0xAa" (Some 4) (Some 1) 7 0 ]
  /\ fst (get_all_events (calm_world 100 emergency_logs) 5 7
                         (fresh empty_db))
     = Ok [ mk_event "EmergencyWithdrawn" 0 "0xBb" (Some 3) None 5 1;
            mk_event "EmergencyWithdrawn" 0 "0xAa" (Some 10) None 5 2;
            mk_event "RewardClaimed" 0 "0xAa" None (Some 1) 7 0 ].
Proof.
  split; [|split].
  - intros w from_block to_block st. eexists.
    split; [apply get_all_events_eq|].
    split; [apply sort_perm | apply sort_events_sorted].
  - rewrite get_all_events_eq. reflexivity.
  - rewrite get_all_events_eq. reflexivity.
Qed.

(** C7. When the log query of one of the four event kinds (Staked,
    Withdrawn, RewardClaimed, EmergencyWithdrawn) fails and the three
    others answer, [get_events] returns the empty sequence for the failed
    kind and [get_all_events] still returns: its result holds exactly the
    events of the three other kinds, in ascending (block number, log index)
    order, and the call made four log queries in all, one per kind, so the
    failed one was not repeated. *)
Theorem get_all_events_survives_one_failure
        w from_block to_block st (k : nat) (e : exn)
        (l0 l1 l2 l3 : list EventData) :
  let q := fun i name => query w (tick st) i name from_block to_block in
  (k < 4)%nat ->
  nth k [q 0%nat "Staked"; q 1%nat "Withdrawn"; q 2%nat "RewardClaimed";
         q 3%nat "EmergencyWithdrawn"] (Ok [])
  = Raise e ->
  (k <> 0%nat -> q 0%nat "Staked" = Ok l0) ->
  (k <> 1%nat -> q 1%nat "Withdrawn" = Ok l1) ->
  (k <> 2%nat -> q 2%nat "RewardClaimed" = Ok l2) ->
  (k <> 3%nat -> q 3%nat "EmergencyWithdrawn" = Ok l3) ->
  let others :=
    (if Nat.eqb k 0 then [] else l0) ++ (if Nat.eqb k 1 then [] else l1)
    ++ (if Nat.eqb k 2 then [] else l2) ++ (if Nat.eqb k 3 then [] else l3) in
  get_events w
    (nth k ["Staked"; "Withdrawn"; "RewardClaimed"; "EmergencyWithdrawn"] "")
    from_block to_block None (mkSt (sess st) (k + tick st))
  = (Ok [], mkSt (sess st) (S (k + tick st)))
  /\ exists evs,
      get_all_events w from_block to_block st
      = (Ok evs, mkSt (sess st) (4 + tick st))
      /\ Permutation evs others
      /\ StronglySorted key_order evs.
Proof.
  intros q Hk Hfail H0 H1 H2 H3 others. split.
  - rewrite get_events_eq. simpl tick.
    unfold q, query in Hfail.
    destruct k as [|[|[|[|k]]]]; try lia; cbn [nth] in Hfail |- *;
      now rewrite Hfail.
  - eexists. split; [apply get_all_events_eq|].
    split; [|apply sort_events_sorted].
    eapply perm_trans; [apply sort_perm|].
    subst others. unfold q, query in *. unfold answer. simpl nth.
    destruct k as [|[|[|[|k]]]]; try lia; cbn [nth] in Hfail; simpl Nat.eqb;
      cbv iota; rewrite Hfail;
      rewrite ?H0, ?H1, ?H2, ?H3 by discriminate; simpl;
      apply Permutation_refl.
Qed.

Lemma get_all_events_survives_one_failure_witness :
  fst (get_all_events (deaf_world 100 four_logs "Withdrawn") 5 7
                      (fresh empty_db))
  = Ok [ mk_event "RewardClaimed" 0 "0xAa" None (Some 1) 5 1;
         mk_event "Staked" 0 "0xAa" (Some 10) None 5 2;
         mk_event "EmergencyWithdrawn" 0 "0xAa" (Some 6) None 6 3 ].
Proof.
  destruct (get_all_events_survives_one_failure
              (deaf_world 100 four_logs "Withdrawn") 5 7 (fresh empty_db)
              1%nat RpcError
              [mk_event "Staked" 0 "0xAa" (Some 10) None 5 2]
              []
              [mk_event "RewardClaimed" 0 "0xAa" None (Some 1) 5 1]
              [mk_event "EmergencyWithdrawn" 0 "0xAa" (Some 6) None 6 3])
    as [_ [evs [Heq _]]].
  - lia.
  - reflexivity.
  - intros _. reflexivity.
  - intros H. now contradiction H.
  - intros _. reflexivity.
  - intros _. reflexivity.
  - rewrite Heq. rewrite get_all_events_eq in Heq.
    injection Heq as <-. reflexivity.
Defined.


(** ** Decimal text *)

Lemma int_str (n : Z) : Py.int (Py.str n) = Some n.
Proof.
  unfold Py.int, Py.str.
  rewrite NilZero.isi.
  - simpl. now rewrite DecimalZ.of_to.
  - destruct n as [|p|p]; simpl; try discriminate.
    intros [= H]. now apply (DecimalPos.Unsigned.to_uint_nonnil p).
  - destruct n as [|p|p]; simpl; try discriminate.
    intros [= H]. now apply (DecimalPos.Unsigned.to_uint_nonnil p).
Qed.

(** ** Selecting and rewriting rows *)

Lemma filter_map_if {A} (P : A -> bool) (f : A -> A) (l : list A) :
  (forall r, P r = true -> P (f r) = true) ->
  filter P (map (fun r => if P r then f r else r) l) = map f (filter P l).
Proof.
  intros HP. induction l as [|x l IH]; simpl; [reflexivity|].
  destruct (P x) eqn:E.
  - rewrite (HP x E). simpl. now rewrite IH.
  - rewrite E. exact IH.
Qed.

Lemma Forall_map_if {A} (Q : A -> Prop) (P : A -> bool) (f : A -> A) l :
  Forall Q l ->
  (forall r, In r l -> P r = true -> Q r -> Q (f r)) ->
  Forall Q (map (fun r => if P r then f r else r) l).
Proof.
  intros Hall Hf. rewrite Forall_forall in *. intros y Hy.
  apply in_map_iff in Hy as [x [<- Hx]].
  destruct (P x) eqn:E; auto.
Qed.

Section HandlerFacts.
Variable sch : Schema.
Variable w : World.
Variable self_chain : string.

Lemma keeps_key_matches f pool_id user r :
  keeps_key f ->
  stake_matches self_chain pool_id user (f r)
  = stake_matches self_chain pool_id user r.
Proof.
  intros H. unfold stake_matches. destruct (H r) as (-> & -> & ->).
  reflexivity.
Qed.

Lemma select_set_stake pool_id user f db :
  keeps_key f ->
  select_stake self_chain pool_id user (set_stake self_chain pool_id user f db)
  = map f (select_stake self_chain pool_id user db).
Proof.
  intros H. unfold select_stake, set_stake. simpl.
  apply filter_map_if. intros r Hr. now rewrite keeps_key_matches.
Qed.

Lemma set_staked_amount_keeps_key v : keeps_key (set_staked_amount v).
Proof. intros r. now simpl. Qed.

Lemma set_last_stake_time_keeps_key v : keeps_key (set_last_stake_time v).
Proof. intros r. now simpl. Qed.

Lemma set_unlock_time_keeps_key v : keeps_key (set_unlock_time v).
Proof. intros r. now simpl. Qed.

Lemma set_is_active_keeps_key v : keeps_key (set_is_active v).
Proof. intros r. now simpl. Qed.

Lemma staked_row_keeps_key n ts unlock : keeps_key (staked_row n ts unlock).
Proof. intros r. now simpl. Qed.

(** Two assignments to the loaded row, one after the other. *)
Lemma set_stake_twice pool_id user f g db :
  keeps_key f ->
  set_stake self_chain pool_id user g (set_stake self_chain pool_id user f db)
  = set_stake self_chain pool_id user (fun r => g (f r)) db.
Proof.
  intros Hf. unfold set_stake, with_stakes. simpl. f_equal.
  rewrite map_map. apply map_ext. intros r.
  destruct (stake_matches self_chain pool_id user r) eqn:E.
  - now rewrite keeps_key_matches, E.
  - now rewrite E.
Qed.

Lemma withdrawn_row_keeps_key n : keeps_key (withdrawn_row n).
Proof. intros r. unfold withdrawn_row. now destruct (n <=? 0). Qed.

Lemma emergency_row_keeps_key : keeps_key emergency_row.
Proof. intros r. now simpl. Qed.

Lemma reward_claimed_row_keeps_key : keeps_key reward_claimed_row.
Proof. intros r. now simpl. Qed.

Lemma db_select_up {A} (q : DB -> result A) st :
  db_ok w (tick st) = true ->
  db_select w q st = (q (pending (sess st)), next st).
Proof. intros H. unfold db_select. now rewrite H. Qed.

Lemma handle_withdraw_found pool_id user amount timestamp st row cur :
  db_ok w (tick st) = true ->
  select_stake self_chain pool_id user (pending (sess st)) = [row] ->
  Py.int (Stake.staked_amount row) = Some cur ->
  _handle_withdraw w self_chain pool_id user amount timestamp st
  = (Ok tt,
     after 1 (set_stake self_chain pool_id user (withdrawn_row (cur - amount)))
           st).
Proof.
  intros Hdb Hsel Hint. unfold _handle_withdraw.
  erewrite bind_ok by (rewrite db_select_up by assumption;
                       rewrite Hsel; reflexivity).
  cbv beta iota. rewrite Hint. reflexivity.
Qed.

Lemma handle_withdraw_absent pool_id user amount timestamp st :
  db_ok w (tick st) = true ->
  select_stake self_chain pool_id user (pending (sess st)) = [] ->
  _handle_withdraw w self_chain pool_id user amount timestamp st
  = (Ok tt, next st).
Proof.
  intros Hdb Hsel. unfold _handle_withdraw.
  erewrite bind_ok by (rewrite db_select_up by assumption;
                       rewrite Hsel; reflexivity).
  reflexivity.
Qed.

Lemma timedelta_of_pool pool timestamp :
  unlock_fits pool timestamp ->
  match pool with
  | Some p => Py.timedelta_seconds (Pool.lock_duration p)
  | None => Ok seven_days
  end = Ok (lock_of pool).
Proof. intros [H _]. now destruct pool. Qed.

Lemma handle_stake_found pool_id user amount timestamp st row cur pool :
  db_ok w (tick st) = true ->
  db_ok w (S (tick st)) = true ->
  select_stake self_chain pool_id user (pending (sess st)) = [row] ->
  scalar_one_or_none (select_pool self_chain pool_id (pending (sess st)))
  = Ok pool ->
  Py.int (Stake.staked_amount row) = Some cur ->
  unlock_fits pool timestamp ->
  _handle_stake sch w self_chain pool_id user amount timestamp st
  = (Ok tt,
     after 2
       (set_stake self_chain pool_id user
          (staked_row (cur + amount) timestamp (timestamp + lock_of pool)))
       st).
Proof.
  intros Hdb1 Hdb2 Hsel Hpool Hint Hfits. unfold _handle_stake.
  erewrite bind_ok by (rewrite db_select_up by assumption;
                       rewrite Hsel; reflexivity).
  erewrite bind_ok by (rewrite db_select_up by assumption;
                       simpl; rewrite Hpool; reflexivity).
  erewrite bind_ok
    by (unfold lift_result; rewrite (timedelta_of_pool _ _ Hfits);
        reflexivity).
  cbv beta iota. rewrite Hint.
  destruct Hfits as [_ Hadd].
  unfold bind, orm, lift_result. rewrite Hadd. unfold after. simpl.
  rewrite !set_stake_twice by (intros r; now simpl).
  reflexivity.
Qed.

(** The unlock time is out of range: the rule raises after the first two
    columns of the loaded row were assigned. *)
Lemma handle_stake_overflow pool_id user amount timestamp st row cur pool :
  db_ok w (tick st) = true ->
  db_ok w (S (tick st)) = true ->
  select_stake self_chain pool_id user (pending (sess st)) = [row] ->
  scalar_one_or_none (select_pool self_chain pool_id (pending (sess st)))
  = Ok pool ->
  Py.int (Stake.staked_amount row) = Some cur ->
  match pool with
  | Some p => Py.timedelta_seconds (Pool.lock_duration p)
  | None => Ok seven_days
  end = Ok (lock_of pool) ->
  Py.datetime_add timestamp (lock_of pool) = Raise OverflowError ->
  _handle_stake sch w self_chain pool_id user amount timestamp st
  = (Raise OverflowError,
     after 2
       (set_stake self_chain pool_id user
          (fun r => set_last_stake_time timestamp
                      (set_staked_amount (Py.str (cur + amount)) r)))
       st).
Proof.
  intros Hdb1 Hdb2 Hsel Hpool Hint Hdelta Hadd. unfold _handle_stake.
  erewrite bind_ok by (rewrite db_select_up by assumption;
                       rewrite Hsel; reflexivity).
  erewrite bind_ok by (rewrite db_select_up by assumption;
                       simpl; rewrite Hpool; reflexivity).
  erewrite bind_ok by (unfold lift_result; rewrite Hdelta; reflexivity).
  cbv beta iota. rewrite Hint.
  unfold bind, orm, lift_result. rewrite Hadd. unfold after. simpl.
  rewrite set_stake_twice by apply set_staked_amount_keeps_key.
  reflexivity.
Qed.

Lemma handle_stake_created pool_id user amount timestamp st p :
  db_ok w (tick st) = true ->
  db_ok w (S (tick st)) = true ->
  db_ok w (S (S (tick st))) = true ->
  select_stake self_chain pool_id user (pending (sess st)) = [] ->
  select_pool self_chain pool_id (pending (sess st)) = [p] ->
  Pool.id p <> 0 ->
  unlock_fits (Some p) timestamp ->
  _handle_stake sch w self_chain pool_id user amount timestamp st
  = (Ok tt,
     after 3
       (add_stake
          (Stake.mk self_chain (Pool.id p) user (Py.str amount)
             (default_pending_rewards sch)
             timestamp (timestamp + Pool.lock_duration p) true))
       st).
Proof.
  intros Hdb1 Hdb2 Hdb3 Hsel Hpool Hid Hfits. unfold _handle_stake.
  erewrite bind_ok by (rewrite db_select_up by assumption;
                       rewrite Hsel; reflexivity).
  erewrite bind_ok by (rewrite db_select_up by assumption;
                       simpl; rewrite Hpool; reflexivity).
  erewrite bind_ok
    by (unfold lift_result; rewrite (timedelta_of_pool _ _ Hfits);
        reflexivity).
  erewrite bind_ok by (rewrite db_select_up by assumption;
                       simpl; rewrite Hpool; reflexivity).
  simpl. apply Z.eqb_neq in Hid. rewrite Hid.
  destruct Hfits as [_ Hadd]. simpl in Hadd.
  unfold bind, lift_result. now rewrite Hadd.
Qed.

Lemma handle_stake_skipped pool_id user amount timestamp st :
  db_ok w (tick st) = true ->
  db_ok w (S (tick st)) = true ->
  db_ok w (S (S (tick st))) = true ->
  select_stake self_chain pool_id user (pending (sess st)) = [] ->
  select_pool self_chain pool_id (pending (sess st)) = [] ->
  _handle_stake sch w self_chain pool_id user amount timestamp st
  = (Ok tt, mkSt (sess st) (3 + tick st)).
Proof.
  intros Hdb1 Hdb2 Hdb3 Hsel Hpool. unfold _handle_stake.
  erewrite bind_ok by (rewrite db_select_up by assumption;
                       rewrite Hsel; reflexivity).
  erewrite bind_ok by (rewrite db_select_up by assumption;
                       simpl; rewrite Hpool; reflexivity).
  erewrite bind_ok by reflexivity.
  erewrite bind_ok by (rewrite db_select_up by assumption;
                       simpl; rewrite Hpool; reflexivity).
  reflexivity.
Qed.

End HandlerFacts.


Lemma map_if_single {A} (P : A -> bool) (f : A -> A) (l : list A) (row : A) :
  filter P l = [row] ->
  map (fun r => if P r then f r else r) l
  = map (fun r => if P r then f row else r) l.
Proof.
  intros H. apply map_ext_in. intros r Hr.
  destruct (P r) eqn:E; [|reflexivity].
  assert (Hin : In r (filter P l)) by (apply filter_In; now split).
  rewrite H in Hin. destruct Hin as [<-|[]]. reflexivity.
Qed.

Lemma set_stake_single self_chain pool_id user f db row :
  select_stake self_chain pool_id user db = [row] ->
  set_stake self_chain pool_id user f db
  = set_stake self_chain pool_id user (fun _ => f row) db.
Proof.
  intros H. unfold set_stake. f_equal. now apply map_if_single.
Qed.

(** ** The Withdrawn rule *)

(** C3. A Withdrawn event applied to the Stake row that the lookup finds
    (its amount column reading [cur]) succeeds and rewrites that row only:
    when [cur - amount <= 0] the row gets staked amount "0", pending rewards
    "0" and active false; otherwise the staked amount becomes
    [cur - amount] and pending rewards "0".  In both cases the new staked
    amount is not negative. *)
Theorem handle_withdraw_rule
        w self_chain pool_id user amount timestamp st row cur :
  db_ok w (tick st) = true ->
  select_stake self_chain pool_id user (pending (sess st)) = [row] ->
  Py.int (Stake.staked_amount row) = Some cur ->
  exists row' st',
    _handle_withdraw w self_chain pool_id user amount timestamp st
    = (Ok tt, st')
    /\ st' = after 1 (set_stake self_chain pool_id user (fun _ => row')) st
    /\ select_stake self_chain pool_id user (pending (sess st')) = [row']
    /\ (cur - amount <= 0 ->
        Stake.staked_amount row' = "0"
        /\ Stake.pending_rewards row' = "0"
        /\ Stake.is_active row' = false)
    /\ (0 < cur - amount ->
        Stake.staked_amount row' = Py.str (cur - amount)
        /\ Py.int (Stake.staked_amount row') = Some (cur - amount)
        /\ Stake.pending_rewards row' = "0"
        /\ Stake.is_active row' = Stake.is_active row)
    /\ (exists n, Py.int (Stake.staked_amount row') = Some n /\ 0 <= n)
    /\ Stake.last_stake_time row' = Stake.last_stake_time row
    /\ Stake.unlock_time row' = Stake.unlock_time row.
Proof.
  intros Hdb Hsel Hint.
  exists (withdrawn_row (cur - amount) row). eexists.
  split; [exact (handle_withdraw_found w self_chain _ _ _ _ _ row cur
                   Hdb Hsel Hint)|].
  split; [unfold after; now rewrite (set_stake_single _ _ _ _ _ row Hsel)|].
  split.
  { simpl. rewrite select_set_stake by apply withdrawn_row_keeps_key.
    now rewrite Hsel. }
  unfold withdrawn_row.
  destruct (cur - amount <=? 0) eqn:E.
  - apply Z.leb_le in E. simpl. repeat split; try lia; try reflexivity.
    exists 0. split; [reflexivity | lia].
  - apply Z.leb_gt in E. simpl. repeat split; try lia; try reflexivity.
    + apply int_str.
    + exists (cur - amount). split; [apply int_str | lia].
Qed.


(** ** Processing one event *)

Section ProcessFacts.
Variable sch : Schema.
Variable w : World.
Variable self_chain : string.

(** Picking the timestamp never raises and leaves the session alone. *)
Lemma event_timestamp_total block_number st :
  exists ts n,
    event_timestamp w block_number st
    = (Ok ts, mkSt (sess st) (n + tick st)).
Proof.
  unfold event_timestamp, try_except, bind, get_block, rpc, lift_result, now.
  cbv beta.
  destruct (eth_get_block w (tick st) block_number) as [ts|e].
  - simpl. destruct (fromtimestamp w ts) as [ts'|e].
    + exists ts', 1%nat. reflexivity.
    + exists (utcnow w (S (tick st))), 2%nat. reflexivity.
  - exists (utcnow w (S (tick st))), 2%nat. reflexivity.
Qed.

Lemma event_timestamp_fallback block_number st e :
  eth_get_block w (tick st) block_number = Raise e ->
  event_timestamp w block_number st
  = (Ok (utcnow w (S (tick st))), mkSt (sess st) (2 + tick st)).
Proof.
  intros H.
  unfold event_timestamp, try_except, bind, get_block, rpc, lift_result, now.
  cbv beta. now rewrite H.
Qed.

Lemma process_event_unfold ev st ts n :
  event_timestamp w (blockNumber ev) st
  = (Ok ts, mkSt (sess st) (n + tick st)) ->
  _process_event sch w self_chain ev st
  = dispatch_event sch w self_chain (event ev) (args ev) ts
      (after n (add_staking_event (event_record self_chain ev ts)) st).
Proof.
  intros H. unfold _process_event.
  erewrite bind_ok by exact H. reflexivity.
Qed.

End ProcessFacts.

Lemma event_timestamp_picks w block_number st :
  exists n,
    event_timestamp w block_number st
    = (Ok (picked_timestamp w (tick st) block_number),
       mkSt (sess st) (n + tick st)).
Proof.
  unfold event_timestamp, picked_timestamp, try_except, bind, get_block, rpc,
    lift_result, now.
  cbv beta.
  destruct (eth_get_block w (tick st) block_number) as [ts|e].
  - simpl. destruct (fromtimestamp w ts) as [ts'|e].
    + exists 1%nat. reflexivity.
    + exists 2%nat. reflexivity.
  - exists 2%nat. reflexivity.
Qed.

(** ** The Staked rule *)

(** C6. The code does not do what the claim says on two inputs.  With no
    Pool row for the pool, a Staked event for a (pool, user) pair without a
    Stake row is recorded in the event log but no Stake row is created.
    With the Pool row of on-chain pool 1 stored under primary key 2, a
    Staked event of 10 creates a row under key 2 that the lookup for pool 1
    does not find, so a second Staked event of 5 creates a second row
    instead of raising the staked amount to 15. *)
Theorem staked_event_row_missing_or_not_found :
  (exists st',
      _process_event plain_schema (calm_world 100 []) "sepolia"
                     (staked 10 5 0) (fresh empty_db)
      = (Ok tt, st')
      /\ select_stake "sepolia" 1 "0xaa" (pending (sess (fresh empty_db))) = []
      /\ stakes (pending (sess st')) = []
      /\ length (staking_events (pending (sess st'))) = 1%nat)
  /\ (exists st',
         for_each [staked 10 5 0; staked 5 6 0]
                  (_process_event plain_schema (calm_world 100 []) "sepolia")
                  (fresh (mkDB [pool_one_under_two] [] [] []))
         = (Ok tt, st')
         /\ map (fun r => (Stake.pool_id r, Stake.staked_amount r))
                (stakes (pending (sess st')))
            = [(2, "10"); (2, "5")]
         /\ select_stake "sepolia" 1 "0xaa" (pending (sess st')) = []).
Proof.
  split.
  - eexists. vm_compute. repeat split.
  - eexists. vm_compute. repeat split.
Qed.

(** X17. The Staked rule as the code has it, when neither the [timedelta]
    of the lock duration nor the unlock time is out of range.  On the Stake
    row that the lookup finds (amount column reading [cur]) the rule sets
    staked amount [cur + amount], last stake time the event time, unlock
    time the event time plus the lock duration of the Pool row (seven days
    when there is none) and active true, and leaves pending rewards.  When
    the lookup finds no Stake row, a row with the event's amount, these
    times and active true is added if the Pool row exists with a primary key
    other than 0; with no Pool row nothing is added. *)
Theorem handle_stake_rule sch w self_chain pool_id user amount timestamp st :
  db_ok w (tick st) = true ->
  db_ok w (S (tick st)) = true ->
  db_ok w (S (S (tick st))) = true ->
  (forall row cur pool,
      select_stake self_chain pool_id user (pending (sess st)) = [row] ->
      scalar_one_or_none (select_pool self_chain pool_id (pending (sess st)))
      = Ok pool ->
      Py.int (Stake.staked_amount row) = Some cur ->
      unlock_fits pool timestamp ->
      exists row' st',
        _handle_stake sch w self_chain pool_id user amount timestamp st
        = (Ok tt, st')
        /\ st' = after 2 (set_stake self_chain pool_id user (fun _ => row')) st
        /\ select_stake self_chain pool_id user (pending (sess st')) = [row']
        /\ Py.int (Stake.staked_amount row') = Some (cur + amount)
        /\ Stake.last_stake_time row' = timestamp
        /\ Stake.unlock_time row' = timestamp + lock_of pool
        /\ Stake.is_active row' = true
        /\ Stake.pending_rewards row' = Stake.pending_rewards row)
  /\ (forall p,
         select_stake self_chain pool_id user (pending (sess st)) = [] ->
         select_pool self_chain pool_id (pending (sess st)) = [p] ->
         Pool.id p <> 0 ->
         unlock_fits (Some p) timestamp ->
         exists row' st',
           _handle_stake sch w self_chain pool_id user amount timestamp st
           = (Ok tt, st')
           /\ st' = after 3 (add_stake row') st
           /\ stakes (pending (sess st'))
              = stakes (pending (sess st)) ++ [row']
           /\ Stake.chain row' = self_chain
           /\ Stake.user_address row' = user
           /\ Py.int (Stake.staked_amount row') = Some amount
           /\ Stake.last_stake_time row' = timestamp
           /\ Stake.unlock_time row' = timestamp + Pool.lock_duration p
           /\ Stake.is_active row' = true)
  /\ (select_stake self_chain pool_id user (pending (sess st)) = [] ->
      select_pool self_chain pool_id (pending (sess st)) = [] ->
      _handle_stake sch w self_chain pool_id user amount timestamp st
      = (Ok tt, mkSt (sess st) (3 + tick st))).
Proof.
  intros Hdb1 Hdb2 Hdb3. split; [|split].
  - intros row cur pool Hsel Hpool Hint Hfits.
    eexists. eexists.
    split; [exact (handle_stake_found sch w self_chain _ _ _ _ _ row cur pool
                     Hdb1 Hdb2 Hsel Hpool Hint Hfits)|].
    split; [unfold after; now rewrite (set_stake_single _ _ _ _ _ row Hsel)|].
    split.
    { simpl. rewrite select_set_stake by apply staked_row_keeps_key.
      now rewrite Hsel. }
    simpl. repeat split. apply int_str.
  - intros p Hsel Hpool Hid Hfits.
    eexists. eexists.
    split; [exact (handle_stake_created sch w self_chain _ _ _ _ _ p
                     Hdb1 Hdb2 Hdb3 Hsel Hpool Hid Hfits)|].
    simpl. repeat split. apply int_str.
  - intros Hsel Hpool.
    now apply handle_stake_skipped.
Qed.

Lemma handle_stake_rule_witness :
  exists row' st',
    _handle_stake plain_schema (calm_world 100 []) "sepolia" 1 "0xaa" 10 500
                  (fresh (db_of [stake_of "7" true]))
    = (Ok tt, st')
    /\ select_stake "sepolia" 1 "0xaa" (pending (sess st')) = [row']
    /\ Py.int (Stake.staked_amount row') = Some 17
    /\ Stake.unlock_time row' = 4100.
Proof.
  destruct (handle_stake_rule plain_schema (calm_world 100 []) "sepolia"
              1 "0xaa" 10 500 (fresh (db_of [stake_of "7" true]))
              eq_refl eq_refl eq_refl) as [H _].
  destruct (H (stake_of "7" true) 7 (Some pool_one) eq_refl eq_refl eq_refl)
    as (row' & st' & H1 & _ & H3 & H4 & _ & H6 & _).
  { split; reflexivity. }
  exists row', st'. repeat split; assumption.
Defined.

(** ** Frame rules *)

Section Frames.
Variable R : Session -> Session -> Prop.
Hypothesis R_refl : forall s, R s s.
Hypothesis R_trans : forall s1 s2 s3, R s1 s2 -> R s2 s3 -> R s1 s3.

Lemma frames_ret {A} (a : A) : frames R (ret a).
Proof. intros st r st' [= _ <-]. apply R_refl. Qed.

Lemma frames_raise {A} e : frames R (@raise A e).
Proof. intros st r st' [= _ <-]. apply R_refl. Qed.

Lemma frames_lift {A} (x : result A) : frames R (lift_result x).
Proof. intros st r st' [= _ <-]. apply R_refl. Qed.

Lemma frames_bind {A B} (m : M A) (k : A -> M B) :
  frames R m -> (forall a, frames R (k a)) -> frames R (bind m k).
Proof.
  intros Hm Hk st r st'. unfold bind.
  destruct (m st) as [[a|e] st1] eqn:E; intros H.
  - eapply R_trans; [eapply Hm, E | eapply Hk, H].
  - injection H as _ <-. eapply Hm, E.
Qed.

Lemma frames_try {A} (m : M A) (h : exn -> M A) :
  frames R m -> (forall e, frames R (h e)) -> frames R (try_except m h).
Proof.
  intros Hm Hh st r st'. unfold try_except.
  destruct (m st) as [[a|e] st1] eqn:E; intros H.
  - injection H as _ <-. eapply Hm, E.
  - eapply R_trans; [eapply Hm, E | eapply Hh, H].
Qed.

Lemma frames_for_each {A} (xs : list A) (body : A -> M unit) :
  (forall x, frames R (body x)) -> frames R (for_each xs body).
Proof.
  intros Hb. induction xs as [|x xs IH]; simpl.
  - apply frames_ret.
  - apply frames_bind; [apply Hb | intros _; exact IH].
Qed.

Lemma frames_retry {A} n (m : M A) : frames R m -> frames R (retry n m).
Proof.
  intros Hm. induction n as [|n IH]; simpl.
  - apply frames_raise.
  - apply frames_try; [exact Hm | intros _; exact IH].
Qed.

Lemma frames_rpc {A} w (f : World -> nat -> result A) : frames R (rpc w f).
Proof. intros st r st' [= _ <-]. apply R_refl. Qed.

Lemma frames_now w : frames R (now w).
Proof. intros st r st' [= _ <-]. apply R_refl. Qed.

Lemma frames_suspend : frames R suspend.
Proof. intros st r st' [= _ <-]. apply R_refl. Qed.

Lemma frames_wait_for_stop w : frames R (wait_for_stop w).
Proof. intros st r st' [= _ <-]. apply R_refl. Qed.

Lemma frames_db_select {A} w (q : DB -> result A) : frames R (db_select w q).
Proof.
  intros st r st'. unfold db_select.
  destruct (db_ok w (tick st)); intros [= _ <-]; apply R_refl.
Qed.

Lemma frames_orm (f : DB -> DB) :
  (forall s, R s (mkSession (committed s) (f (pending s)))) ->
  frames R (orm f).
Proof. intros Hf st r st' [= _ <-]. apply Hf. Qed.

Lemma frames_db_update w (f : DB -> DB) :
  (forall s, R s (mkSession (committed s) (f (pending s)))) ->
  frames R (db_update w f).
Proof.
  intros Hf st r st'. unfold db_update.
  destruct (db_ok w (tick st)); intros [= _ <-]; [apply Hf | apply R_refl].
Qed.

Lemma frames_get_events w name from_block to_block af :
  frames R (get_events w name from_block to_block af).
Proof.
  apply frames_try; [apply frames_rpc | intros _; apply frames_ret].
Qed.

Lemma frames_collect_events w names from_block to_block acc :
  frames R (collect_events w names from_block to_block acc).
Proof.
  revert acc. induction names as [|name names IH]; intros acc; simpl.
  - apply frames_ret.
  - apply frames_bind; [|intros a; apply IH].
    apply frames_try; [|intros _; apply frames_ret].
    apply frames_bind; [apply frames_get_events | intros a; apply frames_ret].
Qed.

Lemma frames_get_all_events w from_block to_block :
  frames R (get_all_events w from_block to_block).
Proof.
  apply frames_bind; [apply frames_collect_events | intros a; apply frames_ret].
Qed.

Lemma frames_event_timestamp w block_number :
  frames R (event_timestamp w block_number).
Proof.
  apply frames_try; [|intros _; apply frames_now].
  apply frames_bind; [apply frames_rpc | intros a; apply frames_lift].
Qed.

Lemma frames_get_pool_info w pool_id : frames R (get_pool_info w pool_id).
Proof.
  apply frames_try; [|intros _; apply frames_ret].
  apply frames_bind; [apply frames_rpc | intros a].
  apply frames_bind; [apply frames_rpc | intros b; apply frames_ret].
Qed.

Lemma frames_get_pool_count w : frames R (get_pool_count w).
Proof. apply frames_try; [apply frames_rpc | intros _; apply frames_ret]. Qed.

(** The four handlers only assign to Stake rows or add one. *)
Hypothesis R_stakes :
  forall s l, R s (mkSession (committed s)
                     (mkDB (pools (pending s)) l
                           (staking_events (pending s))
                           (indexer_states (pending s)))).

Lemma frames_set_stake self_chain pool_id user f :
  frames R (orm (set_stake self_chain pool_id user f)).
Proof. apply frames_orm. intros s. apply R_stakes. Qed.

Lemma frames_handle_stake sch w self_chain pool_id user amount timestamp :
  frames R (_handle_stake sch w self_chain pool_id user amount timestamp).
Proof.
  unfold _handle_stake.
  apply frames_bind; [apply frames_db_select | intros stake].
  apply frames_bind; [apply frames_db_select | intros pool].
  apply frames_bind; [apply frames_lift | intros lock_duration].
  destruct stake as [s|].
  - destruct (Py.int (Stake.staked_amount s)); [|apply frames_raise].
    apply frames_bind; [apply frames_set_stake | intros _].
    apply frames_bind; [apply frames_set_stake | intros _].
    apply frames_bind; [apply frames_lift | intros unlock].
    apply frames_bind; [apply frames_set_stake | intros _].
    apply frames_set_stake.
  - apply frames_bind; [apply frames_db_select | intros [ref|]].
    + destruct (ref =? 0); [apply frames_ret|].
      apply frames_bind; [apply frames_lift | intros unlock].
      apply frames_orm. intros s. apply R_stakes.
    + apply frames_ret.
Qed.

Lemma frames_handle_withdraw w self_chain pool_id user amount timestamp :
  frames R (_handle_withdraw w self_chain pool_id user amount timestamp).
Proof.
  unfold _handle_withdraw.
  apply frames_bind; [apply frames_db_select | intros [s|]].
  - destruct (Py.int (Stake.staked_amount s));
      [apply frames_set_stake | apply frames_raise].
  - apply frames_ret.
Qed.

Lemma frames_handle_emergency_withdraw w self_chain pool_id user amount :
  frames R (_handle_emergency_withdraw w self_chain pool_id user amount).
Proof.
  unfold _handle_emergency_withdraw.
  apply frames_bind; [apply frames_db_select | intros [s|]].
  - apply frames_set_stake.
  - apply frames_ret.
Qed.

Lemma frames_handle_reward_claimed w self_chain pool_id user :
  frames R (_handle_reward_claimed w self_chain pool_id user).
Proof.
  unfold _handle_reward_claimed.
  apply frames_bind; [apply frames_db_select | intros [s|]].
  - apply frames_set_stake.
  - apply frames_ret.
Qed.

Lemma frames_attr_amount a : frames R (attr_amount a).
Proof.
  unfold attr_amount. destruct (amount a);
    [apply frames_ret | apply frames_raise].
Qed.

Lemma frames_dispatch_event sch w self_chain name a timestamp :
  frames R (dispatch_event sch w self_chain name a timestamp).
Proof.
  unfold dispatch_event.
  destruct (String.eqb name "Staked").
  { apply frames_bind; [apply frames_attr_amount | intros n].
    apply frames_handle_stake. }
  destruct (String.eqb name "Withdrawn").
  { apply frames_bind; [apply frames_attr_amount | intros n].
    apply frames_handle_withdraw. }
  destruct (String.eqb name "EmergencyWithdrawn").
  { apply frames_bind; [apply frames_attr_amount | intros n].
    apply frames_handle_emergency_withdraw. }
  destruct (String.eqb name "RewardClaimed").
  { apply frames_handle_reward_claimed. }
  apply frames_ret.
Qed.

End Frames.

Lemma log_untouched_refl s : log_untouched s s.
Proof. reflexivity. Qed.

Lemma log_untouched_trans s1 s2 s3 :
  log_untouched s1 s2 -> log_untouched s2 s3 -> log_untouched s1 s3.
Proof. unfold log_untouched. congruence. Qed.

Lemma log_untouched_dispatch sch w self_chain name a timestamp :
  frames log_untouched (dispatch_event sch w self_chain name a timestamp).
Proof.
  apply frames_dispatch_event;
    [exact log_untouched_refl | exact log_untouched_trans | reflexivity].
Qed.

Lemma cursor_untouched_refl s : cursor_untouched s s.
Proof. now split. Qed.

Lemma cursor_untouched_trans s1 s2 s3 :
  cursor_untouched s1 s2 -> cursor_untouched s2 s3 -> cursor_untouched s1 s3.
Proof. intros [H1 H2] [H3 H4]. split; congruence. Qed.

Ltac cursor_side :=
  first [ exact cursor_untouched_refl
        | exact cursor_untouched_trans
        | (intros; split; reflexivity) ].

Lemma cursor_untouched_process_event sch w self_chain ev :
  frames cursor_untouched (_process_event sch w self_chain ev).
Proof.
  unfold _process_event.
  apply frames_bind; [cursor_side | | intros ts].
  { apply frames_event_timestamp; cursor_side. }
  apply frames_bind; [cursor_side | | intros _].
  { apply frames_orm. intros s. now split. }
  apply frames_dispatch_event; cursor_side.
Qed.

(** ** Block fetch failure *)

(** C10. When fetching the block of an event fails, the event is still
    processed: the StakingEvent row added to the log holds the event's name,
    transaction hash, block number, log index, pool, lower-cased user and
    amounts as decimal text, with the wall-clock reading taken right after
    the failed fetch as timestamp, whatever the balance rule does
    afterwards; the balance rule runs with that same reading as event time.
    For a Staked event on a found row, when the unlock time is in range the
    row's last stake time is that reading and its unlock time is the reading
    plus the lock duration; when the reading plus the lock duration is out
    of range the rule raises OverflowError after it has set the staked
    amount and the last stake time to that reading. *)
Theorem process_event_clock_fallback sch w self_chain ev st e :
  eth_get_block w (tick st) (blockNumber ev) = Raise e ->
  let wall := utcnow w (S (tick st)) in
  let record :=
    StakingEvent.mk self_chain (event ev) (transactionHash ev)
      (blockNumber ev) (logIndex ev) (poolId (args ev))
      (Py.lower (user (args ev)))
      (option_map Py.str (amount (args ev)))
      (option_map Py.str (rewardAmount (args ev)))
      wall in
  _process_event sch w self_chain ev st
  = dispatch_event sch w self_chain (event ev) (args ev) wall
      (after 2 (add_staking_event record) st)
  /\ (forall r st',
         _process_event sch w self_chain ev st = (r, st') ->
         staking_events (pending (sess st'))
         = staking_events (pending (sess st)) ++ [record])
  /\ (forall a row cur pool,
         event ev = "Staked" ->
         amount (args ev) = Some a ->
         db_ok w (2 + tick st) = true ->
         db_ok w (3 + tick st) = true ->
         select_stake self_chain (poolId (args ev)) (Py.lower (user (args ev)))
                      (pending (sess st)) = [row] ->
         scalar_one_or_none
           (select_pool self_chain (poolId (args ev)) (pending (sess st)))
         = Ok pool ->
         Py.int (Stake.staked_amount row) = Some cur ->
         (unlock_fits pool wall ->
          exists row' st',
            _process_event sch w self_chain ev st = (Ok tt, st')
            /\ select_stake self_chain (poolId (args ev))
                            (Py.lower (user (args ev))) (pending (sess st'))
               = [row']
            /\ Py.int (Stake.staked_amount row') = Some (cur + a)
            /\ Stake.last_stake_time row' = wall
            /\ Stake.unlock_time row' = wall + lock_of pool
            /\ Stake.is_active row' = true)
         /\ (match pool with
             | Some p => Py.timedelta_seconds (Pool.lock_duration p)
             | None => Ok seven_days
             end = Ok (lock_of pool) ->
             Py.datetime_add wall (lock_of pool) = Raise OverflowError ->
             exists row' st',
               _process_event sch w self_chain ev st
               = (Raise OverflowError, st')
               /\ select_stake self_chain (poolId (args ev))
                               (Py.lower (user (args ev))) (pending (sess st'))
                  = [row']
               /\ Py.int (Stake.staked_amount row') = Some (cur + a)
               /\ Stake.last_stake_time row' = wall
               /\ Stake.unlock_time row' = Stake.unlock_time row
               /\ Stake.is_active row' = Stake.is_active row)).
Proof.
  intros Hfail wall record.
  assert (Hrun : _process_event sch w self_chain ev st
                 = dispatch_event sch w self_chain (event ev) (args ev) wall
                     (after 2 (add_staking_event record) st)).
  { apply process_event_unfold. now apply event_timestamp_fallback with e. }
  split; [exact Hrun|]. split.
  - intros r st' H. rewrite Hrun in H.
    apply log_untouched_dispatch in H. exact H.
  - intros a row cur pool Hname Hamount Hdb1 Hdb2 Hsel Hpool Hint.
    rewrite Hrun. unfold dispatch_event. rewrite Hname.
    change (String.eqb "Staked" "Staked") with true. cbv iota.
    unfold attr_amount. rewrite Hamount.
    erewrite bind_ok by reflexivity.
    split.
    + intros Hfits. eexists. eexists.
      split.
      { apply handle_stake_found with (row := row) (cur := cur) (pool := pool);
          assumption. }
      split.
      { simpl. rewrite select_set_stake by apply staked_row_keeps_key.
        simpl in Hsel. unfold select_stake in *. simpl. now rewrite Hsel. }
      simpl. repeat split. apply int_str.
    + intros Hdelta Hover. eexists. eexists.
      split.
      { apply handle_stake_overflow with (row := row) (cur := cur)
                                         (pool := pool); assumption. }
      split.
      { simpl. rewrite select_set_stake by (intros r0; now simpl).
        simpl in Hsel. unfold select_stake in *. simpl. now rewrite Hsel. }
      simpl. repeat split. apply int_str.
Qed.

Lemma process_event_clock_fallback_witness :
  exists row' st',
    _process_event plain_schema (blind_world 100 []) "sepolia" (staked 10 5 0)
                   (fresh (db_of [stake_of "7" true]))
    = (Ok tt, st')
    /\ select_stake "sepolia" 1 "0xaa" (pending (sess st')) = [row']
    /\ Py.int (Stake.staked_amount row') = Some 17
    /\ Stake.last_stake_time row' = 1700000001
    /\ Stake.unlock_time row' = 1700003601.
Proof.
  pose proof (process_event_clock_fallback plain_schema (blind_world 100 [])
                "sepolia" (staked 10 5 0) (fresh (db_of [stake_of "7" true]))
                RpcError eq_refl) as H.
  cbv zeta in H. destruct H as (_ & _ & H).
  destruct (H 10 (stake_of "7" true) 7 (Some pool_one)
              eq_refl eq_refl eq_refl eq_refl eq_refl eq_refl eq_refl)
    as [H0 _].
  destruct H0 as (row' & st' & H1 & H2 & H3 & H4 & H5 & _).
  { split; reflexivity. }
  exists row', st'. repeat split; assumption.
Defined.

Lemma handle_withdraw_rule_witness :
  exists row' st',
    _handle_withdraw (calm_world 100 []) "sepolia" 1 "0xaa" 9 500
                     (fresh (db_of [stake_of "7" true]))
    = (Ok tt, st')
    /\ select_stake "sepolia" 1 "0xaa" (pending (sess st')) = [row']
    /\ Stake.staked_amount row' = "0"
    /\ Stake.pending_rewards row' = "0"
    /\ Stake.is_active row' = false.
Proof.
  destruct (handle_withdraw_rule (calm_world 100 []) "sepolia" 1 "0xaa" 9 500
              (fresh (db_of [stake_of "7" true])) (stake_of "7" true) 7
              eq_refl eq_refl eq_refl)
    as (row' & st' & H1 & _ & H3 & H4 & _).
  exists row', st'.
  destruct H4 as (Ha & Hb & Hc); [lia|].
  repeat split; assumption.
Defined.

(** ** The row invariant *)

Lemma bind_inv {A B} (m : M A) (k : A -> M B) st r st' :
  bind m k st = (r, st') ->
  (exists a st1, m st = (Ok a, st1) /\ k a st1 = (r, st'))
  \/ (exists e, m st = (Raise e, st') /\ r = Raise e).
Proof.
  unfold bind. destruct (m st) as [[a|e] st1]; intros H.
  - left. now exists a, st1.
  - right. injection H as <- <-. now exists e.
Qed.

Lemma db_select_inv {A} w (q : DB -> result A) st r st' :
  db_select w q st = (r, st') ->
  st' = next st
  /\ (r = q (pending (sess st)) \/ r = Raise (db_error w (tick st))).
Proof.
  unfold db_select. destruct (db_ok w (tick st)); intros [= <- <-]; auto.
Qed.

Lemma lift_result_inv {A} (x : result A) st r st' :
  lift_result x st = (r, st') -> st' = st /\ r = x.
Proof. now intros [= <- <-]. Qed.

Lemma datetime_add_raises d delta e :
  Py.datetime_add d delta = Raise e -> e = OverflowError.
Proof.
  unfold Py.datetime_add.
  destruct ((Py.datetime_min <=? d + delta) && (d + delta <=? Py.datetime_max));
    now intros [= <-].
Qed.

Lemma scalar_one_or_none_inv {A} (l : list A) o :
  scalar_one_or_none l = Ok o ->
  (o = None /\ l = []) \/ (exists r, o = Some r /\ l = [r]).
Proof.
  destruct l as [|r [|r' l]]; simpl; intros [= <-]; eauto.
Qed.

(** What a handler knows after its first statement: either the select
    failed, or it holds the result of [scalar_one_or_none]. *)
Lemma select_stake_then w self_chain pool_id user (k : option Stake.t -> M unit)
      st r st' :
  bind (db_select w
          (fun db => scalar_one_or_none
                       (select_stake self_chain pool_id user db))) k st
  = (r, st') ->
  sess st' = sess st
  \/ (select_stake self_chain pool_id user (pending (sess st)) = []
      /\ k None (next st) = (r, st'))
  \/ (exists s,
         select_stake self_chain pool_id user (pending (sess st)) = [s]
         /\ k (Some s) (next st) = (r, st')).
Proof.
  intros H. apply bind_inv in H as [(o & st1 & Hsel & Hk)|(e & Hsel & _)].
  - apply db_select_inv in Hsel as [-> [Hq|Hq]]; [|discriminate].
    symmetry in Hq. apply scalar_one_or_none_inv in Hq
      as [[-> Hl]|(s & -> & Hl)]; eauto.
  - apply db_select_inv in Hsel as [-> _]. now left.
Qed.

Lemma stake_inv_set self_chain pool_id user f db s :
  select_stake self_chain pool_id user db = [s] ->
  Forall stake_inv (stakes db) ->
  (stake_inv s -> stake_inv (f s)) ->
  Forall stake_inv (stakes (set_stake self_chain pool_id user f db)).
Proof.
  intros Hsel Hall Hf. unfold set_stake. simpl.
  apply Forall_map_if; [exact Hall|].
  intros r Hin Hm Hr.
  assert (Hin' : In r (select_stake self_chain pool_id user db))
    by (apply filter_In; now split).
  rewrite Hsel in Hin'. destruct Hin' as [<-|[]]. now apply Hf.
Qed.

Lemma stake_inv_withdrawn n a r :
  Py.int (Stake.staked_amount r) = Some n -> 0 <= a ->
  stake_inv r -> stake_inv (withdrawn_row (n - a) r).
Proof.
  intros Hint Ha (m & Hm & Hpos & Hact).
  rewrite Hint in Hm. injection Hm as <-.
  unfold withdrawn_row. destruct (n - a <=? 0) eqn:E.
  - exists 0. simpl. repeat split; try lia; try discriminate.
  - apply Z.leb_gt in E. exists (n - a). simpl.
    rewrite int_str. repeat split; try lia.
    intros _. apply Hact. lia.
Qed.

Lemma stake_inv_staked n a ts lock r :
  Py.int (Stake.staked_amount r) = Some n -> 0 < a ->
  stake_inv r -> stake_inv (staked_row (n + a) ts lock r).
Proof.
  intros Hint Ha (m & Hm & Hpos & Hact).
  rewrite Hint in Hm. injection Hm as <-.
  exists (n + a). simpl. rewrite int_str. repeat split; lia.
Qed.

Lemma stake_inv_emergency r : stake_inv (emergency_row r).
Proof. exists 0. simpl. repeat split; try lia; discriminate. Qed.

Lemma stake_inv_reward_claimed r :
  stake_inv r -> stake_inv (reward_claimed_row r).
Proof. intros (n & Hn & Hpos & Hact). now exists n. Qed.

Section InvariantFacts.
Variable sch : Schema.
Variable w : World.
Variable self_chain : string.

Let kept (st st' : St) : Prop :=
  Forall stake_inv (stakes (pending (sess st))) ->
  Forall stake_inv (stakes (pending (sess st'))).

Lemma handle_withdraw_inv pool_id user a ts st r st' :
  0 <= a ->
  _handle_withdraw w self_chain pool_id user a ts st = (r, st') ->
  kept st st'.
Proof.
  intros Ha H Hall. unfold _handle_withdraw in H.
  apply select_stake_then in H as [->|[[_ H]|(s & Hsel & H)]];
    [exact Hall | now injection H as _ <- |].
  destruct (Py.int (Stake.staked_amount s)) as [n|] eqn:Hint.
  - injection H as _ <-. simpl.
    apply stake_inv_set with s; auto using stake_inv_withdrawn.
  - now injection H as _ <-.
Qed.

Lemma handle_emergency_withdraw_inv pool_id user a st r st' :
  _handle_emergency_withdraw w self_chain pool_id user a st = (r, st') ->
  kept st st'.
Proof.
  intros H Hall. unfold _handle_emergency_withdraw in H.
  apply select_stake_then in H as [->|[[_ H]|(s & Hsel & H)]];
    [exact Hall | now injection H as _ <- |].
  injection H as _ <-. simpl.
  apply stake_inv_set with s; auto using stake_inv_emergency.
Qed.

Lemma handle_reward_claimed_inv pool_id user st r st' :
  _handle_reward_claimed w self_chain pool_id user st = (r, st') ->
  kept st st'.
Proof.
  intros H Hall. unfold _handle_reward_claimed in H.
  apply select_stake_then in H as [->|[[_ H]|(s & Hsel & H)]];
    [exact Hall | now injection H as _ <- |].
  injection H as _ <-. simpl.
  apply stake_inv_set with s; auto using stake_inv_reward_claimed.
Qed.

(** The Staked rule keeps the invariant unless it stops on an unlock time
    out of range, which leaves the loaded row with its new amount and its
    old active flag. *)
Lemma handle_stake_inv pool_id user a ts st r st' :
  0 < a ->
  _handle_stake sch w self_chain pool_id user a ts st = (r, st') ->
  r <> Raise OverflowError ->
  kept st st'.
Proof.
  intros Ha H Hr Hall. unfold _handle_stake in H.
  apply select_stake_then in H as [->|[[_ H]|(s & Hsel & H)]];
    [exact Hall | |].
  - apply bind_inv in H as [(pool & st1 & Hp & H)|(e & Hp & _)];
      apply db_select_inv in Hp as [-> _]; [|exact Hall].
    apply bind_inv in H as [(lock & st1 & Hp & H)|(e & Hp & _)];
      apply lift_result_inv in Hp as [-> _]; [|exact Hall].
    apply bind_inv in H as [(ref & st1 & Hp & H)|(e & Hp & _)];
      apply db_select_inv in Hp as [-> _]; [|exact Hall].
    destruct ref as [ref|]; [|now injection H as _ <-].
    destruct (ref =? 0); [now injection H as _ <-|].
    apply bind_inv in H as [(unlock & st1 & Hp & H)|(e & Hp & _)];
      apply lift_result_inv in Hp as [-> _]; [|exact Hall].
    injection H as _ <-. simpl.
    apply Forall_app. split; [exact Hall|]. constructor; [|constructor].
    exists a. simpl. rewrite int_str. repeat split; lia.
  - apply bind_inv in H as [(pool & st1 & Hp & H)|(e & Hp & _)];
      apply db_select_inv in Hp as [-> _]; [|exact Hall].
    apply bind_inv in H as [(lock & st1 & Hp & H)|(e & Hp & _)];
      apply lift_result_inv in Hp as [-> _]; [|exact Hall].
    destruct (Py.int (Stake.staked_amount s)) as [n|] eqn:Hint;
      [|now injection H as _ <-].
    unfold bind, orm, lift_result in H.
    destruct (Py.datetime_add ts lock) as [unlock|e] eqn:Hadd.
    + injection H as _ <-. cbn [sess pending].
      rewrite !set_stake_twice by (intros r0; now simpl).
      apply stake_inv_set with s; [assumption..|].
      apply (stake_inv_staked n a ts unlock s Hint Ha).
    + injection H as <- _. apply datetime_add_raises in Hadd.
      subst e. now contradiction Hr.
Qed.

Lemma attr_amount_inv a st r st' :
  attr_amount a st = (r, st') ->
  st' = st /\ (r = Raise AttributeError \/ exists n, r = Ok n /\ amount a = Some n).
Proof.
  unfold attr_amount. destruct (amount a) as [n|]; intros [= <- <-]; eauto.
Qed.

Lemma dispatch_event_inv ev ts st r st' :
  amount_positive_when_staked ev ->
  dispatch_event sch w self_chain (event ev) (args ev) ts st = (r, st') ->
  r <> Raise OverflowError ->
  kept st st'.
Proof.
  intros Hev H Hr Hall. unfold dispatch_event in H.
  unfold amount_positive_when_staked in Hev.
  destruct (String.eqb (event ev) "Staked") eqn:E1.
  { apply String.eqb_eq in E1.
    apply bind_inv in H as [(n & st1 & Ha & H)|(e & Ha & _)];
      apply attr_amount_inv in Ha as [-> Ha]; [|exact Hall].
    destruct Ha as [|(n' & [= <-] & Hn)]; [discriminate|].
    rewrite Hn in Hev. destruct Hev as [_ Hev].
    eapply handle_stake_inv; eauto. }
  destruct (String.eqb (event ev) "Withdrawn") eqn:E2.
  { apply bind_inv in H as [(n & st1 & Ha & H)|(e & Ha & _)];
      apply attr_amount_inv in Ha as [-> Ha]; [|exact Hall].
    destruct Ha as [|(n' & [= <-] & Hn)]; [discriminate|].
    rewrite Hn in Hev. destruct Hev as [Hev _].
    eapply handle_withdraw_inv; eauto. }
  destruct (String.eqb (event ev) "EmergencyWithdrawn") eqn:E3.
  { apply bind_inv in H as [(n & st1 & Ha & H)|(e & Ha & _)];
      apply attr_amount_inv in Ha as [-> Ha]; [|exact Hall].
    eapply handle_emergency_withdraw_inv; eauto. }
  destruct (String.eqb (event ev) "RewardClaimed") eqn:E4.
  { eapply handle_reward_claimed_inv; eauto. }
  now injection H as _ <-.
Qed.

End InvariantFacts.

(** C8, as the code has it.  Processing an event (Staked, Withdrawn,
    EmergencyWithdrawn, RewardClaimed, or any other name) whose amount, when
    it has one, is not negative and, on a Staked event, is positive, keeps
    the invariant of every Stake row, unless the processing stops with
    OverflowError: if before the event every row has a non-negative staked
    amount and is active exactly when that amount is positive, the same
    holds after it, whether the processing returns or raises another
    exception. *)
Theorem process_event_keeps_stake_inv sch w self_chain ev st r st' :
  amount_positive_when_staked ev ->
  Forall stake_inv (stakes (pending (sess st))) ->
  _process_event sch w self_chain ev st = (r, st') ->
  r <> Raise OverflowError ->
  Forall stake_inv (stakes (pending (sess st'))).
Proof.
  intros Hev Hall H Hr.
  destruct (event_timestamp_total w (blockNumber ev) st) as (ts & n & Hts).
  rewrite (process_event_unfold sch w self_chain ev st ts n Hts) in H.
  eapply dispatch_event_inv in H; eauto.
Qed.

(** C8 fails as stated: a Staked event of amount 0 on a zeroed, inactive row
    (which satisfies the invariant) leaves the row active with staked
    amount 0. *)
Lemma staked_zero_breaks_stake_inv :
  Forall stake_inv (stakes (db_of [stake_of "0" false]))
  /\ exists st',
      _process_event plain_schema (calm_world 100 []) "sepolia"
                     (staked 0 5 0) (fresh (db_of [stake_of "0" false]))
      = (Ok tt, st')
      /\ stakes (pending (sess st'))
         = [Stake.mk "sepolia" 1 "0xaa" "0" "3" 1600000060 1600003660 true]
      /\ ~ Forall stake_inv (stakes (pending (sess st'))).
Proof.
  split.
  - repeat constructor. exists 0. simpl. repeat split; try lia; discriminate.
  - eexists. split; [vm_compute; reflexivity|]. split; [reflexivity|].
    intros H. inversion H as [|x l (n & Hn & _ & Hact) _]; subst.
    simpl in Hn. injection Hn as <-.
    assert (0 < 0) by now apply Hact. lia.
Qed.

Lemma process_event_keeps_stake_inv_witness :
  exists st',
    _process_event plain_schema (calm_world 100 []) "sepolia"
                   (withdrawn 9 5 0) (fresh (db_of [stake_of "7" true]))
    = (Ok tt, st')
    /\ Forall stake_inv (stakes (pending (sess st'))).
Proof.
  eexists. split; [vm_compute; reflexivity|].
  apply (process_event_keeps_stake_inv plain_schema (calm_world 100 [])
           "sepolia" (withdrawn 9 5 0) (fresh (db_of [stake_of "7" true]))
           (Ok tt)).
  - simpl. split; [lia | discriminate].
  - repeat constructor. exists 7. simpl. repeat split; lia.
  - vm_compute. reflexivity.
  - discriminate.
Defined.

(** ** Replaying Staked and Withdrawn events on one row *)

Lemma moves_amount pool_id usr ev :
  moves pool_id usr ev ->
  amount (args ev) = Some (amount_of ev) /\ 0 <= amount_of ev.
Proof.
  intros (_ & _ & _ & a & Ha & Hpos). unfold amount_of. now rewrite Ha.
Qed.

Lemma balance_step_nonneg pool_id usr cur ev :
  moves pool_id usr ev -> 0 <= cur -> 0 <= balance_step cur ev.
Proof.
  intros Hm Hc. apply moves_amount in Hm as [_ Ha].
  unfold balance_step. destruct (String.eqb (event ev) "Staked"); lia.
Qed.

Lemma sum_of_step pool_id usr cur ev evs :
  moves pool_id usr ev -> 0 <= cur ->
  balance_step cur ev <= cur + (sum_of "Staked" (ev :: evs) - sum_of "Staked" evs)
  /\ cur + (sum_of "Staked" (ev :: evs) - sum_of "Staked" evs)
         - (sum_of "Withdrawn" (ev :: evs) - sum_of "Withdrawn" evs)
     <= balance_step cur ev
  /\ ((event ev = "Withdrawn" -> amount_of ev <= cur) ->
      balance_step cur ev
      = cur + (sum_of "Staked" (ev :: evs) - sum_of "Staked" evs)
            - (sum_of "Withdrawn" (ev :: evs) - sum_of "Withdrawn" evs)).
Proof.
  intros Hm Hc. pose proof (moves_amount _ _ _ Hm) as [_ Ha].
  destruct Hm as ([Hn|Hn] & _); unfold balance_step; simpl; rewrite Hn;
    simpl; repeat split; try lia; intros H; try specialize (H eq_refl); lia.
Qed.

Lemma running_balance_bounds pool_id usr evs :
  Forall (moves pool_id usr) evs ->
  forall cur, 0 <= cur ->
    Z.max 0 (cur + sum_of "Staked" evs - sum_of "Withdrawn" evs)
    <= running_balance cur evs
    /\ running_balance cur evs <= cur + sum_of "Staked" evs
    /\ (covered cur evs ->
        running_balance cur evs
        = cur + sum_of "Staked" evs - sum_of "Withdrawn" evs).
Proof.
  induction 1 as [|ev evs Hm _ IH]; intros cur Hc.
  - simpl. repeat split; lia.
  - pose proof (balance_step_nonneg _ _ _ _ Hm Hc) as Hb.
    destruct (IH _ Hb) as (IH1 & IH2 & IH3).
    destruct (sum_of_step _ _ cur ev evs Hm Hc) as (S1 & S2 & S3).
    change (running_balance cur (ev :: evs))
      with (running_balance (balance_step cur ev) evs).
    repeat split; try lia.
    intros [Hcov1 Hcov2]. rewrite (IH3 Hcov2), (S3 Hcov1). lia.
Qed.

Section ReplayFacts.
Variable sch : Schema.
Variable w : World.
Variable self_chain : string.
Hypothesis Hup : db_up w.

Variable pool : option Pool.t.

(** The lookups of the handlers succeed and the row reads [n]. *)
Let ready (pool_id : Z) (usr : string) (n : Z) (st : St) : Prop :=
  (exists row,
      select_stake self_chain pool_id usr (pending (sess st)) = [row]
      /\ Py.int (Stake.staked_amount row) = Some n)
  /\ scalar_one_or_none (select_pool self_chain pool_id (pending (sess st)))
     = Ok pool.

(** The unlock time of a Staked event is in range at whatever moment the
    event is processed. *)
Let fits (ev : EventData) : Prop :=
  event ev = "Staked" ->
  forall t, unlock_fits pool (picked_timestamp w t (blockNumber ev)).

Lemma int_withdrawn_row n r :
  Py.int (Stake.staked_amount (withdrawn_row n r)) = Some (Z.max 0 n).
Proof.
  unfold withdrawn_row. destruct (n <=? 0) eqn:E.
  - apply Z.leb_le in E. rewrite Z.max_l by lia. reflexivity.
  - apply Z.leb_gt in E. rewrite Z.max_r by lia. apply int_str.
Qed.

Lemma process_move pool_id usr ev st n :
  moves pool_id usr ev ->
  fits ev ->
  ready pool_id usr n st ->
  exists st',
    _process_event sch w self_chain ev st = (Ok tt, st')
    /\ ready pool_id usr (balance_step n ev) st'.
Proof.
  intros Hm Hfits [(row & Hsel & Hint) Hpool].
  pose proof (moves_amount _ _ _ Hm) as [Hamount _].
  destruct Hm as (Hname & Hp & Hu & _).
  destruct (event_timestamp_picks w (blockNumber ev) st) as (k & Hts).
  rewrite (process_event_unfold sch w self_chain ev st _ k Hts).
  unfold dispatch_event, balance_step, attr_amount.
  rewrite Hamount, Hp, Hu.
  destruct Hname as [Hname|Hname]; rewrite Hname;
    change (String.eqb "Withdrawn" "Staked") with false;
    rewrite String.eqb_refl; cbv iota.
  - erewrite bind_ok by reflexivity.
    erewrite handle_stake_found
      with (row := row) (cur := n) (pool := pool); try apply Hup; auto.
    eexists. split; [reflexivity|]. split; [|exact Hpool].
    eexists. split.
    + simpl. rewrite select_set_stake by apply staked_row_keeps_key.
      unfold select_stake in *. simpl. rewrite Hsel. reflexivity.
    + simpl. apply int_str.
  - erewrite bind_ok by reflexivity.
    erewrite handle_withdraw_found
      with (row := row) (cur := n); try apply Hup; auto.
    eexists. split; [reflexivity|]. split; [|exact Hpool].
    eexists. split.
    + simpl. rewrite select_set_stake by apply withdrawn_row_keeps_key.
      unfold select_stake in *. simpl. rewrite Hsel. reflexivity.
    + apply int_withdrawn_row.
Qed.

Lemma process_moves pool_id usr evs :
  Forall (moves pool_id usr) evs ->
  Forall fits evs ->
  forall st n,
    ready pool_id usr n st ->
    exists st',
      for_each evs (_process_event sch w self_chain) st = (Ok tt, st')
      /\ ready pool_id usr (running_balance n evs) st'.
Proof.
  induction 1 as [|ev evs Hm _ IH]; intros Hfits st n Hr.
  - exists st. split; [reflexivity | exact Hr].
  - inversion Hfits as [|? ? Hf Hfs]; subst.
    destruct (process_move _ _ _ _ _ Hm Hf Hr) as (st1 & H1 & Hr1).
    destruct (IH Hfs _ _ Hr1) as (st2 & H2 & Hr2).
    exists st2. split; [|exact Hr2].
    simpl. erewrite bind_ok by exact H1. exact H2.
Qed.

End ReplayFacts.

(** C1, as the code has it.  Replaying any finite sequence of Staked and
    Withdrawn events of one (pool, user) pair on its Stake row, which reads
    [cur >= 0] before, succeeds when the unlock time of every Staked event
    (its event time plus the lock duration) is in the range of a datetime,
    and leaves in the row the running balance in which every withdrawal is
    floored at zero when it is applied.  That balance is at least [cur] plus
    the Staked amounts minus the Withdrawn amounts, floored at zero; it
    equals that number when no Withdrawn event exceeds the balance at its
    turn; and it never exceeds [cur] plus the sum of the Staked amounts. *)
Theorem replay_running_balance
        sch w self_chain pool_id usr evs st row cur pool :
  db_up w ->
  Forall (moves pool_id usr) evs ->
  (forall ev t,
      In ev evs -> event ev = "Staked" ->
      unlock_fits pool (picked_timestamp w t (blockNumber ev))) ->
  select_stake self_chain pool_id usr (pending (sess st)) = [row] ->
  Py.int (Stake.staked_amount row) = Some cur ->
  0 <= cur ->
  scalar_one_or_none (select_pool self_chain pool_id (pending (sess st)))
  = Ok pool ->
  exists row' st' final,
    for_each evs (_process_event sch w self_chain) st = (Ok tt, st')
    /\ select_stake self_chain pool_id usr (pending (sess st')) = [row']
    /\ Py.int (Stake.staked_amount row') = Some final
    /\ final = running_balance cur evs
    /\ Z.max 0 (cur + sum_of "Staked" evs - sum_of "Withdrawn" evs) <= final
    /\ final <= cur + sum_of "Staked" evs
    /\ (covered cur evs ->
        final = cur + sum_of "Staked" evs - sum_of "Withdrawn" evs).
Proof.
  intros Hup Hevs Hfits Hsel Hint Hcur Hpool.
  destruct (process_moves sch w self_chain Hup pool pool_id usr evs Hevs)
    with (st := st) (n := cur)
    as (st' & Hrun & (row' & Hsel' & Hint') & _).
  { apply Forall_forall. intros ev Hin Hname t. now apply Hfits. }
  { split; eauto. }
  destruct (running_balance_bounds pool_id usr evs Hevs cur Hcur)
    as (B1 & B2 & B3).
  exists row', st', (running_balance cur evs).
  repeat split; assumption.
Qed.

(** C1 fails as stated: Staked 10, Withdrawn 20, Staked 5 on a new row leave
    staked amount 5, while the Staked amounts minus the Withdrawn amounts,
    floored at zero, are 0. *)
Lemma replay_is_not_the_floored_net_sum :
  let evs := [staked 10 5 0; withdrawn 20 6 0; staked 5 7 0] in
  exists row' st',
    for_each evs (_process_event plain_schema (calm_world 100 []) "sepolia")
             (fresh (db_of []))
    = (Ok tt, st')
    /\ select_stake "sepolia" 1 "0xaa" (pending (sess st')) = [row']
    /\ Py.int (Stake.staked_amount row') = Some 5
    /\ Z.max 0 (sum_of "Staked" evs - sum_of "Withdrawn" evs) = 0.
Proof.
  eexists. eexists. vm_compute. repeat split.
Qed.

Lemma replay_running_balance_witness :
  exists row' st',
    for_each [staked 10 5 0; withdrawn 4 6 0; staked 5 7 0]
             (_process_event plain_schema (calm_world 100 []) "sepolia")
             (fresh (db_of [stake_of "7" true]))
    = (Ok tt, st')
    /\ select_stake "sepolia" 1 "0xaa" (pending (sess st')) = [row']
    /\ Py.int (Stake.staked_amount row') = Some 18.
Proof.
  destruct (replay_running_balance plain_schema (calm_world 100 []) "sepolia"
              1 "0xaa" [staked 10 5 0; withdrawn 4 6 0; staked 5 7 0]
              (fresh (db_of [stake_of "7" true])) (stake_of "7" true) 7
              (Some pool_one))
    as (row' & st' & final & H1 & H2 & H3 & H4 & _).
  - intros t. reflexivity.
  - repeat constructor; simpl; auto; eexists; (split; [reflexivity | lia]).
  - intros ev t [<-|[<-|[<-|[]]]] _; split; reflexivity.
  - reflexivity.
  - reflexivity.
  - lia.
  - reflexivity.
  - exists row', st'. subst final. repeat split; assumption.
Defined.

(** ** Atomic batches *)

Lemma db_commit_inv w st r st' :
  db_commit w st = (r, st') ->
  (r = Ok tt /\ sess st' = mkSession (pending (sess st)) (pending (sess st)))
  \/ (r = Raise (db_error w (tick st)) /\ sess st' = sess st).
Proof.
  unfold db_commit. destruct (db_ok w (tick st)); intros [= <- <-]; auto.
Qed.

Lemma db_update_inv w f st r st' :
  db_update w f st = (r, st') ->
  (r = Ok tt
   /\ sess st' = mkSession (committed (sess st)) (f (pending (sess st))))
  \/ (r = Raise (db_error w (tick st)) /\ sess st' = sess st).
Proof.
  unfold db_update. destruct (db_ok w (tick st)); intros [= <- <-]; auto.
Qed.

Section BatchFacts.
Variable sch : Schema.
Variable w : World.
Variable self_chain : string.

Lemma advance_cursor_states to_block updated db db' :
  indexer_states db' = indexer_states db ->
  indexer_states (advance_cursor self_chain to_block updated db')
  = indexer_states (advance_cursor self_chain to_block updated db).
Proof. intros H. unfold advance_cursor. simpl. now rewrite H. Qed.

(** One attempt either raises with the session rolled back, or returns with
    everything committed and the cursor rows of the chain moved to
    [to_block]. *)
Lemma attempt_cases from_block to_block st r st' :
  index_block_range_attempt sch w self_chain from_block to_block st = (r, st')
  ->
  (exists e, r = Raise e /\ sess st' = rolled_back (sess st))
  \/ (r = Ok tt
      /\ exists p updated,
          sess st' = mkSession p p
          /\ indexer_states p
             = indexer_states
                 (advance_cursor self_chain to_block updated
                    (pending (sess st)))).
Proof.
  unfold index_block_range_attempt, try_except.
  match goal with |- context [match ?m st with _ => _ end] =>
    destruct (m st) as [[[]|e] st1] eqn:E end; intros H.
  - (* the block returned *)
    injection H as <- <-. right. split; [reflexivity|].
    apply bind_inv in E as [(evs & sA & HA & E)|(e & _ & [=])].
    apply (frames_get_all_events cursor_untouched) in HA; try cursor_side.
    apply bind_inv in E as [([] & sB & HB & E)|(e & _ & [=])].
    apply (frames_for_each cursor_untouched) in HB; try cursor_side;
      [|intros ev; apply cursor_untouched_process_event].
    apply bind_inv in E as [(updated & sC & HC & E)|(e & _ & [=])].
    injection HC as <- <-.
    apply bind_inv in E as [([] & sD & HD & E)|(e & _ & [=])].
    apply db_update_inv in HD as [[_ HD]|[[=] _]].
    apply db_commit_inv in E as [[_ E]|[[=] _]].
    exists (pending (sess sD)), (utcnow w (tick sB)).
    split; [exact E|]. rewrite HD. simpl pending.
    apply advance_cursor_states.
    destruct HA as [_ HA]. destruct HB as [_ HB]. simpl. congruence.
  - (* the block raised: rollback, then the exception again *)
    left.
    assert (Hc : committed (sess st1) = committed (sess st)).
    { apply bind_inv in E as [(evs & sA & HA & E)|(e' & HA & _)];
        apply (frames_get_all_events cursor_untouched) in HA; try cursor_side;
        destruct HA as [HA _]; [|exact HA].
      apply bind_inv in E as [([] & sB & HB & E)|(e' & HB & _)];
        (apply (frames_for_each cursor_untouched) in HB; try cursor_side;
         [|intros ev; apply cursor_untouched_process_event]);
        destruct HB as [HB _]; [|congruence].
      apply bind_inv in E as [(updated & sC & HC & E)|(e' & HC & _)];
        [|discriminate].
      injection HC as <- <-.
      apply bind_inv in E as [([] & sD & HD & E)|(e' & HD & _)].
      - apply db_update_inv in HD as [[_ HD]|[[=] _]].
        apply db_commit_inv in E as [[[=] _]|[_ E]].
        rewrite E, HD. simpl. congruence.
      - apply db_update_inv in HD as [[[=] _]|[_ HD]].
        rewrite HD. simpl. congruence. }
    unfold bind, db_rollback, raise in H.
    destruct (db_ok w (tick st1)); injection H as <- <-;
      (eexists; split; [reflexivity|]);
      unfold rolled_back; simpl; now rewrite Hc.
Qed.

(** [index_block_range] either raises [RetryError] with the session rolled
    back, or returns with everything committed and the cursor rows of the
    chain moved to [to_block]. *)
Lemma index_block_range_cases from_block to_block st r st' :
  index_block_range sch w self_chain from_block to_block st = (r, st') ->
  (r = Raise RetryError /\ sess st' = rolled_back (sess st))
  \/ (r = Ok tt
      /\ exists p updated base,
          sess st' = mkSession p p
          /\ (base = pending (sess st) \/ base = committed (sess st))
          /\ indexer_states p
             = indexer_states
                 (advance_cursor self_chain to_block updated base)).
Proof.
  unfold index_block_range, retry, try_except.
  destruct (index_block_range_attempt sch w self_chain from_block to_block st)
    as [r1 s1] eqn:E1.
  apply attempt_cases in E1 as [(e1 & -> & H1)|(-> & p & u & H1 & H1')].
  2:{ intros [= <- <-]. right. split; [reflexivity|].
      exists p, u, (pending (sess st)). auto. }
  destruct (index_block_range_attempt sch w self_chain from_block to_block s1)
    as [r2 s2] eqn:E2.
  apply attempt_cases in E2 as [(e2 & -> & H2)|(-> & p & u & H2 & H2')].
  2:{ intros [= <- <-]. right. split; [reflexivity|].
      exists p, u, (committed (sess st)). rewrite H1 in H2'. auto. }
  destruct (index_block_range_attempt sch w self_chain from_block to_block s2)
    as [r3 s3] eqn:E3.
  apply attempt_cases in E3 as [(e3 & -> & H3)|(-> & p & u & H3 & H3')].
  2:{ intros [= <- <-]. right. split; [reflexivity|].
      exists p, u, (committed (sess st)). rewrite H2, H1 in H3'. auto. }
  intros [= <- <-]. left. split; [reflexivity|].
  rewrite H3, H2, H1. reflexivity.
Qed.

End BatchFacts.

(** C2. [index_block_range] is atomic.  An attempt that raises at any step
    before or at the commit leaves nothing committed and an empty pending
    view: the event log, the Stake rows and the cursor of both are those
    committed before the call; so does the whole call when its three
    attempts fail.  From a session without uncommitted changes a failed
    attempt therefore ends in the very session it started from, and the
    attempt that follows it is a run of the batch on that session: when it
    succeeds, the call as a whole ends in the state of that single run. *)
Theorem index_block_range_atomic sch w self_chain from_block to_block st :
  (forall e st1,
      index_block_range_attempt sch w self_chain from_block to_block st
      = (Raise e, st1) ->
      committed (sess st1) = committed (sess st)
      /\ pending (sess st1) = committed (sess st))
  /\ (forall e st',
         index_block_range sch w self_chain from_block to_block st
         = (Raise e, st') ->
         committed (sess st') = committed (sess st)
         /\ pending (sess st') = committed (sess st))
  /\ (forall e st1,
         clean st ->
         index_block_range_attempt sch w self_chain from_block to_block st
         = (Raise e, st1) ->
         sess st1 = sess st
         /\ forall st2,
             index_block_range_attempt sch w self_chain from_block to_block
               (mkSt (sess st) (tick st1))
             = (Ok tt, st2) ->
             index_block_range sch w self_chain from_block to_block st
             = (Ok tt, st2)).
Proof.
  split; [|split].
  - intros e st1 H.
    apply attempt_cases in H as [(e' & _ & H)|([=] & _)].
    rewrite H. now split.
  - intros e st' H.
    apply index_block_range_cases in H as [(_ & H)|([=] & _)].
    rewrite H. now split.
  - intros e st1 Hclean H.
    assert (Hs : sess st1 = sess st).
    { apply attempt_cases in H as [(e' & _ & H')|([=] & _)].
      rewrite H'. unfold rolled_back. unfold clean in Hclean.
      rewrite Hclean at 2. now destruct (sess st). }
    split; [exact Hs|].
    intros st2 H2.
    unfold index_block_range, retry, try_except. rewrite H.
    replace st1 with (mkSt (sess st) (tick st1))
      by (rewrite <- Hs; now destruct st1).
    now rewrite H2.
Qed.

Lemma index_block_range_atomic_witness :
  let w := flaky_world 9 100 [staked 10 5 0] in
  let st := fresh (db_of [stake_of "7" true]) in
  exists st2,
    index_block_range plain_schema w "sepolia" 5 7 st = (Ok tt, st2)
    /\ map Stake.staked_amount (stakes (committed (sess st2))) = ["17"]
    /\ map IndexerState.last_block_number
           (indexer_states (committed (sess st2))) = [7].
Proof.
  intros w st.
  destruct (index_block_range_atomic plain_schema w "sepolia" 5 7 st)
    as (_ & _ & H).
  destruct (H DatabaseError (mkSt (sess st) 11) eq_refl) as [_ H'].
  { vm_compute. reflexivity. }
  eexists. split.
  - apply H'.
    match goal with
    | |- ?lhs = _ =>
        let v := eval vm_compute in lhs in
        exact (eq_refl v <: lhs = v)
    end.
  - split; reflexivity.
Defined.

(** ** The cursor *)

Lemma states_le_refl l : states_le l l.
Proof. induction l; constructor; auto; lia. Qed.

Lemma states_le_trans l1 l2 l3 :
  states_le l1 l2 -> states_le l2 l3 -> states_le l1 l3.
Proof.
  intros H. revert l3. induction H as [|s s' l l' Hc Hn _ IH]; intros l3 H3.
  - constructor.
  - inversion H3 as [|? s'' ? l'' Hc' Hn' H']; subst.
    constructor; [congruence | lia | now apply IH].
Qed.

Lemma states_le_app l x : states_le l (l ++ x).
Proof. induction l; simpl; constructor; auto; lia. Qed.

Lemma states_le_advance self_chain to_block updated l :
  (forall s, In s l -> state_matches self_chain s = true ->
             IndexerState.last_block_number s <= to_block) ->
  states_le l
    (map (fun s =>
            if state_matches self_chain s
            then IndexerState.mk (IndexerState.chain s) to_block false updated
            else s) l).
Proof.
  induction l as [|s l IH]; intros H; simpl.
  - constructor.
  - constructor.
    + now destruct (state_matches self_chain s).
    + destruct (state_matches self_chain s) eqn:E; simpl; [|lia].
      apply H; [now left | exact E].
    + apply IH. intros s' Hin. apply H. now right.
Qed.

Lemma scalar_one_inv {A} (l : list A) r : scalar_one l = Ok r -> l = [r].
Proof. destruct l as [|x [|y l]]; simpl; intros [= <-]; reflexivity. Qed.

Section LoopFacts.
Variable sch : Schema.
Variable w : World.
Variable settings : Settings.
Variable self_chain : string.

Lemma cursor_untouched_sync_pool pool_id :
  frames cursor_untouched (sync_pool sch w self_chain pool_id).
Proof.
  unfold sync_pool.
  apply frames_bind; [cursor_side | | intros [info|]].
  - apply frames_get_pool_info; cursor_side.
  - apply frames_bind; [cursor_side | | intros [p|]].
    + apply frames_db_select; cursor_side.
    + apply frames_orm. intros s. now split.
    + apply frames_orm. intros s. now split.
  - apply frames_ret; cursor_side.
Qed.

(** [sync_pools] either commits a pending view with the same cursor rows, or
    raises with nothing committed and the cursor rows untouched. *)
Lemma sync_pools_cases st r st' :
  sync_pools sch w self_chain st = (r, st') ->
  (r = Ok tt
   /\ exists p,
       sess st' = mkSession p p
       /\ indexer_states p = indexer_states (pending (sess st)))
  \/ (exists e, r = Raise e /\ cursor_untouched (sess st) (sess st')).
Proof.
  unfold sync_pools. intros H.
  apply bind_inv in H as [(n & sA & HA & H)|(e & HA & ->)];
    (apply (frames_get_pool_count cursor_untouched) in HA; try cursor_side);
    [|right; exists e; split; [reflexivity | apply HA]].
  apply bind_inv in H as [([] & sB & HB & H)|(e & HB & ->)];
    (apply (frames_for_each cursor_untouched) in HB; try cursor_side;
     [|intros x; apply cursor_untouched_sync_pool]).
  2:{ right. exists e. split; [reflexivity|].
      now apply cursor_untouched_trans with (sess sA). }
  apply db_commit_inv in H as [[-> H]|[-> H]].
  - left. split; [reflexivity|]. exists (pending (sess sB)).
    split; [exact H|]. destruct HA, HB. congruence.
  - right. eexists. split; [reflexivity|].
    rewrite H. now apply cursor_untouched_trans with (sess sA).
Qed.

Lemma next_batch_inv current_block last_block from_block to_block :
  next_batch settings current_block last_block = Some (from_block, to_block) ->
  last_block < current_block
  /\ from_block = last_block + 1
  /\ to_block = Z.min (current_block - 1)
                      (last_block + INDEXER_BATCH_SIZE settings).
Proof.
  unfold next_batch. destruct (current_block >? last_block) eqn:E;
    intros [= <- <-].
  apply Z.gtb_lt in E. auto.
Qed.

(** The [if current_block > last_block:] block of a pass: afterwards the
    pending cursor rows are again the committed ones, which are those from
    before or those that the batch moved. *)
Lemma batch_cases cur last st r st' :
  cursor_clean st ->
  match next_batch settings cur last with
  | Some (from_block, to_block) =>
      sync_pools sch w self_chain ;;;
      index_block_range sch w self_chain from_block to_block
  | None => ret tt
  end st = (r, st') ->
  cursor_clean st'
  /\ (indexer_states (committed (sess st'))
      = indexer_states (committed (sess st))
      \/ (last < cur
          /\ exists updated,
              indexer_states (committed (sess st'))
              = indexer_states
                  (advance_cursor self_chain
                     (Z.min (cur - 1) (last + INDEXER_BATCH_SIZE settings))
                     updated (committed (sess st))))).
Proof.
  intros Hclean H. unfold cursor_clean in *.
  destruct (next_batch settings cur last) as [[from_block to_block]|] eqn:Hnb;
    [|injection H as _ <-; auto].
  apply next_batch_inv in Hnb as (Hlt & -> & ->).
  apply bind_inv in H as [([] & sD & HD & H)|(e & HD & _)].
  - apply sync_pools_cases in HD as [(_ & p & HD & HD')|(e & [=] & _)].
    apply index_block_range_cases in H
      as [(_ & H)|(_ & p' & u & base & H & Hbase & H')].
    + rewrite H, HD. unfold rolled_back. simpl.
      split; [reflexivity|]. left. congruence.
    + rewrite H. simpl. split; [reflexivity|].
      right. split; [exact Hlt|]. exists u.
      rewrite H'. apply advance_cursor_states.
      rewrite HD in Hbase. simpl in Hbase.
      destruct Hbase as [->| ->]; congruence.
  - apply sync_pools_cases in HD as [([=] & _)|(e' & _ & HD1 & HD2)].
    rewrite HD1, HD2. auto.
Qed.

(** One pass of the loop, whether it returns or raises (which it does only
    when the rollback of its handler fails): the pending cursor rows are the
    committed ones afterwards, and the committed cursor rows are those from
    before or those that the batch of the pass moved. *)
Lemma run_iteration_cases st r st' :
  cursor_clean st ->
  run_iteration sch w settings self_chain st = (r, st') ->
  cursor_clean st' /\ pass_effect w settings self_chain st st'.
Proof.
  intros Hclean. unfold run_iteration, try_except.
  destruct (run_body sch w settings self_chain st) as [rb st1] eqn:E.
  assert (Hbody : cursor_clean st1 /\ pass_effect w settings self_chain st st1).
  { unfold run_body in E. apply bind_inv in E as [(state & sA & HA & E)|(e & HA & _)];
      apply db_select_inv in HA as [-> HA];
      [|split; [exact Hclean | now left]].
    apply bind_inv in E as [(cur & sB & HB & E)|(e & HB & _)];
      unfold get_block_number, rpc in HB; injection HB as HB <-;
      [|split; [exact Hclean | now left]].
    simpl in HB.
    destruct HA as [HA|[=]]. symmetry in HA. apply scalar_one_inv in HA.
    assert (Hbatch : forall rc sC,
               match next_batch settings cur
                       (IndexerState.last_block_number state) with
               | Some (from_block, to_block) =>
                   sync_pools sch w self_chain ;;;
                   index_block_range sch w self_chain from_block to_block
               | None => ret tt
               end (next (next st)) = (rc, sC) ->
               cursor_clean sC /\ pass_effect w settings self_chain st sC).
    { intros rc sC HC.
      apply batch_cases in HC as [Hc [HC|(Hlt & u & HC)]];
        [| |exact Hclean]; (split; [exact Hc|]).
      - now left.
      - right. exists state, cur, u. auto. }
    apply bind_inv in E as [([] & sC & HC & E)|(e & HC & _)].
    - apply Hbatch in HC as [Hc He].
      unfold wait_for_stop in E. injection E as _ <-. now split.
    - now apply Hbatch in HC. }
  destruct Hbody as [Hc He].
  destruct rb as [[]|e]; [now intros [= _ <-]|].
  unfold run_except.
  assert (Hroll : forall r0 s0,
             (db_rollback w ;;; suspend) st1 = (r0, s0) ->
             cursor_clean s0 /\ pass_effect w settings self_chain st s0).
  { intros r0 s0 H. unfold bind, db_rollback, suspend in H.
    assert (Hs : sess s0 = rolled_back (sess st1))
      by (destruct (db_ok w (tick st1)); now injection H as _ <-).
    unfold cursor_clean, pass_effect in *. rewrite Hs. simpl. auto. }
  destruct e; intros H; try (now apply Hroll in H).
  injection H as _ <-. now split.
Qed.

Lemma pass_effect_le st st' :
  0 <= INDEXER_BATCH_SIZE settings ->
  cursor_clean st ->
  pass_effect w settings self_chain st st' ->
  states_le (indexer_states (committed (sess st)))
            (indexer_states (committed (sess st'))).
Proof.
  intros Hb Hclean [->|(state & cur & u & Hsel & _ & Hlt & ->)].
  - apply states_le_refl.
  - unfold advance_cursor. simpl. apply states_le_advance.
    intros s Hin Hm.
    assert (Hin' : In s (select_state self_chain (committed (sess st))))
      by (apply filter_In; now split).
    unfold select_state in Hin', Hsel. unfold cursor_clean in Hclean.
    rewrite Hclean, Hsel in Hin'.
    destruct Hin' as [<-|[]]. lia.
Qed.

Lemma initialize_cases st r st' :
  cursor_clean st ->
  initialize sch w settings self_chain st = (r, st') ->
  states_le (indexer_states (committed (sess st)))
            (indexer_states (committed (sess st')))
  /\ (r = Ok tt -> cursor_clean st').
Proof.
  intros Hclean H. unfold initialize in H.
  apply bind_inv in H as [(o & sA & HA & H)|(e & HA & ->)];
    apply db_select_inv in HA as [-> _];
    [|split; [apply states_le_refl | discriminate]].
  destruct o as [state|].
  - injection H as _ <-. split; [apply states_le_refl | now intros _].
  - apply bind_inv in H as [([] & sB & HB & H)|(e & [=] & _)].
    injection HB as <-.
    apply db_commit_inv in H as [[-> H]|[-> H]].
    + split.
      * rewrite H. simpl. unfold cursor_clean in Hclean. rewrite Hclean.
        apply states_le_app.
      * intros _. unfold cursor_clean. rewrite H. reflexivity.
    + split; [rewrite H; simpl; apply states_le_refl | discriminate].
Qed.

Lemma run_loop_le n :
  0 <= INDEXER_BATCH_SIZE settings ->
  forall st r st',
    cursor_clean st ->
    run_loop sch w settings self_chain n st = (r, st') ->
    states_le (indexer_states (committed (sess st)))
              (indexer_states (committed (sess st'))).
Proof.
  intros Hb. induction n as [|n IH]; intros st r st' Hclean H; simpl in H.
  - injection H as _ <-. apply states_le_refl.
  - destruct (stop_is_set w (tick st)).
    + injection H as _ <-. apply states_le_refl.
    + apply bind_inv in H as [([] & sA & HA & H)|(e & HA & _)];
        apply run_iteration_cases in HA as (Hc & He);
        try exact Hclean; [|now apply pass_effect_le].
      eapply states_le_trans;
        [apply pass_effect_le; eassumption | eapply IH; eassumption].
Qed.

End LoopFacts.

(** C9, as the code has it.  With a batch size that is not negative and a
    session whose pending cursor rows are the committed ones (as they are
    in a new session, and again after every step below), no step of the
    engine lowers the last-processed block of a committed IndexerState row:
    not initialization, not a pass of the loop (whether its batch is
    committed, fails and is rolled back, there is nothing to index, the
    wait times out and the loop continues with uncommitted Pool changes
    left in the session, or the rollback of the handler itself raises), not
    a call of [index_block_range] that fails, and not any number of passes
    of [run]. *)
Theorem cursor_never_decreases sch w settings self_chain :
  0 <= INDEXER_BATCH_SIZE settings ->
  (forall st r st',
      cursor_clean st ->
      initialize sch w settings self_chain st = (r, st') ->
      (r = Ok tt -> cursor_clean st')
      /\ states_le (indexer_states (committed (sess st)))
                   (indexer_states (committed (sess st'))))
  /\ (forall st r st',
         cursor_clean st ->
         run_iteration sch w settings self_chain st = (r, st') ->
         cursor_clean st'
         /\ states_le (indexer_states (committed (sess st)))
                      (indexer_states (committed (sess st'))))
  /\ (forall from_block to_block st e st',
         index_block_range sch w self_chain from_block to_block st
         = (Raise e, st') ->
         indexer_states (committed (sess st'))
         = indexer_states (committed (sess st)))
  /\ (forall n st r st',
         cursor_clean st ->
         run sch w settings self_chain n st = (r, st') ->
         states_le (indexer_states (committed (sess st)))
                   (indexer_states (committed (sess st')))).
Proof.
  intros Hb. split; [|split; [|split]].
  - intros st r st' Hclean H.
    apply initialize_cases in H as [Hle Hc]; auto.
  - intros st r st' Hclean H.
    apply run_iteration_cases in H as (Hc & He); [|exact Hclean].
    split; [exact Hc | now apply (pass_effect_le w settings self_chain)].
  - intros from_block to_block st e st' H.
    apply index_block_range_cases in H as [(_ & H)|([=] & _)].
    now rewrite H.
  - intros n st r st' Hclean H. unfold run in H.
    apply bind_inv in H as [([] & sA & HA & H)|(e & HA & _)];
      apply initialize_cases in HA as [Hle Hc]; try exact Hclean;
      [|exact Hle].
    eapply states_le_trans; [exact Hle|].
    eapply run_loop_le; eauto.
Qed.

(** C9 fails as stated: with a negative batch size a committed batch moves
    the cursor from 100 back to 90. *)
Lemma negative_batch_size_lowers_cursor :
  exists st',
    run_iteration plain_schema (calm_world 250 []) (settings_of (-10))
                  "sepolia" (fresh (db_of []))
    = (Ok tt, st')
    /\ map IndexerState.last_block_number
           (indexer_states (committed (sess (fresh (db_of []))))) = [100]
    /\ map IndexerState.last_block_number
           (indexer_states (committed (sess st'))) = [90].
Proof. eexists. vm_compute. repeat split. Qed.

Lemma cursor_never_decreases_witness :
  exists st',
    run plain_schema (calm_world 250 []) (settings_of 50) "sepolia" 3
        (fresh (db_of []))
    = (Ok tt, st')
    /\ states_le (indexer_states (committed (sess (fresh (db_of [])))))
                 (indexer_states (committed (sess st')))
    /\ map IndexerState.last_block_number
           (indexer_states (committed (sess st'))) = [249].
Proof.
  eexists. split; [vm_compute; reflexivity|]. split; [|reflexivity].
  destruct (cursor_never_decreases plain_schema (calm_world 250 [])
              (settings_of 50) "sepolia") as (_ & _ & _ & H).
  - simpl. lia.
  - apply (H 3%nat (fresh (db_of [])) (Ok tt)); [reflexivity|].
    vm_compute. reflexivity.
Defined.

(** ** The batch of one pass *)




(* ================================================================== *)
(** * Further properties of the engine *)

(** ** The remaining balance rules *)

(** X1. An EmergencyWithdrawn event applied to the Stake row that the
    lookup finds rewrites that row only, to staked amount "0", pending
    rewards "0" and active false, whatever the row held before (its amount
    column is not even read) and whatever amount the event carries; the two
    times of the row stay. *)
Theorem handle_emergency_withdraw_rule
        w self_chain pool_id user amount st row :
  db_ok w (tick st) = true ->
  select_stake self_chain pool_id user (pending (sess st)) = [row] ->
  exists row',
    _handle_emergency_withdraw w self_chain pool_id user amount st
    = (Ok tt, after 1 (set_stake self_chain pool_id user (fun _ => row')) st)
    /\ select_stake self_chain pool_id user
         (set_stake self_chain pool_id user (fun _ => row')
            (pending (sess st))) = [row']
    /\ Stake.staked_amount row' = "0"
    /\ Stake.pending_rewards row' = "0"
    /\ Stake.is_active row' = false
    /\ Stake.last_stake_time row' = Stake.last_stake_time row
    /\ Stake.unlock_time row' = Stake.unlock_time row.
Proof.
  intros Hdb Hsel. exists (emergency_row row).
  split.
  - unfold _handle_emergency_withdraw.
    erewrite bind_ok
      by (rewrite db_select_up by assumption; rewrite Hsel; reflexivity).
    cbv beta iota. unfold orm, after.
    now rewrite (set_stake_single _ _ _ _ _ row Hsel).
  - split; [|now repeat split].
    rewrite <- (set_stake_single _ _ _ emergency_row _ row Hsel).
    rewrite select_set_stake by apply emergency_row_keeps_key.
    now rewrite Hsel.
Qed.

Lemma handle_emergency_withdraw_rule_witness :
  exists row',
    _handle_emergency_withdraw (calm_world 100 []) "sepolia" 1 "0xaa" 3
      (fresh (db_of [stake_of "not a number" true]))
    = (Ok tt,
       after 1 (set_stake "sepolia" 1 "0xaa" (fun _ => row'))
             (fresh (db_of [stake_of "not a number" true])))
    /\ Stake.staked_amount row' = "0"
    /\ Stake.is_active row' = false.
Proof.
  destruct (handle_emergency_withdraw_rule (calm_world 100 []) "sepolia" 1
              "0xaa" 3 (fresh (db_of [stake_of "not a number" true]))
              (stake_of "not a number" true) eq_refl eq_refl)
    as (row' & H1 & _ & H3 & _ & H5 & _).
  exists row'. repeat split; assumption.
Defined.

(** X2. A RewardClaimed event applied to the Stake row that the lookup
    finds resets its pending rewards to "0" and changes nothing else: staked
    amount, active flag and both times of the row stay, and so does every
    other row. *)
Theorem handle_reward_claimed_rule w self_chain pool_id user st row :
  db_ok w (tick st) = true ->
  select_stake self_chain pool_id user (pending (sess st)) = [row] ->
  exists row',
    _handle_reward_claimed w self_chain pool_id user st
    = (Ok tt, after 1 (set_stake self_chain pool_id user (fun _ => row')) st)
    /\ select_stake self_chain pool_id user
         (set_stake self_chain pool_id user (fun _ => row')
            (pending (sess st))) = [row']
    /\ Stake.pending_rewards row' = "0"
    /\ Stake.staked_amount row' = Stake.staked_amount row
    /\ Stake.is_active row' = Stake.is_active row
    /\ Stake.last_stake_time row' = Stake.last_stake_time row
    /\ Stake.unlock_time row' = Stake.unlock_time row.
Proof.
  intros Hdb Hsel. exists (reward_claimed_row row).
  split.
  - unfold _handle_reward_claimed.
    erewrite bind_ok
      by (rewrite db_select_up by assumption; rewrite Hsel; reflexivity).
    cbv beta iota. unfold orm, after.
    now rewrite (set_stake_single _ _ _ _ _ row Hsel).
  - split; [|now repeat split].
    rewrite <- (set_stake_single _ _ _ reward_claimed_row _ row Hsel).
    rewrite select_set_stake by apply reward_claimed_row_keeps_key.
    now rewrite Hsel.
Qed.

Lemma handle_reward_claimed_rule_witness :
  exists row',
    _handle_reward_claimed (calm_world 100 []) "sepolia" 1 "0xaa"
      (fresh (db_of [stake_of "7" true]))
    = (Ok tt,
       after 1 (set_stake "sepolia" 1 "0xaa" (fun _ => row'))
             (fresh (db_of [stake_of "7" true])))
    /\ Stake.pending_rewards row' = "0"
    /\ Stake.staked_amount row' = "7".
Proof.
  destruct (handle_reward_claimed_rule (calm_world 100 []) "sepolia" 1
              "0xaa" (fresh (db_of [stake_of "7" true]))
              (stake_of "7" true) eq_refl eq_refl)
    as (row' & H1 & _ & H3 & H4 & _).
  exists row'. repeat split; assumption.
Defined.

(** X3. When the lookup finds no Stake row, a Withdrawn, an
    EmergencyWithdrawn and a RewardClaimed event change nothing: each
    handler returns after its one select with the session as it was. *)
Theorem handlers_skip_absent_row w self_chain pool_id user amount ts st :
  db_ok w (tick st) = true ->
  select_stake self_chain pool_id user (pending (sess st)) = [] ->
  _handle_withdraw w self_chain pool_id user amount ts st
  = (Ok tt, mkSt (sess st) (S (tick st)))
  /\ _handle_emergency_withdraw w self_chain pool_id user amount st
     = (Ok tt, mkSt (sess st) (S (tick st)))
  /\ _handle_reward_claimed w self_chain pool_id user st
     = (Ok tt, mkSt (sess st) (S (tick st))).
Proof.
  intros Hdb Hsel.
  unfold _handle_withdraw, _handle_emergency_withdraw, _handle_reward_claimed.
  repeat split;
    (erewrite bind_ok
       by (rewrite db_select_up by assumption; rewrite Hsel; reflexivity));
    reflexivity.
Qed.

Lemma handlers_skip_absent_row_witness :
  _handle_withdraw (calm_world 100 []) "sepolia" 1 "0xbb" 5 0
                   (fresh (db_of [stake_of "7" true]))
  = (Ok tt, mkSt (sess (fresh (db_of [stake_of "7" true]))) 1).
Proof.
  apply (handlers_skip_absent_row (calm_world 100 []) "sepolia" 1 "0xbb" 5 0
           (fresh (db_of [stake_of "7" true])) eq_refl eq_refl).
Defined.

(** ** The event log *)

Lemma pools_untouched_refl s : pools_untouched s s.
Proof. reflexivity. Qed.

Lemma pools_untouched_trans s1 s2 s3 :
  pools_untouched s1 s2 -> pools_untouched s2 s3 -> pools_untouched s1 s3.
Proof. unfold pools_untouched. congruence. Qed.

Lemma dispatch_unknown_event sch w self_chain name a ts st :
  known_event name = false ->
  dispatch_event sch w self_chain name a ts st = (Ok tt, st).
Proof.
  unfold known_event, dispatch_event. intros H.
  apply orb_false_iff in H as [H H4].
  apply orb_false_iff in H as [H H3].
  apply orb_false_iff in H as [H1 H2].
  now rewrite H1, H2, H3, H4.
Qed.

(** X4. Whatever the event and whatever its balance rule does (return or
    raise), [_process_event] adds exactly one row to the event log of the
    pending view, carrying the fields of the decoded log and the picked
    timestamp; it commits nothing and leaves the Pool rows and the cursor
    rows alone.  An event whose name is none of the four known ones is
    logged and changes no Stake row. *)
Theorem process_event_always_logs sch w self_chain ev st r st' :
  _process_event sch w self_chain ev st = (r, st') ->
  let record :=
    event_record self_chain ev
      (picked_timestamp w (tick st) (blockNumber ev)) in
  staking_events (pending (sess st'))
  = staking_events (pending (sess st)) ++ [record]
  /\ logged_as self_chain ev record
  /\ committed (sess st') = committed (sess st)
  /\ pools (pending (sess st')) = pools (pending (sess st))
  /\ indexer_states (pending (sess st')) = indexer_states (pending (sess st))
  /\ (known_event (event ev) = false ->
      r = Ok tt /\ stakes (pending (sess st')) = stakes (pending (sess st))).
Proof.
  intros H record.
  destruct (event_timestamp_picks w (blockNumber ev) st) as (n & Hts).
  pose proof H as H0.
  rewrite (process_event_unfold sch w self_chain ev st _ n Hts) in H.
  split.
  { apply log_untouched_dispatch in H. exact H. }
  split; [now repeat split|].
  pose proof (cursor_untouched_process_event sch w self_chain ev _ _ _ H0)
    as [Hc Hi].
  split; [exact Hc|]. split.
  { apply (frames_dispatch_event pools_untouched) in H;
      [exact H | exact pools_untouched_refl | exact pools_untouched_trans
       | reflexivity]. }
  split; [exact Hi|].
  intros Hk. rewrite dispatch_unknown_event in H by exact Hk.
  injection H as <- <-. now split.
Qed.

Lemma process_event_always_logs_witness :
  let ev := mk_event "PoolAdded" 1 "0xAA" None None 5 0 in
  let st := fresh (db_of [stake_of "7" true]) in
  exists st',
    _process_event plain_schema (calm_world 100 []) "sepolia" ev st
    = (Ok tt, st')
    /\ map StakingEvent.event_type (staking_events (pending (sess st')))
       = ["PoolAdded"]
    /\ stakes (pending (sess st')) = stakes (pending (sess st)).
Proof.
  intros ev st.
  destruct (_process_event plain_schema (calm_world 100 []) "sepolia" ev st)
    as [r st'] eqn:E.
  pose proof (process_event_always_logs plain_schema (calm_world 100 [])
                "sepolia" ev st r st' E) as H.
  cbv zeta in H. destruct H as (H1 & _ & _ & _ & _ & H6).
  destruct (H6 eq_refl) as [-> H7].
  exists st'. split; [reflexivity|]. split; [|exact H7].
  rewrite H1. reflexivity.
Defined.

Section LogFacts.
Variable sch : Schema.
Variable w : World.
Variable self_chain : string.

(** A processed sequence of events is logged row for row, in order, and
    leaves committed state, Pool rows and cursor rows alone. *)
Lemma for_each_process_logs evs :
  forall st r st',
    for_each evs (_process_event sch w self_chain) st = (r, st') ->
    committed (sess st') = committed (sess st)
    /\ pools (pending (sess st')) = pools (pending (sess st))
    /\ indexer_states (pending (sess st'))
       = indexer_states (pending (sess st))
    /\ (r = Ok tt ->
        exists rows,
          staking_events (pending (sess st'))
          = staking_events (pending (sess st)) ++ rows
          /\ Forall2 (logged_as self_chain) evs rows).
Proof.
  induction evs as [|ev evs IH]; intros st r st' H; simpl in H.
  - injection H as <- <-. repeat split.
    intros _. exists []. rewrite app_nil_r. split; [reflexivity|constructor].
  - apply bind_inv in H as [([] & s1 & H1 & H)|(e & H1 & ->)].
    + destruct (event_timestamp_picks w (blockNumber ev) st) as (n & Hts).
      pose proof H1 as H1'.
      rewrite (process_event_unfold sch w self_chain ev st _ n Hts) in H1'.
      pose proof (log_untouched_dispatch _ _ _ _ _ _ _ _ _ H1') as Hlog.
      pose proof (cursor_untouched_process_event _ _ _ _ _ _ _ H1)
        as [Hc Hi].
      assert (Hp : pools (pending (sess s1)) = pools (pending (sess st))).
      { apply (frames_dispatch_event pools_untouched) in H1';
          [exact H1' | exact pools_untouched_refl
           | exact pools_untouched_trans | reflexivity]. }
      destruct (IH _ _ _ H) as (Hc' & Hp' & Hi' & Hrows).
      repeat split; try congruence.
      intros Hr. destruct (Hrows Hr) as (rows & Hrows1 & Hrows2).
      eexists (_ :: rows). split.
      * rewrite Hrows1. unfold log_untouched in Hlog. rewrite Hlog. simpl.
        rewrite <- app_assoc. reflexivity.
      * constructor; [now repeat split | exact Hrows2].
    + pose proof (cursor_untouched_process_event _ _ _ _ _ _ _ H1)
        as [Hc Hi].
      destruct (event_timestamp_picks w (blockNumber ev) st) as (n & Hts).
      rewrite (process_event_unfold sch w self_chain ev st _ n Hts) in H1.
      apply (frames_dispatch_event pools_untouched) in H1;
        [| exact pools_untouched_refl | exact pools_untouched_trans
         | reflexivity].
      repeat split; try assumption. discriminate.
Qed.

(** What a returning attempt did, statement by statement. *)
Lemma attempt_ok_inv from_block to_block st st' :
  index_block_range_attempt sch w self_chain from_block to_block st
  = (Ok tt, st') ->
  exists evs sA sB,
    get_all_events w from_block to_block st = (Ok evs, sA)
    /\ for_each evs (_process_event sch w self_chain) sA = (Ok tt, sB)
    /\ sess st'
       = (let p := advance_cursor self_chain to_block (utcnow w (tick sB))
                     (pending (sess sB)) in
          mkSession p p).
Proof.
  unfold index_block_range_attempt, try_except.
  match goal with |- context [match ?m st with _ => _ end] =>
    destruct (m st) as [[[]|e] st1] eqn:E end; intros H.
  - injection H as <-.
    apply bind_inv in E as [(evs & sA & HA & E)|(e & _ & [=])].
    apply bind_inv in E as [([] & sB & HB & E)|(e & _ & [=])].
    apply bind_inv in E as [(updated & sC & HC & E)|(e & _ & [=])].
    injection HC as <- <-.
    apply bind_inv in E as [([] & sD & HD & E)|(e & _ & [=])].
    apply db_update_inv in HD as [[_ HD]|[[=] _]].
    apply db_commit_inv in E as [[_ E]|[[=] _]].
    exists evs, sA, sB. repeat split; try assumption.
    rewrite E, HD. reflexivity.
  - unfold bind, db_rollback, raise in H.
    destruct (db_ok w (tick st1)); discriminate.
Qed.

(** The successful attempt of a call on a session without uncommitted
    changes started from that very session. *)
Lemma index_block_range_ok_inv from_block to_block st st' :
  clean st ->
  index_block_range sch w self_chain from_block to_block st = (Ok tt, st') ->
  exists t,
    index_block_range_attempt sch w self_chain from_block to_block
      (mkSt (sess st) t)
    = (Ok tt, st').
Proof.
  intros Hclean.
  assert (Hrb : rolled_back (sess st) = sess st).
  { unfold rolled_back. unfold clean in Hclean. rewrite Hclean at 2.
    now destruct (sess st). }
  unfold index_block_range, retry, try_except.
  destruct (index_block_range_attempt sch w self_chain from_block to_block st)
    as [[[]|e1] s1] eqn:E1.
  { intros [= <-]. exists (tick st). now destruct st. }
  apply attempt_cases in E1 as [(e & _ & H1)|([=] & _)].
  destruct (index_block_range_attempt sch w self_chain from_block to_block s1)
    as [[[]|e2] s2] eqn:E2.
  { intros [= <-]. exists (tick s1). rewrite <- Hrb, <- H1. now destruct s1. }
  apply attempt_cases in E2 as [(e' & _ & H2)|([=] & _)].
  destruct (index_block_range_attempt sch w self_chain from_block to_block s2)
    as [[[]|e3] s3] eqn:E3.
  { intros [= <-]. exists (tick s2).
    assert (Hs2 : sess s2 = sess st).
    { rewrite H2, H1. unfold rolled_back. simpl. exact Hrb. }
    rewrite <- Hs2. now destruct s2. }
  discriminate.
Qed.

End LogFacts.

(** X5. A call of [index_block_range] that returns, on a session without
    uncommitted changes, has committed everything: the event log grew by
    exactly one row per event of the sorted sequence that the successful
    attempt fetched, in that order; the cursor rows of the chain read
    [to_block] with the in-progress flag cleared, those of other chains are
    as before; the Pool rows are as before. *)
Theorem index_block_range_commits sch w self_chain from_block to_block st st' :
  clean st ->
  index_block_range sch w self_chain from_block to_block st = (Ok tt, st') ->
  committed (sess st') = pending (sess st')
  /\ pools (committed (sess st')) = pools (committed (sess st))
  /\ exists t evs sA rows updated,
      get_all_events w from_block to_block (mkSt (sess st) t) = (Ok evs, sA)
      /\ staking_events (committed (sess st'))
         = staking_events (committed (sess st)) ++ rows
      /\ Forall2 (logged_as self_chain) evs rows
      /\ indexer_states (committed (sess st'))
         = moved_cursor self_chain to_block updated
             (indexer_states (committed (sess st))).
Proof.
  intros Hclean H.
  apply index_block_range_ok_inv in H as (t & H); [|exact Hclean].
  apply attempt_ok_inv in H as (evs & sA & sB & HA & HB & Hs).
  pose proof HA as HA'. rewrite get_all_events_eq in HA'.
  injection HA' as _ HsA.
  apply for_each_process_logs in HB as (Hc & Hp & Hi & Hrows).
  destruct (Hrows eq_refl) as (rows & Hr1 & Hr2).
  rewrite <- HsA in Hc, Hp, Hi, Hr1. simpl in Hc, Hp, Hi, Hr1.
  unfold clean in Hclean.
  rewrite Hs. simpl. split; [reflexivity|].
  split; [now rewrite Hp, Hclean|].
  exists t, evs, sA, rows, (utcnow w (tick sB)).
  split; [exact HA|]. split; [now rewrite Hr1, Hclean|].
  split; [exact Hr2|].
  unfold moved_cursor. rewrite Hi, Hclean. reflexivity.
Qed.

Lemma index_block_range_commits_witness :
  let w := calm_world 100 [staked 10 5 1; withdrawn 4 5 0] in
  let st := fresh (db_of [stake_of "7" true]) in
  exists st',
    index_block_range plain_schema w "sepolia" 5 7 st = (Ok tt, st')
    /\ committed (sess st') = pending (sess st')
    /\ pools (committed (sess st')) = pools (committed (sess st)).
Proof.
  intros w st.
  destruct (index_block_range plain_schema w "sepolia" 5 7 st)
    as [r st'] eqn:E.
  assert (Hr : r = Ok tt).
  { apply (f_equal fst) in E. simpl in E. rewrite <- E.
    vm_compute. reflexivity. }
  subst r. exists st'. split; [reflexivity|].
  destruct (index_block_range_commits plain_schema w "sepolia" 5 7 st st'
              eq_refl E) as (H1 & H2 & _).
  now split.
Defined.

(** X6. The only exception that leaves [index_block_range] is
    [RetryError]; it is raised when three attempts in a row failed, each
    rolled back, and leaves the session rolled back.  An attempt that
    returns ends the call at once. *)
Theorem index_block_range_retries sch w self_chain from_block to_block st :
  (forall e st',
      index_block_range sch w self_chain from_block to_block st
      = (Raise e, st') ->
      e = RetryError
      /\ sess st' = rolled_back (sess st)
      /\ exists e1 s1 e2 s2 e3,
          index_block_range_attempt sch w self_chain from_block to_block st
          = (Raise e1, s1)
          /\ index_block_range_attempt sch w self_chain from_block to_block s1
             = (Raise e2, s2)
          /\ index_block_range_attempt sch w self_chain from_block to_block s2
             = (Raise e3, st'))
  /\ (forall st',
         index_block_range_attempt sch w self_chain from_block to_block st
         = (Ok tt, st') ->
         index_block_range sch w self_chain from_block to_block st
         = (Ok tt, st')).
Proof.
  split.
  - intros e st' H.
    pose proof (index_block_range_cases _ _ _ _ _ _ _ _ H)
      as [([= ->] & Hs)|([=] & _)].
    split; [reflexivity|]. split; [exact Hs|].
    unfold index_block_range, retry, try_except in H.
    destruct (index_block_range_attempt sch w self_chain from_block to_block
                st) as [[[]|e1] s1] eqn:E1; [discriminate|].
    destruct (index_block_range_attempt sch w self_chain from_block to_block
                s1) as [[[]|e2] s2] eqn:E2; [discriminate|].
    destruct (index_block_range_attempt sch w self_chain from_block to_block
                s2) as [[[]|e3] s3] eqn:E3; [discriminate|].
    injection H as <-. exists e1, s1, e2, s2, e3. auto.
  - intros st' H. unfold index_block_range, retry, try_except.
    now rewrite H.
Qed.

Lemma index_block_range_retries_witness :
  let w := deaf_world 100 [] "none" in
  let dead := {| db_ok := fun _ => false;
                 db_error := db_error w;
                 utcnow := utcnow w;
                 fromtimestamp := fromtimestamp w;
                 eth_block_number := eth_block_number w;
                 eth_get_block := eth_get_block w;
                 get_logs := get_logs w;
                 call_poolCount := call_poolCount w;
                 call_getPool := call_getPool w;
                 call_getPoolAPY := call_getPoolAPY w;
                 stop_is_set := stop_is_set w |} in
  exists st',
    index_block_range plain_schema dead "sepolia" 5 7 (fresh (db_of []))
    = (Raise RetryError, st')
    /\ sess st' = sess (fresh (db_of [])).
Proof.
  intros w dead.
  destruct (index_block_range plain_schema dead "sepolia" 5 7
              (fresh (db_of []))) as [r st'] eqn:E.
  assert (Hr : exists e, r = Raise e).
  { apply (f_equal fst) in E. simpl in E. rewrite <- E.
    exists RetryError. vm_compute. reflexivity. }
  destruct Hr as [e ->].
  destruct (index_block_range_retries plain_schema dead "sepolia" 5 7
              (fresh (db_of []))) as [H _].
  destruct (H e st' E) as (-> & Hs & _).
  exists st'. split; [reflexivity | exact Hs].
Defined.

(** ** The loop and its start *)

Section RunFacts.
Variable sch : Schema.
Variable w : World.
Variable settings : Settings.
Variable self_chain : string.

(** A pass raises only out of the rollback of its handler. *)
Lemma run_iteration_raises st e st' :
  run_iteration sch w settings self_chain st = (Raise e, st') ->
  exists e0 st1,
    run_body sch w settings self_chain st = (Raise e0, st1)
    /\ e0 <> TimeoutError
    /\ db_ok w (tick st1) = false
    /\ e = db_error w (tick st1)
    /\ st' = mkSt (rolled_back (sess st1)) (S (tick st1)).
Proof.
  unfold run_iteration, try_except.
  destruct (run_body sch w settings self_chain st) as [[[]|e0] st1];
    [discriminate|].
  intros H. exists e0, st1. split; [reflexivity|].
  unfold run_except, bind, db_rollback, suspend in H.
  destruct e0; try discriminate;
    (destruct (db_ok w (tick st1)); [discriminate|]);
    injection H as <- <-; repeat split; discriminate.
Qed.

Lemma run_loop_raises n :
  forall st e st',
    run_loop sch w settings self_chain n st = (Raise e, st') ->
    exists s, run_iteration sch w settings self_chain s = (Raise e, st').
Proof.
  induction n as [|n IH]; intros st e st' H; simpl in H; [discriminate|].
  destruct (stop_is_set w (tick st)); [discriminate|].
  apply bind_inv in H as [([] & s1 & _ & H)|(e' & H & [= ->])].
  - eapply IH, H.
  - now exists st.
Qed.

End RunFacts.

(** X7. The two [except] clauses of the loop of [run].  A pass whose
    [try] block returns, returns in the state the block left.  A pass whose
    block raises TimeoutError (the wait for the stop signal timing out, or a
    TimeoutError of any statement before it) returns in the state the block
    left: no rollback, no cooldown, so uncommitted changes stay in the
    session.  A pass whose block raises anything else rolls the session
    back and, when the rollback succeeds, returns after the cooldown; when
    the rollback raises, its exception leaves the pass.  So a pass raises
    only out of a failed rollback, [run] raises only when [initialize] or
    such a pass does, and when the stop signal is set the loop returns
    without starting a pass. *)
Theorem run_survives_faults sch w settings self_chain :
  (forall st st1,
      run_body sch w settings self_chain st = (Ok tt, st1) ->
      run_iteration sch w settings self_chain st = (Ok tt, st1))
  /\ (forall st st1,
         run_body sch w settings self_chain st = (Raise TimeoutError, st1) ->
         run_iteration sch w settings self_chain st = (Ok tt, st1))
  /\ (forall st e st1,
         run_body sch w settings self_chain st = (Raise e, st1) ->
         e <> TimeoutError ->
         run_iteration sch w settings self_chain st
         = if db_ok w (tick st1)
           then (Ok tt, mkSt (rolled_back (sess st1)) (2 + tick st1))
           else (Raise (db_error w (tick st1)),
                 mkSt (rolled_back (sess st1)) (1 + tick st1)))
  /\ (forall st e st',
         run_iteration sch w settings self_chain st = (Raise e, st') ->
         exists e0 st1,
           run_body sch w settings self_chain st = (Raise e0, st1)
           /\ e0 <> TimeoutError
           /\ db_ok w (tick st1) = false
           /\ e = db_error w (tick st1)
           /\ st' = mkSt (rolled_back (sess st1)) (S (tick st1)))
  /\ (forall n st e st',
         run sch w settings self_chain n st = (Raise e, st') ->
         initialize sch w settings self_chain st = (Raise e, st')
         \/ exists s,
             run_iteration sch w settings self_chain s = (Raise e, st'))
  /\ (forall n st,
         stop_is_set w (tick st) = true ->
         run_loop sch w settings self_chain (S n) st = (Ok tt, st)).
Proof.
  split; [|split; [|split; [|split; [|split]]]].
  - intros st st1 H. unfold run_iteration, try_except. now rewrite H.
  - intros st st1 H. unfold run_iteration, try_except. now rewrite H.
  - intros st e st1 H He. unfold run_iteration, try_except. rewrite H.
    unfold run_except, bind, db_rollback, suspend, rolled_back.
    destruct e; try (now contradiction He);
      now destruct (db_ok w (tick st1)).
  - intros st e st'. apply run_iteration_raises.
  - intros n st e st' H. unfold run in H.
    apply bind_inv in H as [([] & s1 & _ & H)|(e' & H & [= ->])].
    + right. eapply run_loop_raises, H.
    + now left.
  - intros n st Hstop. simpl. now rewrite Hstop.
Qed.

Lemma run_survives_faults_witness :
  let dead := {| db_ok := fun _ => false;
                 db_error := fun _ => DatabaseError;
                 utcnow := fun _ => 0;
                 fromtimestamp := fun ts => Ok ts;
                 eth_block_number := fun _ => Raise RpcError;
                 eth_get_block := fun _ _ => Raise RpcError;
                 get_logs := fun _ _ _ _ _ => Raise RpcError;
                 call_poolCount := fun _ => Raise RpcError;
                 call_getPool := fun _ _ => Raise RpcError;
                 call_getPoolAPY := fun _ _ => Raise RpcError;
                 stop_is_set := fun _ => false |} in
  let calm := calm_world 100 [] in
  let stopped := {| db_ok := db_ok calm;
                    db_error := db_error calm;
                    utcnow := utcnow calm;
                    fromtimestamp := fromtimestamp calm;
                    eth_block_number := eth_block_number calm;
                    eth_get_block := eth_get_block calm;
                    get_logs := get_logs calm;
                    call_poolCount := call_poolCount calm;
                    call_getPool := call_getPool calm;
                    call_getPoolAPY := call_getPoolAPY calm;
                    stop_is_set := fun t => Nat.leb 3 t |} in
  run_iteration plain_schema stopped (settings_of 50) "sepolia"
                (fresh (db_of []))
  = (Ok tt, mkSt (sess (fresh (db_of []))) 3)
  /\ run_iteration plain_schema calm (settings_of 50) "sepolia"
                   (fresh (db_of []))
     = (Ok tt, mkSt (sess (fresh (db_of []))) 3)
  /\ run_iteration plain_schema dead (settings_of 50) "sepolia"
                   (fresh (db_of []))
     = (Raise DatabaseError, mkSt (sess (fresh (db_of []))) 2).
Proof.
  intros dead calm stopped.
  destruct (run_survives_faults plain_schema stopped
              (settings_of 50) "sepolia") as (H1 & _).
  destruct (run_survives_faults plain_schema calm
              (settings_of 50) "sepolia") as (_ & H2 & _).
  destruct (run_survives_faults plain_schema dead (settings_of 50) "sepolia")
    as (_ & _ & H3 & _).
  split; [|split].
  - apply H1. reflexivity.
  - apply H2. reflexivity.
  - apply (H3 (fresh (db_of [])) DatabaseError (mkSt (sess (fresh (db_of []))) 1)).
    + reflexivity.
    + discriminate.
Defined.

(** X8. [initialize] creates the cursor row of the chain only when there is
    none: with a row present it changes nothing; with none (and the storage
    engine answering) it adds one row at the configured start block and
    commits, after which another [initialize] changes nothing.  With more
    than one row for the chain it raises and changes nothing. *)
Theorem initialize_once sch w settings self_chain st :
  db_ok w (tick st) = true ->
  (forall state,
      select_state self_chain (pending (sess st)) = [state] ->
      initialize sch w settings self_chain st
      = (Ok tt, mkSt (sess st) (S (tick st))))
  /\ (select_state self_chain (pending (sess st)) = [] ->
      db_ok w (S (tick st)) = true ->
      let row := IndexerState.mk self_chain (INDEX_START_BLOCK settings)
                   (default_is_syncing sch) (default_updated_at sch) in
      let db := add_indexer_state row (pending (sess st)) in
      initialize sch w settings self_chain st
      = (Ok tt, mkSt (mkSession db db) (2 + tick st))
      /\ select_state self_chain db = [row]
      /\ (db_ok w (2 + tick st) = true ->
          initialize sch w settings self_chain
            (mkSt (mkSession db db) (2 + tick st))
          = (Ok tt, mkSt (mkSession db db) (3 + tick st))))
  /\ (forall s1 s2 l,
         select_state self_chain (pending (sess st)) = s1 :: s2 :: l ->
         initialize sch w settings self_chain st
         = (Raise MultipleResultsFound, mkSt (sess st) (S (tick st)))).
Proof.
  intros Hdb. split; [|split].
  - intros state Hsel. unfold initialize.
    erewrite bind_ok
      by (rewrite db_select_up by assumption; rewrite Hsel; reflexivity).
    reflexivity.
  - intros Hsel Hdb2 row db.
    assert (Hrow : select_state self_chain db = [row]).
    { unfold select_state, db, add_indexer_state. simpl.
      unfold select_state in Hsel. rewrite filter_app, Hsel. simpl.
      unfold state_matches. simpl. now rewrite String.eqb_refl. }
    split; [|split; [exact Hrow|]].
    + unfold initialize.
      erewrite bind_ok
        by (rewrite db_select_up by assumption; rewrite Hsel; reflexivity).
      cbv beta iota. erewrite bind_ok by reflexivity.
      unfold db_commit. simpl. rewrite Hdb2. reflexivity.
    + intros Hdb3. unfold initialize.
      erewrite bind_ok
        by (rewrite db_select_up by assumption; simpl pending;
            rewrite Hrow; reflexivity).
      reflexivity.
  - intros s1 s2 l Hsel. unfold initialize.
    unfold bind. rewrite db_select_up by assumption. now rewrite Hsel.
Qed.

Lemma initialize_once_witness :
  initialize plain_schema (calm_world 100 []) (settings_of 50) "base"
             (fresh (db_of []))
  = (Ok tt,
     mkSt (let db := add_indexer_state (IndexerState.mk "base" 0 false 0)
                       (db_of []) in
           mkSession db db) 2)
  /\ initialize plain_schema (calm_world 100 []) (settings_of 50) "sepolia"
                (fresh (db_of []))
     = (Ok tt, mkSt (sess (fresh (db_of []))) 1).
Proof.
  destruct (initialize_once plain_schema (calm_world 100 []) (settings_of 50)
              "base" (fresh (db_of [])) eq_refl) as (_ & H & _).
  destruct (H eq_refl eq_refl) as (H1 & _).
  destruct (initialize_once plain_schema (calm_world 100 []) (settings_of 50)
              "sepolia" (fresh (db_of [])) eq_refl) as (H2 & _).
  split; [exact H1|].
  exact (H2 (IndexerState.mk "sepolia" 100 true 0) eq_refl).
Defined.


(** ** Rows are never deleted *)

Lemma prefix_refl {A} (l : list A) : prefix l l.
Proof. exists []. now rewrite app_nil_r. Qed.

Lemma prefix_trans {A} (l1 l2 l3 : list A) :
  prefix l1 l2 -> prefix l2 l3 -> prefix l1 l3.
Proof. intros [x ->] [y ->]. exists (x ++ y). now rewrite app_assoc. Qed.

Lemma prefix_app {A} (l x : list A) : prefix l (l ++ x).
Proof. now exists x. Qed.

Lemma prefix_eq {A} (l l' : list A) : l' = l -> prefix l l'.
Proof. intros ->. apply prefix_refl. Qed.

Lemma extends_refl db : extends db db.
Proof. repeat split; apply prefix_refl. Qed.

Lemma extends_trans a b c : extends a b -> extends b c -> extends a c.
Proof.
  intros (A1 & A2 & A3 & A4) (B1 & B2 & B3 & B4).
  repeat split; eapply prefix_trans; eassumption.
Qed.

Lemma keeps_rows_refl s : keeps_rows s s.
Proof. intros H. split; [apply extends_refl | exact H]. Qed.

Lemma keeps_rows_trans s1 s2 s3 :
  keeps_rows s1 s2 -> keeps_rows s2 s3 -> keeps_rows s1 s3.
Proof.
  intros H12 H23 H. destruct (H12 H) as [Hc Hp].
  destruct (H23 Hp) as [Hc' Hp'].
  split; [eapply extends_trans; eassumption | exact Hp'].
Qed.

Ltac rows_side :=
  first [ exact keeps_rows_refl | exact keeps_rows_trans ].

Lemma map_if_key {A K} (P : A -> bool) (f : A -> A) (key : A -> K) l :
  (forall r, key (f r) = key r) ->
  map key (map (fun r => if P r then f r else r) l) = map key l.
Proof.
  intros H. rewrite map_map. apply map_ext. intros r.
  destruct (P r); [apply H | reflexivity].
Qed.

Lemma extends_set_stake self_chain pool_id user f db :
  keeps_key f -> extends db (set_stake self_chain pool_id user f db).
Proof.
  intros Hf. unfold set_stake. repeat split; simpl; try apply prefix_refl.
  apply prefix_eq, map_if_key. intros r. unfold stake_key.
  destruct (Hf r) as (-> & -> & ->). reflexivity.
Qed.

Lemma extends_add_stake r db : extends db (add_stake r db).
Proof.
  repeat split; simpl; try apply prefix_refl.
  rewrite map_app. apply prefix_app.
Qed.

Lemma extends_add_staking_event e db : extends db (add_staking_event e db).
Proof. repeat split; simpl; try apply prefix_refl. apply prefix_app. Qed.

Lemma extends_add_indexer_state s db : extends db (add_indexer_state s db).
Proof.
  repeat split; simpl; try apply prefix_refl.
  rewrite map_app. apply prefix_app.
Qed.

Lemma extends_advance_cursor self_chain to_block updated db :
  extends db (advance_cursor self_chain to_block updated db).
Proof.
  repeat split; simpl; try apply prefix_refl.
  apply prefix_eq. rewrite map_map. apply map_ext. intros s.
  now destruct (state_matches self_chain s).
Qed.

Lemma keeps_rows_orm (f : DB -> DB) :
  (forall db, extends db (f db)) -> frames keeps_rows (orm f).
Proof.
  intros Hf. apply frames_orm. intros s H. simpl.
  split; [apply extends_refl|].
  eapply extends_trans; [exact H | apply Hf].
Qed.

Lemma keeps_rows_db_update w (f : DB -> DB) :
  (forall db, extends db (f db)) -> frames keeps_rows (db_update w f).
Proof.
  intros Hf. apply frames_db_update; [rows_side|]. intros s H. simpl.
  split; [apply extends_refl|].
  eapply extends_trans; [exact H | apply Hf].
Qed.

Lemma keeps_rows_db_commit w : frames keeps_rows (db_commit w).
Proof.
  intros st r st' H.
  apply db_commit_inv in H as [[_ ->]|[_ ->]]; [|apply keeps_rows_refl].
  intros J. simpl. split; [exact J | apply extends_refl].
Qed.

Lemma keeps_rows_db_rollback w : frames keeps_rows (db_rollback w).
Proof.
  intros st r st' [= _ <-]. intros J. simpl.
  split; apply extends_refl.
Qed.

Section RowFacts.
Variable sch : Schema.
Variable w : World.
Variable settings : Settings.
Variable self_chain : string.

Lemma keeps_rows_set_stake pool_id user f :
  keeps_key f ->
  frames keeps_rows (orm (set_stake self_chain pool_id user f)).
Proof. intros Hf. apply keeps_rows_orm. intros db. now apply extends_set_stake. Qed.

Lemma keeps_rows_dispatch_event name a ts :
  frames keeps_rows (dispatch_event sch w self_chain name a ts).
Proof.
  unfold dispatch_event.
  destruct (String.eqb name "Staked").
  { apply frames_bind; [rows_side | apply frames_attr_amount; rows_side |].
    intros n. unfold _handle_stake.
    apply frames_bind; [rows_side | apply frames_db_select; rows_side |].
    intros stake.
    apply frames_bind; [rows_side | apply frames_db_select; rows_side |].
    intros pool.
    apply frames_bind; [rows_side | apply frames_lift; rows_side |].
    intros lock_duration. destruct stake as [s|].
    - destruct (Py.int (Stake.staked_amount s));
        [| apply frames_raise; rows_side].
      apply frames_bind; [rows_side | | intros _].
      { apply keeps_rows_set_stake, set_staked_amount_keeps_key. }
      apply frames_bind; [rows_side | | intros _].
      { apply keeps_rows_set_stake, set_last_stake_time_keeps_key. }
      apply frames_bind; [rows_side | apply frames_lift; rows_side |].
      intros unlock.
      apply frames_bind; [rows_side | | intros _].
      { apply keeps_rows_set_stake, set_unlock_time_keeps_key. }
      apply keeps_rows_set_stake, set_is_active_keeps_key.
    - apply frames_bind; [rows_side | apply frames_db_select; rows_side |].
      intros [ref|]; [|apply frames_ret; rows_side].
      destruct (ref =? 0); [apply frames_ret; rows_side|].
      apply frames_bind; [rows_side | apply frames_lift; rows_side |].
      intros unlock.
      apply keeps_rows_orm. intros db. apply extends_add_stake. }
  destruct (String.eqb name "Withdrawn").
  { apply frames_bind; [rows_side | apply frames_attr_amount; rows_side |].
    intros n. unfold _handle_withdraw.
    apply frames_bind; [rows_side | apply frames_db_select; rows_side |].
    intros [s|]; [|apply frames_ret; rows_side].
    destruct (Py.int (Stake.staked_amount s));
      [| apply frames_raise; rows_side].
    apply keeps_rows_set_stake, withdrawn_row_keeps_key. }
  destruct (String.eqb name "EmergencyWithdrawn").
  { apply frames_bind; [rows_side | apply frames_attr_amount; rows_side |].
    intros n. unfold _handle_emergency_withdraw.
    apply frames_bind; [rows_side | apply frames_db_select; rows_side |].
    intros [s|]; [|apply frames_ret; rows_side].
    apply keeps_rows_set_stake, emergency_row_keeps_key. }
  destruct (String.eqb name "RewardClaimed").
  { unfold _handle_reward_claimed.
    apply frames_bind; [rows_side | apply frames_db_select; rows_side |].
    intros [s|]; [|apply frames_ret; rows_side].
    apply keeps_rows_set_stake, reward_claimed_row_keeps_key. }
  apply frames_ret; rows_side.
Qed.

Lemma keeps_rows_process_event ev :
  frames keeps_rows (_process_event sch w self_chain ev).
Proof.
  unfold _process_event.
  apply frames_bind; [rows_side | apply frames_event_timestamp; rows_side |].
  intros ts.
  apply frames_bind; [rows_side | | intros _; apply keeps_rows_dispatch_event].
  apply keeps_rows_orm. intros db. apply extends_add_staking_event.
Qed.

Lemma keeps_rows_attempt from_block to_block :
  frames keeps_rows
    (index_block_range_attempt sch w self_chain from_block to_block).
Proof.
  unfold index_block_range_attempt.
  apply frames_try; [rows_side | |].
  - apply frames_bind;
      [rows_side | apply frames_get_all_events; rows_side | intros evs].
    apply frames_bind; [rows_side | | intros _].
    { apply frames_for_each; [rows_side | rows_side |].
      intros ev. apply keeps_rows_process_event. }
    apply frames_bind; [rows_side | apply frames_now; rows_side | intros u].
    apply frames_bind; [rows_side | | intros _; apply keeps_rows_db_commit].
    apply keeps_rows_db_update. intros db. apply extends_advance_cursor.
  - intros e.
    apply frames_bind; [rows_side | apply keeps_rows_db_rollback |].
    intros _. apply frames_raise; rows_side.
Qed.

Lemma keeps_rows_index_block_range from_block to_block :
  frames keeps_rows (index_block_range sch w self_chain from_block to_block).
Proof.
  apply frames_retry; [rows_side | rows_side | apply keeps_rows_attempt].
Qed.

Lemma keeps_rows_sync_pools : frames keeps_rows (sync_pools sch w self_chain).
Proof.
  unfold sync_pools.
  apply frames_bind;
    [rows_side | apply frames_get_pool_count; rows_side | intros n].
  apply frames_bind; [rows_side | | intros _; apply keeps_rows_db_commit].
  apply frames_for_each; [rows_side | rows_side |]. intros pool_id.
  unfold sync_pool.
  apply frames_bind;
    [rows_side | apply frames_get_pool_info; rows_side | intros [info|]];
    [|apply frames_ret; rows_side].
  apply frames_bind; [rows_side | apply frames_db_select; rows_side |].
  intros [p|]; apply keeps_rows_orm; intros db.
  - unfold set_pool. repeat split; simpl; try apply prefix_refl.
    apply prefix_eq, map_if_key. reflexivity.
  - repeat split; simpl; try apply prefix_refl.
    rewrite map_app. apply prefix_app.
Qed.

Lemma keeps_rows_initialize :
  frames keeps_rows (initialize sch w settings self_chain).
Proof.
  unfold initialize.
  apply frames_bind; [rows_side | apply frames_db_select; rows_side |].
  intros [s|]; [apply frames_ret; rows_side|].
  apply frames_bind; [rows_side | | intros _; apply keeps_rows_db_commit].
  apply keeps_rows_orm. intros db. apply extends_add_indexer_state.
Qed.

Lemma keeps_rows_run_iteration :
  frames keeps_rows (run_iteration sch w settings self_chain).
Proof.
  unfold run_iteration, run_body.
  apply frames_try; [rows_side | |].
  - apply frames_bind; [rows_side | apply frames_db_select; rows_side |].
    intros state.
    apply frames_bind; [rows_side | apply frames_rpc; rows_side |].
    intros cur.
    apply frames_bind;
      [rows_side | | intros _; apply frames_wait_for_stop; rows_side].
    destruct (next_batch settings cur (IndexerState.last_block_number state))
      as [[from_block to_block]|]; [|apply frames_ret; rows_side].
    apply frames_bind; [rows_side | apply keeps_rows_sync_pools |].
    intros _. apply keeps_rows_index_block_range.
  - intros e. unfold run_except.
    destruct e; try (apply frames_ret; rows_side);
      (apply frames_bind; [rows_side | apply keeps_rows_db_rollback |];
       intros _; apply frames_suspend; rows_side).
Qed.

Lemma keeps_rows_run_loop n :
  frames keeps_rows (run_loop sch w settings self_chain n).
Proof.
  induction n as [|n IH]; simpl.
  - apply frames_ret; rows_side.
  - intros st r st'. destruct (stop_is_set w (tick st)).
    + intros [= _ <-]. apply keeps_rows_refl.
    + revert st r st'.
      change (frames keeps_rows
                (bind (run_iteration sch w settings self_chain)
                      (fun _ => run_loop sch w settings self_chain n))).
      apply frames_bind; [rows_side | apply keeps_rows_run_iteration |].
      intros _. exact IH.
Qed.

End RowFacts.

(** X9. The engine never deletes a row.  Started on a session whose
    pending view extends its committed database (in particular one without
    uncommitted changes), a batch with its retries, a pool sync and any
    number of passes of [run] end, whether they return or raise, with a
    committed database that still has, in place, every StakingEvent row
    unchanged and every Stake row, Pool row and cursor row under the same
    identifying columns. *)
Theorem engine_never_deletes sch w settings self_chain st r st' :
  extends (committed (sess st)) (pending (sess st)) ->
  (forall from_block to_block,
      index_block_range sch w self_chain from_block to_block st = (r, st') ->
      extends (committed (sess st)) (committed (sess st')))
  /\ (sync_pools sch w self_chain st = (r, st') ->
      extends (committed (sess st)) (committed (sess st')))
  /\ (forall n,
         run sch w settings self_chain n st = (r, st') ->
         extends (committed (sess st)) (committed (sess st'))).
Proof.
  intros J. split; [|split].
  - intros from_block to_block H.
    now apply keeps_rows_index_block_range in H as [H _].
  - intros H. now apply keeps_rows_sync_pools in H as [H _].
  - intros n H. unfold run in H.
    assert (F : frames keeps_rows (run sch w settings self_chain n)).
    { unfold run. apply frames_bind;
        [rows_side | apply keeps_rows_initialize |].
      intros _. apply keeps_rows_run_loop. }
    now apply F in H as [H _].
Qed.

Lemma engine_never_deletes_witness :
  let w := calm_world 250 [staked 10 120 1; withdrawn 40 120 2] in
  let st := fresh (db_of [stake_of "7" true]) in
  extends (committed (sess st))
          (committed (sess (snd (run plain_schema w (settings_of 50)
                                     "sepolia" 2 st)))).
Proof.
  intros w st.
  destruct (run plain_schema w (settings_of 50) "sepolia" 2 st)
    as [r st'] eqn:E.
  destruct (engine_never_deletes plain_schema w (settings_of 50) "sepolia"
              st r st') as (_ & _ & H).
  - apply extends_refl.
  - exact (H 2%nat E).
Defined.

(** ** The row invariant across batches *)

(** The loop of [run] is framed by whatever frames its parts. *)
Section LoopFrames.
Variable R : Session -> Session -> Prop.
Hypothesis R_refl : forall s, R s s.
Hypothesis R_trans : forall s1 s2 s3, R s1 s2 -> R s2 s3 -> R s1 s3.
Variable sch : Schema.
Variable w : World.
Variable settings : Settings.
Variable self_chain : string.
Hypothesis R_rollback : frames R (db_rollback w).
Hypothesis R_initialize : frames R (initialize sch w settings self_chain).
Hypothesis R_sync_pools : frames R (sync_pools sch w self_chain).
Hypothesis R_attempt :
  forall from_block to_block,
    frames R (index_block_range_attempt sch w self_chain from_block to_block).

Lemma frames_run_iteration :
  frames R (run_iteration sch w settings self_chain).
Proof.
  unfold run_iteration, run_body.
  apply frames_try; [exact R_trans | |].
  - apply frames_bind; [exact R_trans | now apply frames_db_select |].
    intros state.
    apply frames_bind; [exact R_trans | now apply frames_rpc |].
    intros cur.
    apply frames_bind;
      [exact R_trans | | intros _; now apply frames_wait_for_stop].
    destruct (next_batch settings cur (IndexerState.last_block_number state))
      as [[from_block to_block]|]; [|now apply frames_ret].
    apply frames_bind; [exact R_trans | exact R_sync_pools |].
    intros _. apply frames_retry; auto.
  - intros e. unfold run_except.
    destruct e; try (now apply frames_ret);
      (apply frames_bind; [exact R_trans | exact R_rollback |];
       intros _; now apply frames_suspend).
Qed.

Lemma frames_run n : frames R (run sch w settings self_chain n).
Proof.
  unfold run. apply frames_bind; [exact R_trans | exact R_initialize |].
  intros _. induction n as [|n IH]; simpl.
  - now apply frames_ret.
  - intros st r st'. destruct (stop_is_set w (tick st)).
    + intros [= _ <-]. apply R_refl.
    + revert st r st'.
      change (frames R
                (bind (run_iteration sch w settings self_chain)
                      (fun _ => run_loop sch w settings self_chain n))).
      apply frames_bind; [exact R_trans | exact frames_run_iteration |].
      intros _. exact IH.
Qed.

End LoopFrames.

Lemma keeps_ledger_inv_refl s : keeps_ledger_inv s s.
Proof. now intros H. Qed.

Lemma keeps_ledger_inv_trans s1 s2 s3 :
  keeps_ledger_inv s1 s2 -> keeps_ledger_inv s2 s3 -> keeps_ledger_inv s1 s3.
Proof. unfold keeps_ledger_inv. auto. Qed.

Ltac inv_side :=
  first [ exact keeps_ledger_inv_refl | exact keeps_ledger_inv_trans ].

Lemma keeps_ledger_inv_commit w : frames keeps_ledger_inv (db_commit w).
Proof.
  intros st r st' H.
  apply db_commit_inv in H as [[_ ->]|[_ ->]]; [|apply keeps_ledger_inv_refl].
  intros [_ Hp]. now split.
Qed.

Lemma keeps_ledger_inv_rollback w : frames keeps_ledger_inv (db_rollback w).
Proof. intros st r st' [= _ <-]. intros [Hc _]. now split. Qed.

Lemma keeps_ledger_inv_orm (f : DB -> DB) :
  (forall db, stakes (f db) = stakes db) ->
  frames keeps_ledger_inv (orm f).
Proof.
  intros Hf. apply frames_orm. intros s [Hc Hp]. split; [exact Hc|].
  simpl. now rewrite Hf.
Qed.

Section LedgerFacts.
Variable sch : Schema.
Variable w : World.
Variable settings : Settings.
Variable self_chain : string.

(** A loop over the events that runs to its end keeps the row invariant
    of the pending view. *)
Lemma for_each_keeps_inv evs :
  Forall amount_positive_when_staked evs ->
  forall st st',
    Forall stake_inv (stakes (pending (sess st))) ->
    for_each evs (_process_event sch w self_chain) st = (Ok tt, st') ->
    Forall stake_inv (stakes (pending (sess st'))).
Proof.
  induction 1 as [|ev evs Hev _ IH]; intros st st' Hinv H; simpl in H.
  - now injection H as <-.
  - apply bind_inv in H as [([] & s1 & H1 & H)|(e & _ & [=])].
    eapply IH; [|exact H].
    destruct (event_timestamp_total w (blockNumber ev) st)
      as (ts & n & Hts).
    rewrite (process_event_unfold sch w self_chain ev st ts n Hts) in H1.
    eapply dispatch_event_inv in H1; eauto. discriminate.
Qed.

Lemma fetched_events_sane from_block to_block st evs sA :
  sane_logs w ->
  get_all_events w from_block to_block st = (Ok evs, sA) ->
  Forall amount_positive_when_staked evs /\ sess sA = sess st.
Proof.
  intros Hw H. rewrite get_all_events_eq in H. injection H as <- <-.
  split; [|reflexivity].
  assert (Hans : forall i,
             Forall amount_positive_when_staked
               (logs_or_empty (answer w (tick st) i from_block to_block))).
  { intros i. unfold answer.
    destruct (get_logs w (i + tick st) (nth i event_names "")
                from_block to_block None) as [l|e] eqn:E; simpl.
    - eapply Hw, E.
    - constructor. }
  rewrite Forall_forall. intros x Hx.
  apply (Permutation_in _ (sort_perm event_le _)) in Hx.
  repeat (apply in_app_or in Hx as [Hx|Hx];
          [eapply Forall_forall; [apply Hans | exact Hx]|]).
  eapply Forall_forall; [apply Hans | exact Hx].
Qed.

Lemma keeps_ledger_inv_attempt from_block to_block :
  sane_logs w ->
  frames keeps_ledger_inv
    (index_block_range_attempt sch w self_chain from_block to_block).
Proof.
  intros Hw st r st' H [Hc Hp]. destruct r as [[]|e].
  - apply attempt_ok_inv in H as (evs & sA & sB & HA & HB & Hs).
    apply fetched_events_sane in HA as [Hevs HsA]; [|exact Hw].
    eapply for_each_keeps_inv in HB; [|exact Hevs|now rewrite HsA].
    rewrite Hs. now split.
  - apply attempt_cases in H as [(e' & _ & H)|([=] & _)].
    rewrite H. now split.
Qed.

Lemma keeps_ledger_inv_sync_pools :
  frames keeps_ledger_inv (sync_pools sch w self_chain).
Proof.
  unfold sync_pools.
  apply frames_bind;
    [inv_side | apply frames_get_pool_count; inv_side | intros n].
  apply frames_bind; [inv_side | | intros _; apply keeps_ledger_inv_commit].
  apply frames_for_each; [inv_side | inv_side |]. intros pool_id.
  unfold sync_pool.
  apply frames_bind;
    [inv_side | apply frames_get_pool_info; inv_side | intros [info|]];
    [|apply frames_ret; inv_side].
  apply frames_bind; [inv_side | apply frames_db_select; inv_side |].
  intros [p|]; apply keeps_ledger_inv_orm; reflexivity.
Qed.

Lemma keeps_ledger_inv_initialize :
  frames keeps_ledger_inv (initialize sch w settings self_chain).
Proof.
  unfold initialize.
  apply frames_bind; [inv_side | apply frames_db_select; inv_side |].
  intros [s|]; [apply frames_ret; inv_side|].
  apply frames_bind; [inv_side | | intros _; apply keeps_ledger_inv_commit].
  apply keeps_ledger_inv_orm. reflexivity.
Qed.

End LedgerFacts.

(** X10. The row invariant survives whole batches.  When every log that the
    endpoint decodes carries a non-negative amount, positive on Staked
    events, and every Stake row (committed and pending) has a non-negative
    staked amount and is active exactly when that amount is positive, the
    same holds after [index_block_range], whether it commits or gives up
    after its retries, and the committed rows satisfy it after any number
    of passes of [run]. *)
Theorem batches_keep_stake_inv sch w settings self_chain st r st' :
  sane_logs w ->
  Forall stake_inv (stakes (committed (sess st))) ->
  Forall stake_inv (stakes (pending (sess st))) ->
  (forall from_block to_block,
      index_block_range sch w self_chain from_block to_block st = (r, st') ->
      Forall stake_inv (stakes (committed (sess st')))
      /\ Forall stake_inv (stakes (pending (sess st'))))
  /\ (forall n,
         run sch w settings self_chain n st = (r, st') ->
         Forall stake_inv (stakes (committed (sess st')))).
Proof.
  intros Hw Hc Hp. split.
  - intros from_block to_block H.
    apply (frames_retry keeps_ledger_inv keeps_ledger_inv_refl
             keeps_ledger_inv_trans 3
             (index_block_range_attempt sch w self_chain from_block to_block)
             (keeps_ledger_inv_attempt sch w self_chain from_block to_block
                Hw)) in H.
    apply H. now split.
  - intros n H.
    apply (frames_run keeps_ledger_inv keeps_ledger_inv_refl
             keeps_ledger_inv_trans sch w settings self_chain
             (keeps_ledger_inv_rollback w)
             (keeps_ledger_inv_initialize sch w settings self_chain)
             (keeps_ledger_inv_sync_pools sch w self_chain)
             (fun f t => keeps_ledger_inv_attempt sch w self_chain f t Hw))
      in H.
    apply H. now split.
Qed.

Lemma calm_world_sane head chain_logs :
  Forall amount_positive_when_staked chain_logs ->
  sane_logs (calm_world head chain_logs).
Proof.
  intros H t name from_block to_block filters l Hl.
  unfold calm_world in Hl. cbn [get_logs] in Hl. injection Hl as <-.
  apply Forall_forall. intros x Hx. apply filter_In in Hx as [Hx _].
  eapply Forall_forall; [exact H | exact Hx].
Qed.

Lemma batches_keep_stake_inv_witness :
  let w := calm_world 250 [staked 10 120 1; withdrawn 40 120 2] in
  let st := fresh (db_of [stake_of "7" true]) in
  Forall stake_inv
    (stakes (committed (sess (snd (run plain_schema w (settings_of 50)
                                       "sepolia" 2 st))))).
Proof.
  intros w st.
  destruct (run plain_schema w (settings_of 50) "sepolia" 2 st)
    as [r st'] eqn:E.
  assert (Hrow : Forall stake_inv [stake_of "7" true]).
  { repeat constructor. exists 7. simpl. repeat split; lia. }
  destruct (batches_keep_stake_inv plain_schema w (settings_of 50) "sepolia"
              st r st') as [_ H]; try exact Hrow.
  - apply calm_world_sane. repeat constructor; simpl; try lia; discriminate.
  - exact (H 2%nat E).
Defined.

(** ** Pool sync *)

Lemma only_pools_refl s : only_pools s s.
Proof. now repeat split. Qed.

Lemma only_pools_trans s1 s2 s3 :
  only_pools s1 s2 -> only_pools s2 s3 -> only_pools s1 s3.
Proof.
  intros (A1 & A2 & A3) (B1 & B2 & B3). repeat split; congruence.
Qed.

Ltac pools_side := first [ exact only_pools_refl | exact only_pools_trans ].

Lemma only_pools_sync_pool sch w self_chain pool_id :
  frames only_pools (sync_pool sch w self_chain pool_id).
Proof.
  unfold sync_pool.
  apply frames_bind;
    [pools_side | apply frames_get_pool_info; pools_side | intros [info|]];
    [|apply frames_ret; pools_side].
  apply frames_bind; [pools_side | apply frames_db_select; pools_side |].
  intros [p|]; apply frames_orm; intros s; now repeat split.
Qed.

Lemma range_nonpositive n : n <= 0 -> Py.range n = [].
Proof.
  intros H. unfold Py.range.
  replace (Z.to_nat n) with 0%nat by lia. reflexivity.
Qed.

(** X11. [sync_pools] touches Pool rows only: whether it returns or raises,
    the Stake rows, the event log and the cursor rows of the pending view
    are as before.  When it returns everything is committed; when it raises
    nothing was.  When the pool count cannot be read, or is not positive,
    the Pool rows are as before too. *)
Theorem sync_pools_touches_pools_only sch w self_chain st r st' :
  sync_pools sch w self_chain st = (r, st') ->
  only_pools (sess st) (sess st')
  /\ (r = Ok tt -> committed (sess st') = pending (sess st'))
  /\ (forall e, r = Raise e -> committed (sess st') = committed (sess st))
  /\ (match call_poolCount w (tick st) with
      | Ok n => n <= 0
      | Raise _ => True
      end ->
      pools (pending (sess st')) = pools (pending (sess st))).
Proof.
  intros H. split; [|split; [|split]].
  - revert H. unfold sync_pools.
    apply frames_bind;
      [pools_side | apply frames_get_pool_count; pools_side | intros n].
    apply frames_bind; [pools_side | | intros _].
    + apply frames_for_each; [pools_side | pools_side |].
      intros pool_id. apply only_pools_sync_pool.
    + intros s1 r1 s1' H1.
      apply db_commit_inv in H1 as [[_ ->]|[_ ->]]; now repeat split.
  - intros ->. apply sync_pools_cases in H as [(_ & p & -> & _)|(e & [=] & _)].
    reflexivity.
  - intros e ->. apply sync_pools_cases in H as [([=] & _)|(e' & _ & H)].
    apply H.
  - intros Hcount. unfold sync_pools, get_pool_count, try_except, rpc in H.
    unfold bind at 1 in H.
    destruct (call_poolCount w (tick st)) as [n|e].
    + rewrite range_nonpositive in H by exact Hcount.
      simpl in H. unfold bind, ret in H.
      apply db_commit_inv in H as [[_ ->]|[_ ->]]; reflexivity.
    + change (Py.range 0) with (@nil Z) in H.
      simpl in H. unfold bind, ret in H.
      apply db_commit_inv in H as [[_ ->]|[_ ->]]; reflexivity.
Qed.

Lemma sync_pools_touches_pools_only_witness :
  let st := fresh (db_of [stake_of "7" true]) in
  only_pools (sess st)
    (sess (snd (sync_pools plain_schema (pool_world [pool_data_one; pool_data_one])
                           "sepolia" st))).
Proof.
  intros st.
  destruct (sync_pools plain_schema (pool_world [pool_data_one; pool_data_one])
                       "sepolia" st) as [r st'] eqn:E.
  apply (sync_pools_touches_pools_only _ _ _ _ _ _ E).
Defined.

Section PoolFacts.
Variable sch : Schema.
Variable w : World.
Variable self_chain : string.

Lemma get_pool_info_ok pool_id st pd apy :
  call_getPool w (tick st) pool_id = Ok pd ->
  call_getPoolAPY w (S (tick st)) pool_id = Ok apy ->
  get_pool_info w pool_id st
  = (Ok (Some (PoolInfo.mk pool_id (pd_stakingToken pd) (pd_rewardToken pd)
                 (pd_totalStaked pd) (pd_rewardRate pd) (pd_lockDuration pd)
                 (pd_isActive pd) (pd_depositFee pd) (pd_withdrawFee pd)
                 apy)),
     mkSt (sess st) (2 + tick st)).
Proof.
  intros H1 H2. unfold get_pool_info, try_except, bind, rpc, ret. cbv beta.
  rewrite H1. simpl. now rewrite H2.
Qed.

Lemma pool_matches_eq pool_id p :
  pool_matches self_chain pool_id p = true ->
  Pool.chain p = self_chain /\ Pool.pool_id p = pool_id.
Proof.
  unfold pool_matches. intros H. apply andb_true_iff in H as [H1 H2].
  apply String.eqb_eq in H1. apply Z.eqb_eq in H2. now split.
Qed.

Lemma select_pool_single_in pool_id db p :
  select_pool self_chain pool_id db = [p] ->
  forall q, In q (pools db) -> pool_matches self_chain pool_id q = true ->
            q = p.
Proof.
  intros Hsel q Hin Hm.
  assert (H : In q (select_pool self_chain pool_id db))
    by (apply filter_In; now split).
  rewrite Hsel in H. now destruct H as [<-|[]].
Qed.

End PoolFacts.

(** X12. For a pool whose tuple and APY the chain returns, the loop body of
    [sync_pools] is an upsert.  If the lookup finds the Pool row, that row
    alone is rewritten with the chain's tokens, reward rate (as decimal
    text), lock duration, fees and active flag, keeping its primary key, and
    no row is added.  If it finds none, one row with those values is added
    under the allocated primary key.  Either way the lookup then finds
    exactly that row, and syncing a row that already holds the chain's
    values changes nothing. *)
Theorem sync_pool_upserts sch w self_chain pool_id st pd apy :
  call_getPool w (tick st) pool_id = Ok pd ->
  call_getPoolAPY w (S (tick st)) pool_id = Ok apy ->
  db_ok w (2 + tick st) = true ->
  (forall p,
      select_pool self_chain pool_id (pending (sess st)) = [p] ->
      let row := pool_row_of self_chain pool_id (Pool.id p) pd in
      let db := set_pool self_chain pool_id (fun _ => row)
                         (pending (sess st)) in
      sync_pool sch w self_chain pool_id st
      = (Ok tt, mkSt (mkSession (committed (sess st)) db) (3 + tick st))
      /\ select_pool self_chain pool_id db = [row]
      /\ length (pools db) = length (pools (pending (sess st)))
      /\ (p = row -> db = pending (sess st)))
  /\ (select_pool self_chain pool_id (pending (sess st)) = [] ->
      let row := pool_row_of self_chain pool_id
                   (next_pool_id sch (pools (pending (sess st)))) pd in
      let db := add_pool row (pending (sess st)) in
      sync_pool sch w self_chain pool_id st
      = (Ok tt, mkSt (mkSession (committed (sess st)) db) (3 + tick st))
      /\ select_pool self_chain pool_id db = [row]).
Proof.
  intros H1 H2 Hdb. split.
  - intros p Hsel row db.
    pose proof (select_pool_single_in self_chain pool_id _ p Hsel) as Huniq.
    assert (Hp : pool_matches self_chain pool_id p = true).
    { assert (Hin : In p (select_pool self_chain pool_id (pending (sess st))))
        by (rewrite Hsel; now left).
      now apply filter_In in Hin. }
    destruct (pool_matches_eq self_chain pool_id p Hp) as [Hc Hi].
    assert (Hmap :
              map (fun q =>
                     if pool_matches self_chain pool_id q
                     then Pool.mk (Pool.id q) (Pool.chain q) (Pool.pool_id q)
                            (pd_stakingToken pd) (pd_rewardToken pd)
                            (Py.str (pd_rewardRate pd)) (pd_lockDuration pd)
                            (pd_depositFee pd) (pd_withdrawFee pd)
                            (pd_isActive pd)
                     else q) (pools (pending (sess st)))
              = map (fun q => if pool_matches self_chain pool_id q
                              then row else q) (pools (pending (sess st)))).
    { apply map_ext_in. intros q Hin.
      destruct (pool_matches self_chain pool_id q) eqn:E; [|reflexivity].
      rewrite (Huniq q Hin E). unfold row, pool_row_of. now rewrite Hc, Hi. }
    split; [|split; [|split]].
    + unfold sync_pool.
      erewrite bind_ok by (apply get_pool_info_ok; eassumption).
      cbv beta iota.
      erewrite bind_ok
        by (rewrite db_select_up by assumption; simpl pending;
            rewrite Hsel; reflexivity).
      cbv beta iota. unfold orm, db, set_pool. simpl. now rewrite Hmap.
    + unfold db, select_pool, set_pool. simpl.
      rewrite filter_map_if.
      * fold (select_pool self_chain pool_id (pending (sess st))).
        now rewrite Hsel.
      * intros q _. unfold row, pool_row_of, pool_matches. simpl.
        now rewrite String.eqb_refl, Z.eqb_refl.
    + unfold db, set_pool. simpl. apply length_map.
    + intros Heq. unfold db, set_pool.
      replace (map (fun q => if pool_matches self_chain pool_id q
                             then row else q) (pools (pending (sess st))))
        with (pools (pending (sess st))).
      * now destruct (pending (sess st)).
      * rewrite <- (map_id (pools (pending (sess st)))) at 1.
        apply map_ext_in. intros q Hin.
        destruct (pool_matches self_chain pool_id q) eqn:E; [|reflexivity].
        rewrite (Huniq q Hin E). exact Heq.
  - intros Hsel row db. split.
    + unfold sync_pool.
      erewrite bind_ok by (apply get_pool_info_ok; eassumption).
      cbv beta iota.
      erewrite bind_ok
        by (rewrite db_select_up by assumption; simpl pending;
            rewrite Hsel; reflexivity).
      reflexivity.
    + unfold db, select_pool, add_pool. simpl.
      rewrite filter_app.
      fold (select_pool self_chain pool_id (pending (sess st))).
      rewrite Hsel. simpl. unfold pool_matches. simpl.
      now rewrite String.eqb_refl, Z.eqb_refl.
Qed.

Lemma sync_pool_upserts_witness :
  let w := pool_world [pool_data_one; pool_data_one] in
  let st := fresh (db_of []) in
  exists db,
    sync_pool plain_schema w "sepolia" 1 st
    = (Ok tt, mkSt (mkSession (committed (sess st)) db) 3)
    /\ map Pool.lock_duration (select_pool "sepolia" 1 db) = [7200]
    /\ map Pool.id (select_pool "sepolia" 1 db) = [1].
Proof.
  intros w st.
  destruct (sync_pool_upserts plain_schema w "sepolia" 1 st pool_data_one
              1200 eq_refl eq_refl eq_refl) as [H _].
  pose proof (H pool_one eq_refl) as H'. cbv zeta in H'.
  destruct H' as (H1 & H2 & _).
  eexists. split; [exact H1|]. rewrite H2. split; reflexivity.
Defined.

(** X13. The read calls of the chain client never raise.  A failing pool
    count reads as 0; pool information is absent exactly when reading the
    pool tuple or, after it, the APY fails; a failing log query without
    argument filters reads as no events, and an empty filter set is the
    same as none.  The loop body of [sync_pools] skips a pool whose information
    is absent and leaves the session as it was. *)
Theorem chain_reads_degrade sch w self_chain st :
  get_pool_count w st
  = (Ok match call_poolCount w (tick st) with
        | Ok n => n
        | Raise _ => 0
        end, next st)
  /\ (forall pool_id,
         exists o st',
           get_pool_info w pool_id st = (Ok o, st')
           /\ sess st' = sess st
           /\ (o = None <->
               (exists e, call_getPool w (tick st) pool_id = Raise e)
               \/ (exists e, call_getPoolAPY w (S (tick st)) pool_id
                             = Raise e))
           /\ (o = None ->
               sync_pool sch w self_chain pool_id st = (Ok tt, st')))
  /\ (forall name from_block to_block filters,
         filters = None \/ filters = Some [] ->
         get_events w name from_block to_block filters st
         = (Ok (logs_or_empty
                  (get_logs w (tick st) name from_block to_block None)),
            next st)).
Proof.
  split; [|split].
  - unfold get_pool_count, try_except, rpc.
    now destruct (call_poolCount w (tick st)).
  - intros pool_id.
    unfold sync_pool, get_pool_info, try_except, bind, rpc, ret. cbv beta.
    destruct (call_getPool w (tick st) pool_id) as [pd|e1] eqn:E1.
    + simpl. destruct (call_getPoolAPY w (S (tick st)) pool_id)
        as [apy|e2] eqn:E2.
      * eexists. eexists. split; [reflexivity|]. split; [reflexivity|].
        split; [|discriminate]. split; [discriminate|].
        intros [[e [=]]|[e [=]]].
      * eexists. eexists. split; [reflexivity|]. split; [reflexivity|].
        split; [|reflexivity]. split; [|reflexivity]. intros _. right.
        now exists e2.
    + eexists. eexists. split; [reflexivity|]. split; [reflexivity|].
      split; [|reflexivity]. split; [|reflexivity]. intros _. left.
      now exists e1.
  - intros name from_block to_block filters [-> | ->];
      unfold get_events, try_except, rpc; cbv beta; simpl;
      destruct (get_logs _ _ _ _ _ _); reflexivity.
Qed.

(** ** The key of a created Stake row *)

(** X14. The Stake row that a Staked event creates (which it does when
    the unlock time is in the range of a datetime) is stored under the
    primary key of the Pool row, while every handler looks rows up under
    the on-chain pool id of the event: the lookup finds the new row when
    the two numbers are equal and finds nothing when they differ. *)
Theorem created_stake_is_keyed_by_pool_row
        sch w self_chain pool_id user amount timestamp st p :
  db_ok w (tick st) = true ->
  db_ok w (S (tick st)) = true ->
  db_ok w (S (S (tick st))) = true ->
  select_stake self_chain pool_id user (pending (sess st)) = [] ->
  select_pool self_chain pool_id (pending (sess st)) = [p] ->
  Pool.id p <> 0 ->
  unlock_fits (Some p) timestamp ->
  exists row st',
    _handle_stake sch w self_chain pool_id user amount timestamp st
    = (Ok tt, st')
    /\ stakes (pending (sess st')) = stakes (pending (sess st)) ++ [row]
    /\ Stake.pool_id row = Pool.id p
    /\ (Pool.id p = pool_id ->
        select_stake self_chain pool_id user (pending (sess st')) = [row])
    /\ (Pool.id p <> pool_id ->
        select_stake self_chain pool_id user (pending (sess st')) = []).
Proof.
  intros Hdb1 Hdb2 Hdb3 Hsel Hpool Hid Hfits.
  eexists. eexists.
  split; [exact (handle_stake_created sch w self_chain _ _ _ _ _ p
                   Hdb1 Hdb2 Hdb3 Hsel Hpool Hid Hfits)|].
  split; [reflexivity|]. split; [reflexivity|].
  unfold select_stake in *. simpl. rewrite filter_app, Hsel. simpl.
  unfold stake_matches. simpl. rewrite !String.eqb_refl. simpl.
  split; intros H.
  - apply Z.eqb_eq in H. now rewrite H.
  - apply Z.eqb_neq in H. now rewrite H.
Qed.

Lemma created_stake_is_keyed_by_pool_row_witness :
  let st := fresh (mkDB [pool_one_under_two] [] [] []) in
  exists row st',
    _handle_stake plain_schema (calm_world 100 []) "sepolia" 1 "0xaa" 10 500
                  st
    = (Ok tt, st')
    /\ stakes (pending (sess st')) = [row]
    /\ Stake.pool_id row = 2
    /\ select_stake "sepolia" 1 "0xaa" (pending (sess st')) = [].
Proof.
  intros st.
  destruct (created_stake_is_keyed_by_pool_row plain_schema
              (calm_world 100 []) "sepolia" 1 "0xaa" 10 500 st
              pool_one_under_two eq_refl eq_refl eq_refl eq_refl eq_refl)
    as (row & st' & H1 & H2 & H3 & _ & H5).
  - discriminate.
  - split; reflexivity.
  - exists row, st'. repeat split; try assumption.
    apply H5. discriminate.
Defined.

Lemma chain_reads_degrade_witness :
  get_events (deaf_world 100 three_logs "Staked") "Staked" 5 7 (Some [])
             (fresh empty_db)
  = (Ok [], next (fresh empty_db)).
Proof.
  destruct (chain_reads_degrade plain_schema
              (deaf_world 100 three_logs "Staked") "sepolia"
              (fresh empty_db)) as (_ & _ & H).
  apply (H "Staked" 5 7 (Some [])). now right.
Defined.

(** ** Chain configuration and the registry *)

Lemma lower_ascii_idem c : Py.lower_ascii (Py.lower_ascii c) = Py.lower_ascii c.
Proof.
  destruct c as [[] [] [] [] [] [] [] []]; vm_compute; reflexivity.
Qed.

Lemma lower_idem s : Py.lower (Py.lower s) = Py.lower s.
Proof.
  induction s as [|c s IH]; simpl; [reflexivity|].
  now rewrite lower_ascii_idem, IH.
Qed.

Lemma dict_get_in {V} (d : list (string * V)) k v :
  dict_get d k = Some v -> In (k, v) d.
Proof.
  unfold dict_get. destruct (find _ d) as [[k' v']|] eqn:E; intros [= <-].
  apply find_some in E as [Hin Hk]. simpl in Hk.
  apply String.eqb_eq in Hk. now subst.
Qed.

Lemma dict_get_none {V} (d : list (string * V)) k :
  dict_get d k = None -> ~ In k (map fst d).
Proof.
  unfold dict_get. destruct (find _ d) as [kv|] eqn:E; intros [=].
  intros Hin. apply in_map_iff in Hin as ([k' v'] & <- & Hin).
  apply (find_none _ _ E) in Hin. simpl in Hin.
  now rewrite String.eqb_refl in Hin.
Qed.

(** X15. [get_chain_config] takes the chain name in any letter case.  When
    it returns, the chain is one of the configured ones and its RPC URL is
    set and not empty; otherwise it raises [ValueError], and then the name
    is none of ethereum, arbitrum, base, sepolia, or the RPC URL of that
    chain is unset or empty. *)
Theorem get_chain_config_rules (s : Config.ChainSettings) (chain : string) :
  Config.get_chain_config s (Py.lower chain) = Config.get_chain_config s chain
  /\ (forall c,
         Config.get_chain_config s chain = Ok c ->
         In (Py.lower chain, c) (Config.chain_configs s)
         /\ exists url, Config.rpc_url c = Some url /\ url <> "")
  /\ (forall e,
         Config.get_chain_config s chain = Raise e ->
         e = ValueError
         /\ (~ In (Py.lower chain) ["ethereum"; "arbitrum"; "base"; "sepolia"]
             \/ exists c,
                 In (Py.lower chain, c) (Config.chain_configs s)
                 /\ (Config.rpc_url c = None \/ Config.rpc_url c = Some ""))).
Proof.
  unfold Config.get_chain_config. rewrite lower_idem.
  split; [reflexivity|].
  destruct (dict_get (Config.chain_configs s) (Py.lower chain))
    as [c|] eqn:E.
  - apply dict_get_in in E.
    destruct (Config.rpc_url c) as [url|] eqn:Eu.
    + destruct (String.eqb url "") eqn:Ee.
      * apply String.eqb_eq in Ee. subst url.
        split; [discriminate|]. intros e [= <-]. split; [reflexivity|].
        right. exists c. auto.
      * apply String.eqb_neq in Ee.
        split; [|discriminate]. intros c' [= <-].
        split; [exact E|]. now exists url.
    + split; [discriminate|]. intros e [= <-]. split; [reflexivity|].
      right. exists c. auto.
  - apply dict_get_none in E.
    split; [discriminate|]. intros e [= <-]. split; [reflexivity|].
    left. exact E.
Qed.

Lemma get_chain_config_rules_witness :
  (exists c, Config.get_chain_config Config.sepolia_only "Sepolia" = Ok c
             /\ Config.chain_id c = 11155111)
  /\ Config.get_chain_config Config.sepolia_only "arbitrum" = Raise ValueError
  /\ Config.get_chain_config Config.sepolia_only "polygon" = Raise ValueError.
Proof.
  destruct (get_chain_config_rules Config.sepolia_only "Sepolia")
    as (_ & H & _).
  destruct (Config.get_chain_config Config.sepolia_only "Sepolia")
    as [c|e] eqn:E; [|discriminate].
  destruct (H c eq_refl) as [Hin _].
  split; [|split; reflexivity].
  exists c. split; [reflexivity|].
  injection E as <-. reflexivity.
Defined.

Lemma get_chain_config_lower s chain :
  Config.get_chain_config s (Py.lower chain) = Config.get_chain_config s chain.
Proof. unfold Config.get_chain_config. now rewrite lower_idem. Qed.

Lemma dict_get_app_new {V} (d : list (string * V)) k v :
  dict_get d k = None -> dict_get (d ++ [(k, v)]) k = Some v.
Proof.
  unfold dict_get. intros H.
  destruct (find (fun kv => String.eqb (fst kv) k) d) as [kv|] eqn:E;
    [discriminate|].
  induction d as [|[k' v'] d IH]; simpl in *.
  - now rewrite String.eqb_refl.
  - destruct (String.eqb k' k); [discriminate|]. now apply IH.
Qed.

(** X16. [get_blockchain_service] builds the client of a chain at most
    once.  After a call that returned a client, every later call for the
    same chain name in any letter case returns that client and leaves the
    registry as it is, whatever the settings, the reachability of the
    endpoint and the configured contract address are by then.  A call that
    fails (no configuration, endpoint not connected, staking contract
    address refused) leaves the registry as it was, and a client is built
    only for a configured chain whose endpoint is connected and whose
    staking contract address is accepted; with the endpoint connected and
    the address refused the call fails on the address. *)
Theorem get_blockchain_service_caches s web3 reg chain :
  (forall svc reg',
      Registry.get_blockchain_service s web3 reg chain = (inl svc, reg') ->
      (forall s' web3' chain',
          Py.lower chain' = Py.lower chain ->
          Registry.get_blockchain_service s' web3' reg' chain'
          = (inl svc, reg'))
      /\ (dict_get reg (Py.lower chain) = None ->
          reg' = reg ++ [(Py.lower chain, svc)]
          /\ Registry.chain svc = Py.lower chain
          /\ Config.get_chain_config s chain = Ok (Registry.config svc)
          /\ (exists url, Config.rpc_url (Registry.config svc) = Some url
                          /\ Registry.is_connected web3 url = true)
          /\ Registry.to_checksum_address web3
               (Config.staking_contract (Registry.config svc)) = true))
  /\ (forall e reg',
         Registry.get_blockchain_service s web3 reg chain = (inr e, reg') ->
         reg' = reg /\ dict_get reg (Py.lower chain) = None)
  /\ (forall cfg url,
         dict_get reg (Py.lower chain) = None ->
         Config.get_chain_config s chain = Ok cfg ->
         Config.rpc_url cfg = Some url ->
         Registry.is_connected web3 url = true ->
         Registry.to_checksum_address web3 (Config.staking_contract cfg)
         = false ->
         Registry.get_blockchain_service s web3 reg chain
         = (inr Registry.BadContractAddress, reg)).
Proof.
  unfold Registry.get_blockchain_service. split; [|split].
  - intros svc reg' H.
    destruct (dict_get reg (Py.lower chain)) as [svc0|] eqn:E.
    + injection H as <- <-. split; [|discriminate].
      intros s' c' chain' ->. now rewrite E.
    + unfold Registry.init in H.
      rewrite get_chain_config_lower in H.
      destruct (Config.get_chain_config s chain) as [cfg|e0] eqn:Ec;
        [|discriminate].
      destruct (Config.rpc_url cfg) as [url|] eqn:Eu; [|discriminate].
      destruct (Registry.is_connected web3 url) eqn:Econn; [|discriminate].
      destruct (Registry.to_checksum_address web3
                  (Config.staking_contract cfg)) eqn:Eaddr; [|discriminate].
      injection H as <- <-. rewrite lower_idem. split.
      * intros s' c' chain' ->. now rewrite (dict_get_app_new reg _ _ E).
      * intros _. simpl. repeat split; [|exact Eaddr]. now exists url.
  - intros e reg' H.
    destruct (dict_get reg (Py.lower chain)) as [svc0|] eqn:E;
      [discriminate|].
    destruct (Registry.init s web3 (Py.lower chain));
      [discriminate|].
    injection H as _ <-. now split.
  - intros cfg url E Hcfg Hurl Hconn Haddr. rewrite E.
    unfold Registry.init.
    now rewrite get_chain_config_lower, Hcfg, Hurl, Hconn, Haddr.
Qed.

Lemma get_blockchain_service_caches_witness :
  let up := Registry.web3_of true in
  let down := Registry.web3_of false in
  (exists svc reg',
      Registry.get_blockchain_service Config.sepolia_only up [] "Sepolia"
      = (inl svc, reg')
      /\ Registry.get_blockchain_service Config.sepolia_without_contract down
                                         reg' "SEPOLIA"
         = (inl svc, reg'))
  /\ Registry.get_blockchain_service Config.sepolia_without_contract up []
                                     "Sepolia"
     = (inr Registry.BadContractAddress, []).
Proof.
  intros up down. split.
  - destruct (Registry.get_blockchain_service Config.sepolia_only up []
                "Sepolia") as [[svc|e] reg'] eqn:E; [|discriminate].
    exists svc, reg'. split; [reflexivity|].
    destruct (get_blockchain_service_caches Config.sepolia_only up []
                "Sepolia") as [H _].
    destruct (H svc reg' E) as [Hc _].
    apply Hc. reflexivity.
  - destruct (get_blockchain_service_caches Config.sepolia_without_contract
                up [] "Sepolia") as (_ & _ & H).
    eapply H; reflexivity.
Defined.

(** ** Dates out of range *)

(** X18. The Staked rule when a date is out of range.  If the lock
    duration of the Pool row is too long for a [timedelta], the rule raises
    OverflowError before it changes anything, whether the Stake row exists
    or not.  If the lock duration fits but the event time plus the lock
    duration is beyond the last datetime, the rule on a found row raises
    OverflowError after it has assigned the new staked amount and the last
    stake time: the unlock time and the active flag of the row are still
    the old ones, so a row that was zeroed and inactive is left inactive
    with a positive amount. *)
Theorem handle_stake_out_of_range
        sch w self_chain pool_id user amount timestamp st :
  db_ok w (tick st) = true ->
  db_ok w (S (tick st)) = true ->
  (forall stake p,
      scalar_one_or_none
        (select_stake self_chain pool_id user (pending (sess st)))
      = Ok stake ->
      select_pool self_chain pool_id (pending (sess st)) = [p] ->
      Py.timedelta_seconds (Pool.lock_duration p) = Raise OverflowError ->
      _handle_stake sch w self_chain pool_id user amount timestamp st
      = (Raise OverflowError, mkSt (sess st) (2 + tick st)))
  /\ (forall row cur pool,
         select_stake self_chain pool_id user (pending (sess st)) = [row] ->
         scalar_one_or_none
           (select_pool self_chain pool_id (pending (sess st)))
         = Ok pool ->
         Py.int (Stake.staked_amount row) = Some cur ->
         match pool with
         | Some p => Py.timedelta_seconds (Pool.lock_duration p)
         | None => Ok seven_days
         end = Ok (lock_of pool) ->
         Py.datetime_add timestamp (lock_of pool) = Raise OverflowError ->
         exists row' st',
           _handle_stake sch w self_chain pool_id user amount timestamp st
           = (Raise OverflowError, st')
           /\ committed (sess st') = committed (sess st)
           /\ select_stake self_chain pool_id user (pending (sess st'))
              = [row']
           /\ Py.int (Stake.staked_amount row') = Some (cur + amount)
           /\ Stake.last_stake_time row' = timestamp
           /\ Stake.unlock_time row' = Stake.unlock_time row
           /\ Stake.is_active row' = Stake.is_active row
           /\ (Stake.is_active row = false -> 0 < cur + amount ->
               ~ stake_inv row')).
Proof.
  intros Hdb1 Hdb2. split.
  - intros stake p Hstake Hpool Hdelta. unfold _handle_stake.
    erewrite bind_ok by (rewrite db_select_up by assumption;
                         rewrite Hstake; reflexivity).
    erewrite bind_ok by (rewrite db_select_up by assumption;
                         simpl; rewrite Hpool; reflexivity).
    unfold bind, lift_result. simpl. now rewrite Hdelta.
  - intros row cur pool Hsel Hpool Hint Hdelta Hadd.
    eexists. eexists.
    split; [exact (handle_stake_overflow sch w self_chain _ _ _ _ _ row cur
                     pool Hdb1 Hdb2 Hsel Hpool Hint Hdelta Hadd)|].
    split; [reflexivity|].
    split.
    { simpl. rewrite select_set_stake by (intros r0; now simpl).
      now rewrite Hsel. }
    simpl. rewrite int_str. repeat split.
    intros Hact Hpos (n & Hn & _ & Hiff). simpl in Hn, Hiff.
    rewrite int_str in Hn. injection Hn as <-.
    apply Hiff in Hpos. congruence.
Qed.

Lemma handle_stake_out_of_range_witness :
  let st := fresh (mkDB [pool_locked_for 260000000000] [stake_of "0" false]
                        [] []) in
  let st0 := fresh (mkDB [pool_locked_for 100000000000000000] [] [] []) in
  (exists row' st',
      _handle_stake plain_schema (calm_world 100 []) "sepolia" 1 "0xaa" 10
                    1600000000 st
      = (Raise OverflowError, st')
      /\ stakes (pending (sess st')) = [row']
      /\ Stake.staked_amount row' = "10"
      /\ Stake.is_active row' = false
      /\ ~ stake_inv row')
  /\ _handle_stake plain_schema (calm_world 100 []) "sepolia" 1 "0xaa" 10
                   1600000000 st0
     = (Raise OverflowError, mkSt (sess st0) 2).
Proof.
  intros st st0. split.
  - destruct (handle_stake_out_of_range plain_schema (calm_world 100 [])
                "sepolia" 1 "0xaa" 10 1600000000 st eq_refl eq_refl)
      as [_ H].
    destruct (H (stake_of "0" false) 0 (Some (pool_locked_for 260000000000))
                eq_refl eq_refl eq_refl eq_refl eq_refl)
      as (row' & st' & H1 & _ & H3 & _ & _ & _ & H7 & H8).
    exists row', st'. split; [exact H1|].
    assert (Hst : st' = after 2
                    (set_stake "sepolia" 1 "0xaa"
                       (fun r => set_last_stake_time 1600000000
                                   (set_staked_amount (Py.str (0 + 10)) r)))
                    st).
    { match type of H1 with
      | ?lhs = _ =>
          let v := eval vm_compute in lhs in
          assert (Hv : lhs = v) by (vm_compute; reflexivity)
      end.
      rewrite Hv in H1. injection H1 as <-. reflexivity. }
    subst st'. simpl in H3. injection H3 as <-.
    repeat split.
    apply H8; [reflexivity | lia].
  - destruct (handle_stake_out_of_range plain_schema (calm_world 100 [])
                "sepolia" 1 "0xaa" 10 1600000000 st0 eq_refl eq_refl)
      as [H _].
    apply (H None (pool_locked_for 100000000000000000)); reflexivity.
Defined.
